(** * news-pdf-scraper: the category cache and the listing de-duplication

    A shallow embedding of [app/services/cache.py] (class [CacheManager]), of
    [app/services/scraper.py] (class [IndianExpressScraper]) from the parsed
    page on, and of the handler [generate_pdf] of [app/api/routes.py], with
    the properties of the freshness-and-merge engine proved about it.

    Conventions of the embedding.
    - Python [int] is [Z]; [len] is a [nat] injected into [Z] where the source
      compares it with an [int].
    - Python [str] is [string]; a character is a code point below 256.
    - [datetime] is a number of microseconds ([Z]); [timedelta(hours=4)] is
      [FOUR_HOURS].
    - Python [set] and the [results] dict are stdpp's [gset] and [gmap].
    - The database session, the HTTP session, the summarizer and the clock
      are effects: the code runs in the monad [M] over a [World] that holds
      the two tables, and asks an environment [Env] for everything the
      outside decides. *)

From Stdlib Require Import ZArith Ascii String List Lia.
From stdpp Require Import base gmap sets list strings sorting.

Local Open Scope Z_scope.
#[local] Set Warnings "-clear-no-such-hyp".

(** ** Python string methods used by the source *)

Module Py.

(** [str.isspace] on one code point below 256. *)
Definition isspace (c : ascii) : bool :=
  let n := nat_of_ascii c in
  ((9 <=? n)%nat && (n <=? 13)%nat) || ((28 <=? n)%nat && (n <=? 32)%nat)
  || (n =? 133)%nat || (n =? 160)%nat.

Fixpoint lstrip (s : string) : string :=
  match s with
  | String c s' => if isspace c then lstrip s' else s
  | EmptyString => EmptyString
  end.

Definition rstrip (s : string) : string := String.rev (lstrip (String.rev s)).

(** [s.strip()] *)
Definition strip (s : string) : string := rstrip (lstrip s).

Definition lower_char (c : ascii) : ascii :=
  let n := nat_of_ascii c in
  if ((65 <=? n)%nat && (n <=? 90)%nat)
     || ((192 <=? n)%nat && (n <=? 222)%nat && negb (n =? 215)%nat)
  then ascii_of_nat (n + 32) else c.

(** [s.lower()] *)
Fixpoint lower (s : string) : string :=
  match s with
  | String c s' => String (lower_char c) (lower s')
  | EmptyString => EmptyString
  end.

Fixpoint split_go (s word : string) : list string :=
  match s with
  | EmptyString => if decide (word = "") then [] else [word]
  | String c s' =>
      if isspace c
      then (if decide (word = "") then split_go s' "" else word :: split_go s' "")
      else split_go s' (word +:+ String c "")
  end.

(** [s.split()]: the maximal runs of non-space characters. *)
Definition split (s : string) : list string := split_go s "".

Fixpoint split_on_go (sep : ascii) (s word : string) : list string :=
  match s with
  | EmptyString => [word]
  | String c s' =>
      if decide (c = sep) then word :: split_on_go sep s' ""
      else split_on_go sep s' (word +:+ String c "")
  end.

(** [s.split(sep)] for a one-character separator. *)
Definition split_on (sep : ascii) (s : string) : list string := split_on_go sep s "".

(** [s.startswith(p)] *)
Fixpoint startswith (s p : string) : bool :=
  match p, s with
  | EmptyString, _ => true
  | String a p', String b s' => if decide (a = b) then startswith s' p' else false
  | String _ _, EmptyString => false
  end.

(** [sub in s] *)
Fixpoint contains (sub s : string) : bool :=
  startswith s sub
  || match s with
     | String _ s' => contains sub s'
     | EmptyString => false
     end.

(** [xs[:n]] for an [int] bound: a negative bound counts from the end. *)
Definition slice_to {A} (xs : list A) (n : Z) : list A :=
  if 0 <=? n then take (Z.to_nat n) xs
  else take (length xs - Z.to_nat (- n)) xs.

(** [len(xs)] as an [int]. *)
Definition len {A} (xs : list A) : Z := Z.of_nat (length xs).

(** Truth value of a [str]. *)
Definition truthy (s : string) : bool := if decide (s = "") then false else true.

End Py.

(** ** [app/services/scraper.py]: the near-duplicate filter *)

(** A listing entry: the dict [{'url', 'title', 'category'}] built by
    [get_category_articles]. *)
Record Stub := mkStub {
  stub_url : string;
  stub_title : string;
  stub_category : string
}.

Global Instance Stub_eq_dec : EqDecision Stub.
Proof. solve_decision. Defined.

(** [article['title'].lower().strip()] *)
Definition title_normalized (article : Stub) : string :=
  Py.strip (Py.lower (stub_title article)).

(** [set(t.split())] *)
Definition word_set (t : string) : gset string := list_to_set (Py.split t).

(** The test of lines 222-226 on two word sets:
    [len(common_words) / max(len(title_words), len(seen_words)) > 0.7]
    under the guard that both sets are non-empty. The source divides in
    floating point and compares with the double nearest to 0.7; for set sizes
    below 2^49 that comparison agrees with the exact one over the rationals,
    [10 * |common| > 7 * max], which is what is written here. *)
Definition similar (title_words seen_words : gset string) : bool :=
  (0 <? size title_words)%nat && (0 <? size seen_words)%nat
  && (7 * (size title_words `max` size seen_words)
      <? 10 * size (title_words ∩ seen_words))%nat.

(** The inner loop over [seen_titles] (lines 218-228): it only decides whether
    some seen title is similar, so the iteration order of the set is
    immaterial. *)
Definition is_duplicate (title_words : gset string) (seen_titles : gset string) : bool :=
  existsb (fun seen_title => similar title_words (word_set seen_title))
          (elements seen_titles).

(** The outer loop (lines 213-232), with its two accumulators. *)
Fixpoint dedup_loop (articles unique_articles : list Stub)
    (seen_titles : gset string) : list Stub :=
  match articles with
  | [] => unique_articles
  | article :: rest =>
      let title_words := word_set (title_normalized article) in
      if is_duplicate title_words seen_titles
      then dedup_loop rest unique_articles seen_titles
      else dedup_loop rest (unique_articles ++ [article])
                      ({[ title_normalized article ]} ∪ seen_titles)
  end.

Definition _deduplicate_articles (articles : list Stub) : list Stub :=
  match articles with
  | [] => []
  | _ => dedup_loop articles [] ∅
  end.

(** The overlap ratio [|intersection| / max(|a's words|, |b's words|)] of the
    two stubs' normalized titles exceeds 0.7, in exact arithmetic. *)
Definition overlap_exceeds (a b : Stub) : Prop :=
  (7 * (size (word_set (title_normalized a)) `max` size (word_set (title_normalized b)))
   < 10 * size (word_set (title_normalized a) ∩ word_set (title_normalized b)))%nat.

Global Instance overlap_exceeds_dec a b : Decision (overlap_exceeds a b).
Proof. unfold overlap_exceeds. apply _. Defined.

(** ** [app/services/scraper.py]: building a category listing *)

(** [settings.CATEGORIES] of [app/config.py]. *)
Definition CATEGORIES : gmap string string :=
  list_to_map
    [("india", "https://indianexpress.com/section/india/");
     ("politics", "https://indianexpress.com/section/political-pulse/");
     ("sports", "https://indianexpress.com/section/sports/");
     ("technology", "https://indianexpress.com/section/technology/");
     ("business", "https://indianexpress.com/section/business/");
     ("world", "https://indianexpress.com/section/world/");
     ("explained", "https://indianexpress.com/section/explained/");
     ("lifestyle", "https://indianexpress.com/section/lifestyle/");
     ("opinion", "https://indianexpress.com/section/opinion/");
     ("cities", "https://indianexpress.com/section/cities/")].

Definition skip_patterns : list string :=
  ["/videos/"; "/photos/"; "/gallery/"; "/live-blog/";
   "/subscribe"; "/newsletter"; "/contact"; "/about";
   "/privacy"; "/terms"; "/advertise"; "/jobs";
   "facebook.com"; "twitter.com"; "instagram.com";
   "youtube.com"; "whatsapp.com"; "telegram.me"].

Definition valid_patterns : list string :=
  ["/section/"; "/article/"; "/explained/"; "/opinion/";
   "/sports/"; "/business/"; "/cities/"; "/lifestyle/";
   "/entertainment/"; "/technology/"; "/world/"].

Definition _is_valid_article_url (url : string) : bool :=
  let url_lower := Py.lower url in
  if existsb (fun pattern => Py.contains pattern url_lower) skip_patterns then false
  else if existsb (fun pattern => Py.contains pattern url_lower) valid_patterns then true
  else Py.contains "indianexpress.com" url_lower
       && (4 <=? Py.len (Py.split_on "/" url)).

(** An anchor element of the parsed page, as far as the listing code looks at
    it: its [href] attribute ([link.get('href', '')]) and the title that
    [_extract_title_from_link] computes from the element and its
    surroundings. *)
Record Link := mkLink {
  link_href : string;
  link_title : string
}.

(** What the listing code reads off a parsed category page:
    [soup.select(selector)] for each of the eight headline selectors, in
    order, and [soup.find_all('a', href=True)]. *)
Record Page := mkPage {
  headline_links : list (list Link);
  all_links : list Link
}.

(** Lines 54-64 and 85-94: the stripped href made absolute; [None] stands for
    [continue]. *)
Definition full_url_of (link : Link) : option string :=
  let href := Py.strip (link_href link) in
  if negb (Py.truthy href) then None
  else if Py.startswith href "/" then Some ("https://indianexpress.com" +:+ href)
  else if Py.startswith href "http" then Some href
  else None.

(** The two accumulators of [get_category_articles]: [articles] and
    [found_urls]. *)
Definition scan_state : Type := list Stub * gset string.

(** Lines 68-76 and 97-105. *)
Definition add_link (category : string) (link : Link) (full_url : string)
    (st : scan_state) : scan_state :=
  let title := link_title link in
  if Py.truthy title && (15 <? String.length (Py.strip title))%nat
  then (st.1 ++ [mkStub full_url (Py.strip title) category], {[ full_url ]} ∪ st.2)
  else st.

(** Body of the loop over one selector's links (lines 53-76). *)
Definition headline_step (category : string) (limit : Z)
    (st : scan_state) (link : Link) : scan_state :=
  match full_url_of link with
  | None => st
  | Some full_url =>
      if Py.contains "indianexpress.com" full_url
         && bool_decide (full_url ∉ st.2)
         && _is_valid_article_url full_url
         && (Z.of_nat (size st.2) <? limit * 2)
      then add_link category link full_url st
      else st
  end.

(** The loop over all links (lines 81-105), which stops as soon as [limit]
    articles are collected. *)
Fixpoint fallback_loop (category : string) (limit : Z)
    (links : list Link) (st : scan_state) : scan_state :=
  match links with
  | [] => st
  | link :: rest =>
      if limit <=? Py.len st.1 then st
      else
        fallback_loop category limit rest
          match full_url_of link with
          | None => st
          | Some full_url =>
              if Py.contains "indianexpress.com" full_url
                 && bool_decide (full_url ∉ st.2)
                 && _is_valid_article_url full_url
              then add_link category link full_url st
              else st
          end
  end.

(** Lines 41-112 of [get_category_articles], from the parsed page on. *)
Definition listing_of_page (category : string) (limit : Z) (page : Page) : list Stub :=
  let st := foldl (foldl (headline_step category limit)) ([], ∅) (headline_links page) in
  let st := if Py.len st.1 <? limit
            then fallback_loop category limit (all_links page) st else st in
  Py.slice_to (_deduplicate_articles st.1) limit.

(** ** [app/models.py]: the two tables *)

(** A row of table [articles]. The columns hold what [store_articles_in_db]
    writes, strings and the time of insertion; [url] is declared unique. *)
Record Article := mkArticle {
  row_id : Z;
  row_url : string;
  row_category : string;
  row_title : string;
  row_summary : string;
  row_content : string;
  row_content_hash : string;
  row_scraped_at : Z
}.

(** A row of table [category_cache]; [category_name] is its unique key, and
    [cached_articles_json] the list of article ids. *)
Record CategoryCache := mkCategoryCache {
  category_name : string;
  latest_article_url : string;
  cached_articles_json : list Z;
  cached_at : Z
}.

(** ** Values passed around by the cache manager *)

(** The dict returned by [get_article_content]. *)
Record Scraped := mkScraped {
  s_url : string;
  s_title : string;
  s_content : string;
  s_content_hash : string
}.

(** An article dict as [get_articles_with_cache] handles it: a scraped
    article once its ['category'] is set, or a cached row turned into a dict
    by [get_cached_articles]. Keys that one of the two shapes lacks are
    optional. *)
Record ArticleDict := mkArticleDict {
  a_url : string;
  a_title : string;
  a_content : string;
  a_category : string;
  a_content_hash : option string;
  a_heading : option string;
  a_summary : option string;
  a_scraped_at : option Z
}.

(** The dict returned by [summarizer.summarize_text]. *)
Record Summary := mkSummary {
  sum_heading : string;
  sum_summary : string
}.

(** ** Effects *)

(** Calls to the two fetchers, recorded in the order they are made. *)
Inductive Call :=
  | ListingCall (category : string) (limit : Z)
  | ContentCall (article_url : string).

(** The state the code runs over: the two tables, the record of fetcher
    calls, and [tick], the number of questions put to the environment so
    far. *)
Record World := mkWorld {
  tick : nat;
  articles : list Article;
  category_cache : gmap string CategoryCache;
  calls : list Call
}.

(** Everything the outside decides, as a function of the moment ([tick]) it
    is asked: what an HTTP request for a category page or an article page
    yields ([None] when the request or the parsing raises), what the
    summarizer answers, what the clock shows, and whether a database
    statement fails. [sha256] is the hex digest of [hashlib.sha256]. *)
Record Env := mkEnv {
  http_listing : nat -> string -> option Page;
  http_article : nat -> string -> option (string * string);
  summarize_text : nat -> string -> string -> Summary;
  utcnow : nat -> Z;
  db_fault : nat -> bool;
  sha256 : string -> string
}.

(** The only exception that reaches the cache manager's own code: a failed
    database statement (the fetchers catch theirs, the summarizer falls back
    to truncation). *)
Inductive Exn := StoreError (at_tick : nat).

Inductive Outcome (A : Type) :=
  | Ok (a : A)
  | Raise (e : Exn).
Arguments Ok {A} a.
Arguments Raise {A} e.

Definition M (A : Type) : Type := World -> Outcome A * World.

Definition ret {A} (a : A) : M A := fun w => (Ok a, w).

Definition bind {A B} (m : M A) (k : A -> M B) : M B :=
  fun w =>
    match m w with
    | (Ok a, w') => k a w'
    | (Raise e, w') => (Raise e, w')
    end.

Notation "'let*' x := m 'in' k" := (bind m (fun x => k))
  (at level 10, x pattern, m at level 100, k at level 200).

(** [try: body except Exception: handler] *)
Definition try_except {A} (body : M A) (handler : Exn -> M A) : M A :=
  fun w =>
    match body w with
    | (Ok a, w') => (Ok a, w')
    | (Raise e, w') => handler e w'
    end.

(** [try: body finally: final] *)
Definition try_finally {A} (body : M A) (final : M unit) : M A :=
  fun w =>
    match body w with
    | (r, w') =>
        match final w' with
        | (Ok _, w'') => (r, w'')
        | (Raise e, w'') => (Raise e, w'')
        end
    end.

Definition advance (w : World) : World :=
  mkWorld (S (tick w)) (articles w) (category_cache w) (calls w).

Definition record_call (c : Call) : M unit :=
  fun w => (Ok tt, mkWorld (tick w) (articles w) (category_cache w) (calls w ++ [c])).

Definition set_articles (rows : list Article) : M unit :=
  fun w => (Ok tt, mkWorld (tick w) rows (category_cache w) (calls w)).

Definition set_category_cache (cc : gmap string CategoryCache) : M unit :=
  fun w => (Ok tt, mkWorld (tick w) (articles w) cc (calls w)).

Definition read {A} (f : World -> A) : M A := fun w => (Ok (f w), w).

(** [timedelta(hours=4)], in microseconds. *)
Definition FOUR_HOURS : Z := 4 * 3600 * 1000000.

(** The first row of the table with the given url. *)
Definition first_by_url (url : string) (rows : list Article) : option Article :=
  find (fun r => bool_decide (row_url r = url)) rows.

(** ** The effectful code, for a fixed environment *)

Section Code.

Variable env : Env.

(** Put a question to the environment. *)
Definition ask {A} (oracle : nat -> A) : M A :=
  fun w => (Ok (oracle (tick w)), advance w).

(** [datetime.utcnow()] *)
Definition datetime_utcnow : M Z := ask (utcnow env).

(** One round trip to the database ([.first()], [.all()], [commit()],
    [refresh()]): it raises when the environment says so. *)
Definition db_execute : M unit :=
  fun w =>
    if db_fault env (tick w) then (Raise (StoreError (tick w)), advance w)
    else (Ok tt, advance w).

(** [db.close()] *)
Definition db_close : M unit := ret tt.

(** *** [IndianExpressScraper] *)

(** [get_category_articles]: the lookup of the category url, then the body
    of the [try], where [None] from the environment is the [except] branch.
    The cache manager always passes [limit], so the default
    [settings.N_ARTICLES] does not appear. *)
Definition get_category_articles (category : string) (limit : Z) : M (list Stub) :=
  let* _ := record_call (ListingCall category limit) in
  match CATEGORIES !! category with
  | None => ret []
  | Some category_url =>
      let* page := ask (fun t => http_listing env t category_url) in
      match page with
      | Some page => ret (listing_of_page category limit page)
      | None => ret []
      end
  end.

(** [get_article_content]: the environment gives the extracted title and the
    concatenated paragraphs of the page, or [None] when the request raises. *)
Definition get_article_content (article_url : string) : M (option Scraped) :=
  let* _ := record_call (ContentCall article_url) in
  let* page := ask (fun t => http_article env t article_url) in
  match page with
  | Some (title, content) =>
      if negb (Py.truthy (Py.strip content)) then ret None
      else ret (Some (mkScraped article_url title (Py.strip content) (sha256 env content)))
  | None => ret None
  end.

(** *** [CacheManager] *)

(** [db.query(CategoryCache).filter(CategoryCache.category_name == category).first()] *)
Definition query_category_cache (category : string) : M (option CategoryCache) :=
  let* _ := db_execute in
  read (fun w => category_cache w !! category).

(** [db.query(Article).filter(Article.url == url).first()] *)
Definition query_article_by_url (url : string) : M (option Article) :=
  let* _ := db_execute in
  read (fun w => first_by_url url (articles w)).

Fixpoint insert_desc (r : Article) (rows : list Article) : list Article :=
  match rows with
  | [] => [r]
  | r' :: rest =>
      if row_scraped_at r' <=? row_scraped_at r then r :: rows
      else r' :: insert_desc r rest
  end.

(** [order_by(Article.scraped_at.desc())]; rows of equal [scraped_at] keep
    their table order. *)
Definition order_by_scraped_at_desc (rows : list Article) : list Article :=
  foldr insert_desc [] rows.

(** [db.query(Article).filter(Article.id.in_(article_ids))
       .order_by(Article.scraped_at.desc()).all()] *)
Definition query_articles_in (article_ids : list Z) : M (list Article) :=
  let* _ := db_execute in
  read (fun w =>
    order_by_scraped_at_desc
      (filter (fun r => row_id r ∈ article_ids) (articles w))).

(** Lines 45-53. *)
Definition dict_of_row (article : Article) : ArticleDict :=
  {| a_url := row_url article;
     a_title := row_title article;
     a_summary := Some (row_summary article);
     a_content := row_content article;
     a_category := row_category article;
     a_heading := Some (row_title article);
     a_scraped_at := Some (row_scraped_at article);
     a_content_hash := None |}.

Definition get_cached_articles (category : string) : M (option (list ArticleDict)) :=
  let* cache_entry := query_category_cache category in
  match cache_entry with
  | None => ret None
  | Some cache_entry =>
      let* now := datetime_utcnow in
      let cache_age := now - cached_at cache_entry in
      if FOUR_HOURS <? cache_age then ret None
      else
        match cached_articles_json cache_entry with
        | [] => ret None
        | article_ids =>
            let* cached_articles := query_articles_in article_ids in
            ret (Some (map dict_of_row cached_articles))
        end
  end.

Definition get_latest_article_url (category : string) : M (option string) :=
  try_except
    (let* articles := get_category_articles category 1 in
     match articles with
     | article :: _ => ret (Some (stub_url article))
     | [] => ret None
     end)
    (fun _ => ret None).

Definition should_update_cache (category : string) : M (bool * option string) :=
  let* cache_entry := query_category_cache category in
  let* current_latest_url := get_latest_article_url category in
  match cache_entry with
  | None => ret (true, None)
  | Some cache_entry =>
      let* now := datetime_utcnow in
      let cache_age := now - cached_at cache_entry in
      if FOUR_HOURS <? cache_age
      then ret (true, Some (latest_article_url cache_entry))
      else if bool_decide (Some (latest_article_url cache_entry) ≠ current_latest_url)
      then ret (true, Some (latest_article_url cache_entry))
      else ret (false, Some (latest_article_url cache_entry))
  end.

(** Lines 97-101: the index of the first listing entry with the cached url. *)
Fixpoint find_cached_index (all_articles : list Stub) (latest_cached_url : string)
    (i : nat) : option nat :=
  match all_articles with
  | [] => None
  | article :: rest =>
      if decide (stub_url article = latest_cached_url) then Some i
      else find_cached_index rest latest_cached_url (S i)
  end.

Definition get_incremental_articles (category latest_cached_url : string)
    (limit : Z) : M (list Stub) :=
  try_except
    (let* all_articles := get_category_articles category (limit * 3) in
     match find_cached_index all_articles latest_cached_url 0 with
     | Some cached_index => ret (take cached_index all_articles)
     | None => ret (Py.slice_to all_articles limit)
     end)
    (fun _ => ret []).

(** The next value of the integer primary key, as SQLite assigns it: one more
    than the largest id in the table. *)
Definition next_id (rows : list Article) : Z :=
  1 + foldr Z.max 0 (map row_id rows).

(** Lines 131-142: build the row, [db.add], [db.commit], [db.refresh]. The
    column default of [scraped_at] reads the clock when the row is
    inserted. The caller has just found no row with this url, so the unique
    constraint on [url] cannot fire. *)
Definition add_article (article_data : ArticleDict) : M Article :=
  let* now := datetime_utcnow in
  let* _ := db_execute in
  let* rows := read articles in
  let article :=
    {| row_id := next_id rows;
       row_url := a_url article_data;
       row_category := a_category article_data;
       row_title := a_title article_data;
       row_summary := default "" (a_summary article_data);
       row_content := a_content article_data;
       row_content_hash := default "" (a_content_hash article_data);
       row_scraped_at := now |} in
  let* _ := set_articles (rows ++ [article]) in
  let* _ := db_execute in
  ret article.

Fixpoint store_loop (articles_with_content : list ArticleDict)
    (article_ids : list Z) : M (list Z) :=
  match articles_with_content with
  | [] => ret article_ids
  | article_data :: rest =>
      let* existing := query_article_by_url (a_url article_data) in
      match existing with
      | Some existing => store_loop rest (article_ids ++ [row_id existing])
      | None =>
          let* article := add_article article_data in
          store_loop rest (article_ids ++ [row_id article])
      end
  end.

Definition store_articles_in_db (articles_with_content : list ArticleDict) : M (list Z) :=
  store_loop articles_with_content [].

Definition update_category_cache (category : string) (article_ids : list Z)
    (latest_url : string) : M unit :=
  let* cache_entry := query_category_cache category in
  let* now := datetime_utcnow in
  let* cc := read category_cache in
  let* _ := db_execute in
  match cache_entry with
  | Some _ =>
      set_category_cache
        (<[category := mkCategoryCache category latest_url article_ids now]> cc)
  | None =>
      set_category_cache
        (<[category := mkCategoryCache category latest_url article_ids now]> cc)
  end.

(** [article_content['category'] = category] on a freshly scraped dict. *)
Definition with_category (category : string) (article_content : Scraped) : ArticleDict :=
  {| a_url := s_url article_content;
     a_title := s_title article_content;
     a_content := s_content article_content;
     a_content_hash := Some (s_content_hash article_content);
     a_category := category;
     a_heading := None;
     a_summary := None;
     a_scraped_at := None |}.

(** Lines 207-212: resolve each new link, dropping those that fail. *)
Fixpoint resolve_links (category : string) (new_article_links : list Stub)
    (new_articles_with_content : list ArticleDict) : M (list ArticleDict) :=
  match new_article_links with
  | [] => ret new_articles_with_content
  | article_link :: rest =>
      let* article_content := get_article_content (stub_url article_link) in
      match article_content with
      | Some article_content =>
          resolve_links category rest
            (new_articles_with_content ++ [with_category category article_content])
      | None => resolve_links category rest new_articles_with_content
      end
  end.

(** Lines 216-222 and 251-257: an article with content gets the summarizer's
    heading and summary. *)
Definition summarize (article : ArticleDict) : M ArticleDict :=
  if Py.truthy (a_content article)
  then
    let* summary_result :=
      ask (fun t => summarize_text env t (a_content article) (a_title article)) in
    ret {| a_url := a_url article;
           a_title := a_title article;
           a_content := a_content article;
           a_content_hash := a_content_hash article;
           a_category := a_category article;
           a_heading := Some (sum_heading summary_result);
           a_summary := Some (sum_summary summary_result);
           a_scraped_at := a_scraped_at article |}
  else ret article.

(** Lines 215-222. *)
Fixpoint summarize_all (new_articles_with_content : list ArticleDict)
    : M (list ArticleDict) :=
  match new_articles_with_content with
  | [] => ret []
  | article :: rest =>
      let* article := summarize article in
      let* rest := summarize_all rest in
      ret (article :: rest)
  end.

(** Lines 244-259: the loop of the top-up pass. *)
Fixpoint top_up_loop (category : string) (limit : Z) (additional_links : list Stub)
    (final_articles : list ArticleDict) (existing_urls : gset string)
    : M (list ArticleDict) :=
  match additional_links with
  | [] => ret final_articles
  | article_link :: rest =>
      if limit <=? Py.len final_articles then ret final_articles
      else if bool_decide (stub_url article_link ∉ existing_urls)
      then
        let* article_content := get_article_content (stub_url article_link) in
        match article_content with
        | Some article_content =>
            let* article_content := summarize (with_category category article_content) in
            top_up_loop category limit rest
              (final_articles ++ [article_content])
              ({[ stub_url article_link ]} ∪ existing_urls)
        | None => top_up_loop category limit rest final_articles existing_urls
        end
      else top_up_loop category limit rest final_articles existing_urls
  end.

(** Truth value of an [Optional[str]]. *)
Definition url_given (latest_cached_url : option string) : bool :=
  match latest_cached_url with
  | Some u => Py.truthy u
  | None => false
  end.

(** [{a['url'] for a in xs}] *)
Definition url_set (xs : list ArticleDict) : gset string :=
  list_to_set (map a_url xs).

(** Lines 192-205: the links to resolve and the cached articles to merge
    them with. *)
Definition fetch_links (category : string) (limit : Z)
    (latest_cached_url : option string) : M (list Stub * list ArticleDict) :=
  if url_given latest_cached_url
  then
    let* new_article_links :=
      get_incremental_articles category (default "" latest_cached_url) limit in
    let* cached_articles := get_cached_articles category in
    ret (new_article_links, default [] cached_articles)
  else
    let* new_article_links := get_category_articles category limit in
    ret (new_article_links, []).

(** Lines 191-259: fetch, resolve, summarize, merge, truncate, top up. *)
Definition gather (category : string) (limit : Z)
    (latest_cached_url : option string) : M (list ArticleDict) :=
  let* (new_article_links, cached_articles) :=
    fetch_links category limit latest_cached_url in
  let* new_articles_with_content := resolve_links category new_article_links [] in
  let* new_articles_with_content := summarize_all new_articles_with_content in
  let all_articles :=
    new_articles_with_content ++
    match cached_articles with
    | [] => []
    | _ =>
        let new_urls := url_set new_articles_with_content in
        filter (fun a => a_url a ∉ new_urls) cached_articles
    end in
  let final_articles := Py.slice_to all_articles limit in
  if (Py.len final_articles <? limit) && (Py.len new_articles_with_content <? limit)
  then
    let* additional_links := get_category_articles category (limit * 2) in
    let existing_urls := url_set all_articles in
    top_up_loop category limit additional_links final_articles existing_urls
  else ret final_articles.

(** Lines 261-267: store the articles that have content and, when the final
    list is not empty, overwrite the category's cache entry. *)
Definition persist (category : string) (final_articles : list ArticleDict) : M unit :=
  let articles_to_store := filter (fun a => Py.truthy (a_content a)) final_articles in
  match articles_to_store with
  | [] => ret tt
  | _ =>
      let* article_ids := store_articles_in_db articles_to_store in
      match final_articles with
      | first :: _ => update_category_cache category article_ids (a_url first)
      | [] => ret tt
      end
  end.

(** Lines 183-189: what the iteration serves when the cache is fresh;
    [None] when it falls through to a refresh. *)
Definition serve_cached (category : string) (limit : Z) (should_update : bool)
    : M (option (list ArticleDict)) :=
  if negb should_update
  then
    let* cached_articles := get_cached_articles category in
    match cached_articles with
    | Some ((_ :: _) as cached_articles) => ret (Some (Py.slice_to cached_articles limit))
    | _ => ret None
    end
  else ret None.

(** One iteration of the loop over the categories (lines 178-270). *)
Definition process_category (category : string) (limit_per_category : Z)
    (results : gmap string (list ArticleDict)) : M (gmap string (list ArticleDict)) :=
  let* (should_update, latest_cached_url) := should_update_cache category in
  let* served := serve_cached category limit_per_category should_update in
  match served with
  | Some cached_articles => ret (<[category := cached_articles]> results)
  | None =>
      let* final_articles := gather category limit_per_category latest_cached_url in
      let* _ := persist category final_articles in
      ret (<[category := final_articles]> results)
  end.

Fixpoint for_categories (categories : list string) (limit_per_category : Z)
    (results : gmap string (list ArticleDict)) : M (gmap string (list ArticleDict)) :=
  match categories with
  | [] => ret results
  | category :: rest =>
      let* results := process_category category limit_per_category results in
      for_categories rest limit_per_category results
  end.

Definition get_articles_with_cache (categories : list string)
    (limit_per_category : Z) : M (gmap string (list ArticleDict)) :=
  try_finally (for_categories categories limit_per_category ∅) db_close.

End Code.

(** * The vocabulary of the properties *)

(** What the loop decides for one candidate, against the stubs kept so far. *)
Definition kept_step (u : list Stub) (article : Stub) : list Stub :=
  if is_duplicate (word_set (title_normalized article))
       (list_to_set (map title_normalized u))
  then u else u ++ [article].

(** No kept stub exceeds the threshold against an earlier kept one. *)
Definition pairwise_distinct (u : list Stub) : Prop :=
  forall i j (a b : Stub), u !! i = Some a -> u !! j = Some b -> (i < j)%nat ->
    ~ overlap_exceeds a b.

(** The invariant of the two scanning loops: the collected urls are pairwise
    different, and [found_urls] holds every one of them. *)
Definition scan_ok (st : scan_state) : Prop :=
  NoDup (map stub_url st.1) /\ forall s, s ∈ st.1 -> stub_url s ∈ st.2.

(** [m], run from [w], ends with a result and in a world that satisfy [Q]. *)
Definition wp {A} (m : M A) (w : World) (Q : Outcome A -> World -> Prop) : Prop :=
  Q (m w).1 (m w).2.

(** The outcome is a normal return. *)
Definition is_ok {A} (r : Outcome A) : Prop :=
  match r with Ok _ => True | Raise _ => False end.

(** The urls asked of the Content Fetcher, in order. *)
Definition content_calls (cs : list Call) : list string :=
  omap (fun c => match c with ContentCall u => Some u | ListingCall _ _ => None end) cs.

(** The two tables are the same in both worlds. *)
Definition same_tables (w w' : World) : Prop :=
  articles w' = articles w /\ category_cache w' = category_cache w.

(** Nothing was stored and the Content Fetcher was not called. *)
Definition quiet (w w' : World) : Prop :=
  same_tables w w' /\ content_calls (calls w') = content_calls (calls w).

(** The database never fails. *)
Definition healthy (env : Env) : Prop := forall t, db_fault env t = false.

(** The article carries a non-empty ['content']. *)
Definition has_content (a : ArticleDict) : Prop := a_content a <> "".

(** Every stored row has a non-empty content: the invariant of table
    [articles], whose rows only [store_articles_in_db] creates. *)
Definition rows_have_content (w : World) : Prop :=
  forall row, row ∈ articles w -> row_content row <> "".

(** What one run of the storing loop guarantees, whatever the database does:
    rows are only appended; a url that had a row gets no further row; on
    normal return there is one id per article, the id of the first row with
    the article's url; the loop returns normally when the database is
    healthy; and articles with content leave a table whose rows have
    content. *)
Definition stored (env : Env) (batch : list ArticleDict) (acc : list Z) (w : World)
    (r : Outcome (list Z)) (w' : World) : Prop :=
  articles w `prefix_of` articles w'
  /\ category_cache w' = category_cache w
  /\ calls w' = calls w
  /\ (forall url existing, first_by_url url (articles w) = Some existing ->
        filter (fun r => row_url r = url) (articles w')
        = filter (fun r => row_url r = url) (articles w))
  /\ (forall ids, r = Ok ids ->
        exists new_ids, ids = acc ++ new_ids
        /\ length new_ids = length batch
        /\ forall i article_data, batch !! i = Some article_data ->
             exists row, first_by_url (a_url article_data) (articles w') = Some row
                         /\ new_ids !! i = Some (row_id row))
  /\ (healthy env -> is_ok r)
  /\ (Forall has_content batch -> rows_have_content w -> rows_have_content w').

(** The rows a fresh cache entry yields: those with a recorded id, in some
    order. *)
Definition cached_rows (cache_entry : CategoryCache) (w : World) : list Article :=
  filter (fun row => row_id row ∈ cached_articles_json cache_entry) (articles w).

(** * Scenarios *)

(** A small site and a few database states, on which the statements below
    are tried. *)
Module Scenario.

Definition url_of (slug : string) : string :=
  "https://indianexpress.com/article/" +:+ slug.

(** A category page: two headline selectors that match (the second repeats a
    link of the first), and two further links. *)
Definition page : Page :=
  mkPage
    [[mkLink "/article/budget" "Parliament passes the annual budget";
      mkLink "/article/monsoon" "Monsoon reaches the southern coast early"];
     [mkLink "/article/transit" "City council approves new transit line";
      mkLink "/article/budget" "Parliament passes the annual budget"]]
    [mkLink "/article/harvest" "Farmers expect record wheat harvest";
     mkLink "/article/museum" "National museum reopens after renovation"].

(** A clock that advances with every reading and stops after one second. *)
Definition steady_clock (t : nat) : Z := Z.of_nat t `min` 1000000.

(** Everything works. *)
Definition env : Env :=
  {| http_listing := fun _ _ => Some page;
     http_article := fun _ url => Some ("Title of " +:+ url, " Body of " +:+ url +:+ " ");
     summarize_text := fun _ content title => mkSummary title "A short summary.";
     utcnow := steady_clock;
     db_fault := fun _ => false;
     sha256 := fun _ => "digest" |}.

(** The Listing Fetcher cannot be reached. *)
Definition env_unreachable : Env :=
  {| http_listing := fun _ _ => None;
     http_article := http_article env;
     summarize_text := summarize_text env;
     utcnow := steady_clock;
     db_fault := fun _ => false;
     sha256 := sha256 env |}.

(** The database statement issued at [at_tick] fails. *)
Definition env_store_fails (at_tick : nat) : Env :=
  {| http_listing := http_listing env;
     http_article := http_article env;
     summarize_text := summarize_text env;
     utcnow := steady_clock;
     db_fault := fun t => bool_decide (t = at_tick);
     sha256 := sha256 env |}.

Definition empty_world : World := mkWorld 0 [] ∅ [].

Definition stub_of (slug title : string) : Stub :=
  mkStub (url_of slug) title "india".

(** The listing of [page] for a limit of six. *)
Definition listing : list Stub :=
  [stub_of "budget" "Parliament passes the annual budget";
   stub_of "monsoon" "Monsoon reaches the southern coast early";
   stub_of "transit" "City council approves new transit line";
   stub_of "harvest" "Farmers expect record wheat harvest";
   stub_of "museum" "National museum reopens after renovation"].

Definition listed_world : World := mkWorld 1 [] ∅ [ListingCall "india" 6].

Definition row_of (id : Z) (slug : string) : Article :=
  {| row_id := id;
     row_url := url_of slug;
     row_category := "india";
     row_title := "Title of " +:+ url_of slug;
     row_summary := "A short summary.";
     row_content := "Body of " +:+ url_of slug;
     row_content_hash := "digest";
     row_scraped_at := 0 |}.

(** A cache entry whose newest url is still the newest of [page]... *)
Definition fresh_entry : CategoryCache :=
  {| category_name := "india";
     latest_article_url := url_of "budget";
     cached_articles_json := [1];
     cached_at := 0 |}.

(** ... with its article in the table, *)
Definition cached_world : World :=
  mkWorld 0 [row_of 1 "budget"] {[ "india" := fresh_entry ]} [].

(** ... and with its article gone from the table. *)
Definition dangling_world : World :=
  mkWorld 0 [] {[ "india" := fresh_entry ]} [].

(** A cache entry made when "monsoon" was the newest article. *)
Definition stale_entry : CategoryCache :=
  {| category_name := "india";
     latest_article_url := url_of "monsoon";
     cached_articles_json := [1];
     cached_at := 0 |}.

Definition stale_world : World :=
  mkWorld 0 [row_of 1 "monsoon"] {[ "india" := stale_entry ]} [].

(** The article dict that the refresh of [stale_world] puts first. *)
Definition budget_dict : ArticleDict :=
  {| a_url := url_of "budget";
     a_title := "Title of " +:+ url_of "budget";
     a_content := "Body of " +:+ url_of "budget";
     a_category := "india";
     a_content_hash := Some "digest";
     a_heading := Some ("Title of " +:+ url_of "budget");
     a_summary := Some "A short summary.";
     a_scraped_at := None |}.

(** One call for one category on an empty database. *)
Definition india_run : Outcome (gmap string (list ArticleDict)) * World :=
  get_articles_with_cache env ["india"] 2 empty_world.

Definition india_results : gmap string (list ArticleDict) :=
  match india_run.1 with
  | Ok results => results
  | Raise _ => ∅
  end.

(** Three stubs: the second is a near-duplicate of the first and of the
    third, the first and the third are not near-duplicates of each other. *)
Definition chain : list Stub :=
  [stub_of "a" "Floods close northern highway for second day";
   stub_of "b" "Floods close northern highway for third day";
   stub_of "c" "Floods close coastal highway for third day running"].

End Scenario.

(** * Further vocabulary *)

(** What every entry of a listing satisfies: it carries the category asked
    for, a title of more than 15 characters, and a url of the site that
    [_is_valid_article_url] accepts. *)
Definition stub_ok (category : string) (s : Stub) : Prop :=
  stub_category s = category
  /\ (15 < String.length (stub_title s))%nat
  /\ Py.contains "indianexpress.com" (stub_url s) = true
  /\ _is_valid_article_url (stub_url s) = true.

(** [found_urls] is exactly the set of the urls collected so far. *)
Definition scan_exact (st : scan_state) : Prop :=
  st.2 = list_to_set (map stub_url st.1).

(** Two scans of the same links, under two limits, agree on their first
    entry: both are still empty, or both start with the same stub. *)
Definition same_start (s t : scan_state) : Prop :=
  scan_exact s /\ scan_exact t
  /\ ((s.1 = [] /\ t.1 = []) \/ exists a, head s.1 = Some a /\ head t.1 = Some a).

(** No two rows of table [articles] have the same url (the column is
    declared unique), nor the same id (the primary key). *)
Definition unique_urls (w : World) : Prop := NoDup (map row_url (articles w)).
Definition unique_ids (w : World) : Prop := NoDup (map row_id (articles w)).

(** Every cache entry records at least one article id, and every recorded id
    is the id of a row of table [articles]. *)
Definition cache_refs_ok (w : World) : Prop :=
  forall category cache_entry,
    category_cache w !! category = Some cache_entry ->
    cached_articles_json cache_entry <> []
    /\ forall id, id ∈ cached_articles_json cache_entry ->
         id ∈ map row_id (articles w).

(** The rows come newest first. *)
Definition newest_first (rows : list Article) : Prop :=
  StronglySorted (fun a b => row_scraped_at b <= row_scraped_at a) rows.

(** The number of calls made so far to the Content Fetcher and to the Listing
    Fetcher. *)
Definition n_content (w : World) : nat := length (content_calls (calls w)).

(** The categories and limits asked of the Listing Fetcher, in order. *)
Definition listing_calls (cs : list Call) : list (string * Z) :=
  omap (fun c => match c with
                 | ListingCall category limit => Some (category, limit)
                 | ContentCall _ => None
                 end) cs.

Definition n_listing (w : World) : nat := length (listing_calls (calls w)).

(** ** [app/services/scraper.py]: [scrape_articles] *)

Section Scrape.

Variable env : Env.

(** The loop over the categories (lines 298-309); the inner loop over the
    links (lines 302-307) is the one of [get_articles_with_cache], followed by
    a pause. *)
Fixpoint scrape_loop (categories : list string) (limit_per_category : Z)
    (results : gmap string (list ArticleDict)) : M (gmap string (list ArticleDict)) :=
  match categories with
  | [] => ret results
  | category :: rest =>
      let* article_links := get_category_articles env category limit_per_category in
      let* articles_with_content := resolve_links env category article_links [] in
      scrape_loop rest limit_per_category (<[category := articles_with_content]> results)
  end.

(** [scrape_articles]; [N_ARTICLES] is [settings.N_ARTICLES], read from the
    process environment. *)
Definition scrape_articles (N_ARTICLES : Z) (categories : list string)
    (limit_per_category : option Z) : M (gmap string (list ArticleDict)) :=
  scrape_loop categories (default N_ARTICLES limit_per_category) ∅.

End Scrape.

(** ** [app/api/routes.py]: [generate_pdf] *)

(** The request body [GenerateRequest]. *)
Record GenerateRequest := mkGenerateRequest {
  req_categories : list string;
  req_n : option Z;
  req_email : option string
}.

(** The dict a handler returns. *)
Record Reply := mkReply {
  reply_status : string;
  reply_message : string;
  reply_pdf_url : string
}.

(** What can be raised inside [generate_pdf], and the [detail] of an
    [HTTPException]: a message of the handler, or [str(e)] of the exception
    it caught. *)
Inductive Raised :=
  | HTTPException (status_code : Z) (detail : Detail)
  | DatabaseError (e : Exn)
  | PdfRuntimeError
with Detail :=
  | InvalidCategories (invalid_categories : list string)
  | NoArticlesFound
  | StrOf (e : Raised).

(** The two services behind the handler: [pdf_builder.generate_pdf], which
    gives the path of the file or raises [RuntimeError] ([None]), and
    [email_service.send_news_pdf], which reports success and never raises. *)
Record Services := mkServices {
  pdf_generate : nat -> gmap string (list ArticleDict) -> option string;
  send_news_pdf : nat -> string -> string -> list string -> bool
}.

Fixpoint basename_go (path name : string) : string :=
  match path with
  | EmptyString => name
  | String c rest =>
      if decide (c = "/"%char) then basename_go rest ""
      else basename_go rest (name +:+ String c "")
  end.

(** [os.path.basename] *)
Definition basename (path : string) : string := basename_go path "".

(** [any(articles_by_category.values())] *)
Definition any_articles (articles_by_category : gmap string (list ArticleDict)) : bool :=
  existsb (fun kv => match kv.2 with [] => false | _ :: _ => true end)
          (map_to_list articles_by_category).

(** [request.n or 10] *)
Definition n_or_10 (n : option Z) : Z :=
  match n with
  | Some n => if decide (n = 0) then 10 else n
  | None => 10
  end.

Section Routes.

Variable env : Env.
Variable services : Services.

(** The body of the [try] of [generate_pdf] (lines 42-91). *)
Definition generate_pdf_try (request : GenerateRequest) (w : World)
    : (Reply + Raised) * World :=
  let invalid_categories :=
    filter (fun c => CATEGORIES !! c = None) (req_categories request) in
  match invalid_categories with
  | _ :: _ => (inr (HTTPException 400 (InvalidCategories invalid_categories)), w)
  | [] =>
      match get_articles_with_cache env (req_categories request)
              (n_or_10 (req_n request)) w with
      | (Raise e, w1) => (inr (DatabaseError e), w1)
      | (Ok articles_by_category, w1) =>
          if negb (any_articles articles_by_category)
          then (inr (HTTPException 404 NoArticlesFound), w1)
          else
            match pdf_generate services (tick w1) articles_by_category with
            | None => (inr PdfRuntimeError, advance w1)
            | Some pdf_path =>
                let pdf_filename := basename pdf_path in
                let w2 := advance w1 in
                if url_given (req_email request)
                then
                  let email := default "" (req_email request) in
                  if send_news_pdf services (tick w2) email pdf_path
                       (req_categories request)
                  then (inl (mkReply "success"
                               ("PDF generated and sent to " +:+ email)
                               ("/download/" +:+ pdf_filename)), advance w2)
                  else (inl (mkReply "partial_success"
                               "PDF generated but email sending failed"
                               ("/download/" +:+ pdf_filename)), advance w2)
                else (inl (mkReply "success" "PDF generated successfully"
                             ("/download/" +:+ pdf_filename)), w2)
            end
      end
  end.

(** [generate_pdf]: the [try] and its [except Exception as e], which raises
    [HTTPException(status_code=500, detail=str(e))]. *)
Definition generate_pdf (request : GenerateRequest) (w : World)
    : (Reply + Raised) * World :=
  match generate_pdf_try request w with
  | (inl reply, w') => (inl reply, w')
  | (inr e, w') => (inr (HTTPException 500 (StrOf e)), w')
  end.

End Routes.

(** Between [w] and [w'] the tables did not change, and the fetchers were
    called as often as given. *)
Definition fetched (w w' : World) (listings contents : nat) : Prop :=
  same_tables w w'
  /\ n_listing w' = (n_listing w + listings)%nat
  /\ n_content w' = (n_content w + contents)%nat.

(** Between [w] and [w'] the tables did not change, and the fetchers were
    called at most as often as given. *)
Definition bounded (w w' : World) (listings contents : nat) : Prop :=
  same_tables w w'
  /\ (n_listing w' <= n_listing w + listings)%nat
  /\ (n_content w' <= n_content w + contents)%nat.

(** A freshly resolved article of a category: it has content and carries the
    category. *)
Definition resolved_ok (category : string) (a : ArticleDict) : Prop :=
  a_content a <> "" /\ a_category a = category.

(** What a run leaves of the database when it writes at most the cache
    entries of the categories in [touched]: rows are only appended, the other
    cache entries are as they were, and each of the three invariants, if it
    held before, holds after. *)
Definition db_step (touched : gset string) (w w' : World) : Prop :=
  articles w `prefix_of` articles w'
  /\ (forall category, category ∉ touched ->
        category_cache w' !! category = category_cache w !! category)
  /\ (unique_urls w -> unique_urls w')
  /\ (unique_ids w -> unique_ids w')
  /\ (cache_refs_ok w -> cache_refs_ok w').

(** ** Further scenarios *)

Module Cases.

(** The environment of [Scenario.env] with the clock stopped at [now]. *)
Definition clock_at (now : Z) : Env :=
  {| http_listing := http_listing Scenario.env;
     http_article := http_article Scenario.env;
     summarize_text := summarize_text Scenario.env;
     utcnow := fun _ => now;
     db_fault := fun _ => false;
     sha256 := sha256 Scenario.env |}.

Definition row_at (id : Z) (slug : string) (scraped_at : Z) : Article :=
  {| row_id := id;
     row_url := Scenario.url_of slug;
     row_category := "india";
     row_title := "Title of " +:+ Scenario.url_of slug;
     row_summary := "A short summary.";
     row_content := "Body of " +:+ Scenario.url_of slug;
     row_content_hash := "digest";
     row_scraped_at := scraped_at |}.

(** A cache entry over two rows, the older of which comes first in the
    table. *)
Definition two_rows_entry : CategoryCache :=
  {| category_name := "india";
     latest_article_url := Scenario.url_of "budget";
     cached_articles_json := [1; 2];
     cached_at := 0 |}.

Definition two_rows_world : World :=
  mkWorld 0 [row_at 1 "monsoon" 5; row_at 2 "budget" 9]
    {[ "india" := two_rows_entry ]} [].

(** A PDF builder and a mailer that work. *)
Definition services : Services :=
  {| pdf_generate := fun _ _ => Some "generated_pdfs/news.pdf";
     send_news_pdf := fun _ _ _ _ => true |}.

(** A request that names a category that is not configured. *)
Definition weather_request : GenerateRequest :=
  mkGenerateRequest ["india"; "weather"] (Some 5) None.

(** A request for zero articles per category. *)
Definition zero_request : GenerateRequest :=
  mkGenerateRequest ["india"] (Some 0) None.

(** A row without content, as only a writer other than the cache manager can
    have left it. *)
Definition hollow_row (id : Z) (slug : string) : Article :=
  {| row_id := id;
     row_url := Scenario.url_of slug;
     row_category := "india";
     row_title := "Title of " +:+ Scenario.url_of slug;
     row_summary := "";
     row_content := "";
     row_content_hash := "";
     row_scraped_at := 0 |}.

(** The cache entry of [Scenario.cached_world] over a row without content. *)
Definition hollow_world : World :=
  mkWorld 0 [hollow_row 1 "budget"] {[ "india" := Scenario.fresh_entry ]} [].

(** What a refresh of [hollow_world] gathers and persists when the Listing
    Fetcher cannot be reached. *)
Definition hollow_gather : Outcome (list ArticleDict) * World :=
  gather Scenario.env_unreachable "india" 2 (Some (Scenario.url_of "budget"))
    hollow_world.

Definition hollow_persist : Outcome unit * World :=
  persist Scenario.env_unreachable "india" [dict_of_row (hollow_row 1 "budget")]
    hollow_gather.2.

(** The stale cache entry of [Scenario.stale_world] over a row without
    content, and its refresh: the new article has content, the cached one has
    none. *)
Definition mixed_world : World :=
  mkWorld 0 [hollow_row 1 "monsoon"] {[ "india" := Scenario.stale_entry ]} [].

Definition mixed_gather : Outcome (list ArticleDict) * World :=
  gather Scenario.env "india" 2 (Some (Scenario.url_of "monsoon")) mixed_world.

Definition mixed_final : list ArticleDict :=
  [Scenario.budget_dict; dict_of_row (hollow_row 1 "monsoon")].

Definition mixed_persist : Outcome unit * World :=
  persist Scenario.env "india" mixed_final mixed_gather.2.

(** Everything works, except that the listing page of category "world"
    cannot be reached; the clock stands still. *)
Definition env_world_down : Env :=
  {| http_listing := fun _ url =>
       if decide (url = "https://indianexpress.com/section/world/")
       then None else Some Scenario.page;
     http_article := http_article Scenario.env;
     summarize_text := summarize_text Scenario.env;
     utcnow := fun _ => 0;
     db_fault := fun _ => false;
     sha256 := sha256 Scenario.env |}.

End Cases.

(** ** Comparing two runs *)

(** The environment answers a question the same way whenever it is asked. *)
Definition stationary (env : Env) : Prop :=
  (forall t t' url, http_listing env t url = http_listing env t' url)
  /\ (forall t t' url, http_article env t url = http_article env t' url)
  /\ (forall t t' content title,
        summarize_text env t content title = summarize_text env t' content title)
  /\ (forall t t', utcnow env t = utcnow env t').

(** Every request for the listing page of the category fails (a category
    that is not configured has no page to request). *)
Definition listing_down (env : Env) (category : string) : Prop :=
  forall category_url, CATEGORIES !! category = Some category_url ->
    forall t, http_listing env t category_url = None.

(** The two worlds hold the same rows and the same cache entries, that of
    category [failed] apart. *)
Definition agree_off (failed : string) (w1 w2 : World) : Prop :=
  articles w1 = articles w2
  /\ forall category, category <> failed ->
       category_cache w1 !! category = category_cache w2 !! category.

(** The two result dicts hold the same lists, that of [failed] apart. *)
Definition results_agree (failed : string)
    (results1 results2 : gmap string (list ArticleDict)) : Prop :=
  forall category, category <> failed -> results1 !! category = results2 !! category.

(** Run from two worlds that agree, [m] returns the same value and leaves
    worlds that agree. *)
Definition alike {A} (failed : string) (m : M A) : Prop :=
  forall w1 w2, agree_off failed w1 w2 ->
    exists a w1' w2',
      m w1 = (Ok a, w1') /\ m w2 = (Ok a, w2') /\ agree_off failed w1' w2'.


(** * Properties *)

(** ** The near-duplicate filter *)

Section Dedup.

Implicit Types (a b article : Stub) (u pre post articles : list Stub).

Lemma overlap_exceeds_sym a b : overlap_exceeds a b -> overlap_exceeds b a.
Proof.
  unfold overlap_exceeds. intros H.
  replace (word_set (title_normalized b) ∩ word_set (title_normalized a))
    with (word_set (title_normalized a) ∩ word_set (title_normalized b))
    by apply (comm_L (∩)).
  lia.
Qed.

Lemma similar_spec a b :
  similar (word_set (title_normalized b)) (word_set (title_normalized a)) = true
  <-> overlap_exceeds a b.
Proof.
  unfold similar, overlap_exceeds.
  set (A := word_set (title_normalized a)). set (B := word_set (title_normalized b)).
  replace (B ∩ A) with (A ∩ B) by apply (comm_L (∩)).
  assert (HA : (size (A ∩ B) <= size A)%nat) by (apply subseteq_size; set_solver).
  assert (HB : (size (A ∩ B) <= size B)%nat) by (apply subseteq_size; set_solver).
  rewrite !andb_true_iff, !Nat.ltb_lt. lia.
Qed.

Lemma is_duplicate_spec article u :
  is_duplicate (word_set (title_normalized article))
    (list_to_set (map title_normalized u)) = true
  <-> exists a, a ∈ u /\ overlap_exceeds a article.
Proof.
  unfold is_duplicate. rewrite existsb_exists. split.
  - intros (t & Ht & Hs).
    apply list_elem_of_In, elem_of_elements, elem_of_list_to_set, list_elem_of_fmap in Ht.
    destruct Ht as (a & -> & Ha). exists a. split; [done|]. by apply similar_spec.
  - intros (a & Ha & Hs). exists (title_normalized a). split.
    + apply list_elem_of_In, elem_of_elements, elem_of_list_to_set, list_elem_of_fmap.
      by exists a.
    + by apply similar_spec.
Qed.

Lemma dedup_loop_foldl articles u :
  dedup_loop articles u (list_to_set (map title_normalized u))
  = foldl kept_step u articles.
Proof.
  revert u. induction articles as [|article rest IH]; intros u; [done|].
  cbn [dedup_loop foldl]. unfold kept_step at 2.
  destruct (is_duplicate _ _); [apply IH|].
  rewrite <- IH. f_equal.
  rewrite map_app, list_to_set_app_L. cbn. set_solver.
Qed.

Lemma deduplicate_foldl articles :
  _deduplicate_articles articles = foldl kept_step [] articles.
Proof.
  destruct articles as [|a rest]; [done|].
  unfold _deduplicate_articles. by rewrite <- dedup_loop_foldl.
Qed.

Lemma deduplicate_snoc pre article :
  _deduplicate_articles (pre ++ [article])
  = kept_step (_deduplicate_articles pre) article.
Proof. by rewrite !deduplicate_foldl, foldl_app. Qed.

Lemma kept_step_prefix u article : u `prefix_of` kept_step u article.
Proof.
  unfold kept_step. destruct (is_duplicate _ _); [done|]. by apply prefix_app_r.
Qed.

Lemma foldl_kept_prefix post u : u `prefix_of` foldl kept_step u post.
Proof.
  revert u. induction post as [|b post IH]; intros u; [done|].
  cbn. etrans; [apply kept_step_prefix | apply IH].
Qed.

Lemma deduplicate_prefix pre post :
  _deduplicate_articles pre `prefix_of` _deduplicate_articles (pre ++ post).
Proof. rewrite !deduplicate_foldl, foldl_app. apply foldl_kept_prefix. Qed.

Lemma deduplicate_sublist articles :
  _deduplicate_articles articles `sublist_of` articles.
Proof.
  induction articles as [|article pre IH] using rev_ind; [done|].
  rewrite deduplicate_snoc. unfold kept_step.
  destruct (is_duplicate _ _).
  - by apply sublist_inserts_r.
  - by apply sublist_app.
Qed.

Lemma pairwise_distinct_snoc u b :
  pairwise_distinct u -> (forall a, a ∈ u -> ~ overlap_exceeds a b) ->
  pairwise_distinct (u ++ [b]).
Proof.
  intros Hu Hb i j a c Hi Hj Hlt.
  destruct (decide (j < length u)%nat) as [Hj'|Hj'].
  - rewrite lookup_app_l in Hi by lia. rewrite lookup_app_l in Hj by lia. eauto.
  - assert (j = length u) as ->.
    { apply lookup_lt_Some in Hj. rewrite length_app in Hj. cbn in Hj. lia. }
    rewrite lookup_app_l in Hi by lia.
    rewrite list_lookup_middle in Hj by done. injection Hj as <-.
    apply Hb. by eapply list_elem_of_lookup_2.
Qed.

Lemma deduplicate_pairwise articles :
  pairwise_distinct (_deduplicate_articles articles).
Proof.
  induction articles as [|article pre IH] using rev_ind.
  - intros i j a b Hi. cbn in Hi. by rewrite lookup_nil in Hi.
  - rewrite deduplicate_snoc. unfold kept_step.
    destruct (is_duplicate _ _) eqn:Hdup; [done|].
    apply pairwise_distinct_snoc; [done|].
    intros a Ha Hex. apply not_true_iff_false in Hdup. apply Hdup.
    apply is_duplicate_spec. eauto.
Qed.

End Dedup.

(** ** The listing built from a page *)

Section Listing.

Implicit Types (st : scan_state) (link : Link) (page : Page).

Lemma add_link_ok category link full_url st :
  scan_ok st -> full_url ∉ st.2 -> scan_ok (add_link category link full_url st).
Proof.
  intros [Hnd Hin] Hfresh. unfold add_link.
  destruct (_ && _); [|done]. split; cbn.
  - rewrite map_app. apply NoDup_app. split_and!; [done| |apply NoDup_singleton].
    intros u Hu Hu'. apply list_elem_of_fmap in Hu as (s & -> & Hs).
    cbn in Hu'. apply list_elem_of_singleton in Hu'.
    apply Hfresh. rewrite <- Hu'. by apply Hin.
  - intros s Hs. apply elem_of_app in Hs as [Hs|Hs].
    + apply elem_of_union_r. by apply Hin.
    + apply list_elem_of_singleton in Hs as ->. cbn. set_solver.
Qed.

Lemma headline_step_ok category limit st link :
  scan_ok st -> scan_ok (headline_step category limit st link).
Proof.
  intros Hst. unfold headline_step.
  destruct (full_url_of link) as [full_url|]; [|done].
  destruct (_ && _) eqn:Hc; [|done].
  apply add_link_ok; [done|].
  rewrite !andb_true_iff in Hc. destruct Hc as [[[_ Hc] _] _].
  by apply bool_decide_eq_true in Hc.
Qed.

Lemma headline_scan_ok category limit (selected : list (list Link)) st :
  scan_ok st -> scan_ok (foldl (foldl (headline_step category limit)) st selected).
Proof.
  revert st. induction selected as [|links selected IH]; intros st Hst; [done|].
  cbn. apply IH. clear IH. revert st Hst.
  induction links as [|link links IH]; intros st Hst; [done|].
  cbn. apply IH. by apply headline_step_ok.
Qed.

Lemma fallback_loop_ok category limit links st :
  scan_ok st -> scan_ok (fallback_loop category limit links st).
Proof.
  revert st. induction links as [|link links IH]; intros st Hst; [done|].
  cbn. destruct (limit <=? Py.len st.1); [done|]. apply IH.
  destruct (full_url_of link) as [full_url|]; [|done].
  destruct (_ && _) eqn:Hc; [|done].
  apply add_link_ok; [done|].
  rewrite !andb_true_iff in Hc. destruct Hc as [[_ Hc] _].
  by apply bool_decide_eq_true in Hc.
Qed.

Lemma slice_to_sublist {A} (xs : list A) n : Py.slice_to xs n `sublist_of` xs.
Proof. unfold Py.slice_to. destruct (0 <=? n); apply sublist_take. Qed.

Lemma slice_to_nonneg {A} (xs : list A) n :
  0 <= n -> Py.slice_to xs n = take (Z.to_nat n) xs.
Proof. intros Hn. unfold Py.slice_to. by rewrite (proj2 (Z.leb_le 0 n) Hn). Qed.

Lemma slice_to_len {A} (xs : list A) n : 0 <= n -> Py.len (Py.slice_to xs n) <= n.
Proof.
  intros Hn. rewrite slice_to_nonneg by done. unfold Py.len.
  rewrite length_take. lia.
Qed.

(** The urls of a listing are pairwise different. *)
Lemma listing_of_page_NoDup category limit page :
  NoDup (map stub_url (listing_of_page category limit page)).
Proof.
  unfold listing_of_page.
  assert (Hst1 : scan_ok (foldl (foldl (headline_step category limit)) ([], ∅)
                            (headline_links page))).
  { apply headline_scan_ok. split; [apply NoDup_nil_2 | intros s Hs; inversion Hs]. }
  eapply sublist_NoDup.
  2:{ apply (fmap_sublist stub_url).
      etrans; [apply slice_to_sublist | apply deduplicate_sublist]. }
  destruct (_ <? _); [apply fallback_loop_ok|]; apply Hst1.
Qed.

Lemma headline_step_nonpos category limit st link :
  limit <= 0 -> headline_step category limit st link = st.
Proof.
  intros Hn. unfold headline_step.
  destruct (full_url_of link) as [full_url|]; [|done].
  replace (Z.of_nat (size st.2) <? limit * 2) with false
    by (symmetry; apply Z.ltb_ge; lia).
  by rewrite andb_false_r.
Qed.

Lemma listing_of_page_len category limit page :
  0 <= limit -> Py.len (listing_of_page category limit page) <= limit.
Proof. intros Hn. unfold listing_of_page. by apply slice_to_len. Qed.

(** A listing asked with a limit of zero or less is empty. *)
Lemma listing_of_page_nonpos category limit page :
  limit <= 0 -> listing_of_page category limit page = [].
Proof.
  intros Hn. unfold listing_of_page.
  assert (Hscan : forall selected st,
             foldl (foldl (headline_step category limit)) st selected = st).
  { induction selected as [|links selected IH]; intros st; [done|].
    cbn. rewrite <- (IH st) at 2. f_equal.
    induction links as [|link links IHl]; [done|].
    cbn. by rewrite headline_step_nonpos. }
  rewrite Hscan. cbn [fst].
  destruct (Py.len [] <? limit) eqn:Hlt.
  { apply Z.ltb_lt in Hlt. unfold Py.len in Hlt. cbn in Hlt. lia. }
  cbn [snd fst _deduplicate_articles]. unfold Py.slice_to.
  destruct (0 <=? limit); apply take_nil.
Qed.

End Listing.

(** ** Reasoning about the effectful code *)

Section Logic.

Context {A B : Type}.
Implicit Types (m : M A) (k : A -> M B) (w : World).

Lemma wp_run m w Q : wp m w Q <-> forall r w', m w = (r, w') -> Q r w'.
Proof.
  unfold wp. split.
  - intros H r w' Heq. by rewrite Heq in H.
  - intros H. apply H. by destruct (m w).
Qed.

Lemma wp_ret (a : A) w Q : Q (Ok a) w -> wp (ret a) w Q.
Proof. done. Qed.

Lemma wp_bind m k w Q :
  wp m w (fun r w' =>
    match r with
    | Ok a => wp (k a) w' Q
    | Raise e => Q (Raise e) w'
    end) ->
  wp (bind m k) w Q.
Proof. unfold wp, bind. by destruct (m w) as [[a|e] w']. Qed.

Lemma wp_mono m w (Q Q' : Outcome A -> World -> Prop) :
  wp m w Q -> (forall r w', Q r w' -> Q' r w') -> wp m w Q'.
Proof. unfold wp. auto. Qed.

Lemma wp_and m w (Q Q' : Outcome A -> World -> Prop) :
  wp m w Q -> wp m w Q' -> wp m w (fun r w' => Q r w' /\ Q' r w').
Proof. unfold wp. auto. Qed.

Lemma wp_try_except m (handler : Exn -> M A) w Q :
  wp m w (fun r w' =>
    match r with
    | Ok a => Q (Ok a) w'
    | Raise e => wp (handler e) w' Q
    end) ->
  wp (try_except m handler) w Q.
Proof. unfold wp, try_except. by destruct (m w) as [[a|e] w']. Qed.

Lemma wp_try_finally m (final : M unit) w Q :
  wp m w (fun r w' =>
    wp final w' (fun r' w'' =>
      match r' with
      | Ok _ => Q r w''
      | Raise e => Q (Raise e) w''
      end)) ->
  wp (try_finally m final) w Q.
Proof.
  unfold wp, try_finally. destruct (m w) as [r w']. cbn.
  by destruct (final w') as [[[]|e] w''].
Qed.

Lemma wp_read (f : World -> A) w Q : Q (Ok (f w)) w -> wp (read f) w Q.
Proof. done. Qed.

Lemma wp_ask (oracle : nat -> A) w Q :
  Q (Ok (oracle (tick w))) (advance w) -> wp (ask oracle) w Q.
Proof. done. Qed.

End Logic.

Lemma wp_db_execute env w (Q : Outcome unit -> World -> Prop) :
  (db_fault env (tick w) = false -> Q (Ok tt) (advance w)) ->
  (db_fault env (tick w) = true -> Q (Raise (StoreError (tick w))) (advance w)) ->
  wp (db_execute env) w Q.
Proof. unfold wp, db_execute. destruct (db_fault env (tick w)); auto. Qed.

Lemma wp_record_call c w (Q : Outcome unit -> World -> Prop) :
  Q (Ok tt) (mkWorld (tick w) (articles w) (category_cache w) (calls w ++ [c])) ->
  wp (record_call c) w Q.
Proof. done. Qed.

Lemma wp_set_articles rows w (Q : Outcome unit -> World -> Prop) :
  Q (Ok tt) (mkWorld (tick w) rows (category_cache w) (calls w)) ->
  wp (set_articles rows) w Q.
Proof. done. Qed.

Lemma wp_set_category_cache cc w (Q : Outcome unit -> World -> Prop) :
  Q (Ok tt) (mkWorld (tick w) (articles w) cc (calls w)) ->
  wp (set_category_cache cc) w Q.
Proof. done. Qed.

(** One step through the code under [wp]. *)
Ltac wp_step :=
  lazymatch goal with
  | |- wp (bind _ _) _ _ => apply wp_bind
  | |- wp (ret _) _ _ => apply wp_ret
  | |- wp (read _) _ _ => apply wp_read
  | |- wp (ask _) _ _ => apply wp_ask
  | |- wp (datetime_utcnow _) _ _ => apply wp_ask
  | |- wp (record_call _) _ _ => apply wp_record_call
  | |- wp (set_articles _) _ _ => apply wp_set_articles
  | |- wp (set_category_cache _) _ _ => apply wp_set_category_cache
  | |- wp (db_close) _ _ => apply wp_ret
  | |- wp (try_except _ _) _ _ => apply wp_try_except
  | |- wp (try_finally _ _) _ _ => apply wp_try_finally
  | |- wp (db_execute _) _ _ => apply wp_db_execute; intros ?
  | |- wp (match ?x with _ => _ end) _ _ => destruct x eqn:?
  end.

Ltac wp_steps := repeat (wp_step; cbn beta).

(** Use a lemma about [m] in front of the goal [wp m w Q]. *)
Tactic Notation "wp_use" constr(H) "as" simple_intropattern(r) ident(w') ident(Hpost) :=
  eapply wp_mono; [apply H | cbn beta; intros r w' Hpost].

Lemma quiet_refl w : quiet w w.
Proof. done. Qed.

Lemma quiet_trans w1 w2 w3 : quiet w1 w2 -> quiet w2 w3 -> quiet w1 w3.
Proof. unfold quiet, same_tables. intros [[] ?] [[] ?]. split_and!; congruence. Qed.

Lemma quiet_advance w : quiet w (advance w).
Proof. done. Qed.

Lemma same_tables_trans w1 w2 w3 :
  same_tables w1 w2 -> same_tables w2 w3 -> same_tables w1 w3.
Proof. unfold same_tables. intros [] []. split; congruence. Qed.

Section Fetchers.

Variable env : Env.

(** The Listing Fetcher never raises; its listing has pairwise different
    urls, and is empty when the limit is not positive. It stores nothing and
    does not call the Content Fetcher. *)
Lemma get_category_articles_spec category limit w :
  wp (get_category_articles env category limit) w (fun r w' =>
    exists listing, r = Ok listing
      /\ NoDup (map stub_url listing)
      /\ (limit <= 0 -> listing = [])
      /\ quiet w w').
Proof.
  unfold get_category_articles. wp_steps.
  - eexists. split_and!; [done|apply listing_of_page_NoDup| |].
    + intros. by apply listing_of_page_nonpos.
    + split; [done|]. cbn. unfold content_calls. rewrite omap_app. cbn.
      by rewrite app_nil_r.
  - eexists. split_and!; [done|apply NoDup_nil_2|done|].
    split; [done|]. cbn. unfold content_calls. rewrite omap_app. cbn.
    by rewrite app_nil_r.
  - eexists. split_and!; [done|apply NoDup_nil_2|done|].
    split; [done|]. cbn. unfold content_calls. rewrite omap_app. cbn.
    by rewrite app_nil_r.
Qed.

End Fetchers.

(** ** The incremental listing *)

Lemma find_cached_index_first (all_articles : list Stub) latest_cached_url i k fence_post :
  NoDup (map stub_url all_articles) ->
  all_articles !! k = Some fence_post ->
  stub_url fence_post = latest_cached_url ->
  find_cached_index all_articles latest_cached_url i = Some (i + k)%nat.
Proof.
  revert i k. induction all_articles as [|article rest IH]; intros i k Hnd Hk Hurl.
  - by rewrite lookup_nil in Hk.
  - cbn. destruct k as [|k]; cbn in Hk.
    + injection Hk as ->. rewrite decide_True by done. f_equal. lia.
    + cbn in Hnd. apply NoDup_cons in Hnd as [Hhd Hnd].
      rewrite decide_False.
      * rewrite (IH (S i) k) by done. f_equal. lia.
      * intros Heq. apply Hhd. rewrite Heq, <- Hurl.
        apply list_elem_of_fmap. exists fence_post. split; [done|].
        by eapply list_elem_of_lookup_2.
Qed.

Lemma find_cached_index_absent (all_articles : list Stub) latest_cached_url i :
  latest_cached_url ∉ map stub_url all_articles ->
  find_cached_index all_articles latest_cached_url i = None.
Proof.
  revert i. induction all_articles as [|article rest IH]; intros i Hnot; [done|].
  cbn in *. apply not_elem_of_cons in Hnot as [Hne Hnot].
  rewrite decide_False by done. by apply IH.
Qed.

Lemma get_category_articles_run env category limit w listing w' :
  get_category_articles env category limit w = (Ok listing, w') ->
  NoDup (map stub_url listing) /\ (limit <= 0 -> listing = []) /\ quiet w w'.
Proof.
  intros Hrun.
  pose proof (get_category_articles_spec env category limit w) as Hspec.
  unfold wp in Hspec. rewrite Hrun in Hspec. cbn in Hspec.
  destruct Hspec as (l & [= <-] & H). exact H.
Qed.

Lemma get_category_articles_total env category limit w :
  exists listing w', get_category_articles env category limit w = (Ok listing, w').
Proof.
  pose proof (get_category_articles_spec env category limit w) as Hspec.
  unfold wp in Hspec. destruct (get_category_articles _ _ _ _) as [r w'].
  cbn in Hspec. destruct Hspec as (l & -> & _). eauto.
Qed.

(** C1. When the fence-post url is the url of entry [k] of the listing
    fetched with limit [3 * limit], [get_incremental_articles] returns exactly
    the first [k] entries of that listing, and the fence-post url is not among
    them. *)
Theorem C1_fence_post_prefix env category latest_cached_url limit w
    all_articles w' k fence_post :
  get_category_articles env category (limit * 3) w = (Ok all_articles, w') ->
  all_articles !! k = Some fence_post ->
  stub_url fence_post = latest_cached_url ->
  get_incremental_articles env category latest_cached_url limit w
    = (Ok (take k all_articles), w')
  /\ latest_cached_url ∉ map stub_url (take k all_articles).
Proof.
  intros Hrun Hk Hurl.
  destruct (get_category_articles_run _ _ _ _ _ _ Hrun) as (Hnd & _ & _).
  split.
  - unfold get_incremental_articles, try_except, bind. rewrite Hrun.
    by rewrite (find_cached_index_first _ _ 0 k fence_post).
  - rewrite <- (take_drop k all_articles), map_app in Hnd.
    apply NoDup_app in Hnd as (_ & Hdisj & _).
    intros Hin. apply (Hdisj _ Hin).
    apply list_elem_of_fmap. exists fence_post. split; [done|].
    apply list_elem_of_lookup. exists 0%nat.
    rewrite lookup_drop. by rewrite Nat.add_0_r.
Qed.

(** C6. When the fence-post url is not in the listing fetched with limit
    [3 * limit], [get_incremental_articles] returns exactly the first [limit]
    entries of that listing. *)
Theorem C6_fence_post_absent env category latest_cached_url limit w all_articles w' :
  get_category_articles env category (limit * 3) w = (Ok all_articles, w') ->
  latest_cached_url ∉ map stub_url all_articles ->
  get_incremental_articles env category latest_cached_url limit w
    = (Ok (take (Z.to_nat limit) all_articles), w').
Proof.
  intros Hrun Habsent.
  destruct (get_category_articles_run _ _ _ _ _ _ Hrun) as (_ & Hempty & _).
  unfold get_incremental_articles, try_except, bind. rewrite Hrun.
  rewrite find_cached_index_absent by done. cbn. do 2 f_equal.
  destruct (decide (0 <= limit)) as [Hn|Hn].
  - by apply slice_to_nonneg.
  - rewrite Hempty by lia. unfold Py.slice_to.
    destruct (0 <=? limit); by rewrite !take_nil.
Qed.

(** ** Storing articles *)

Lemma first_by_url_app url rows rows' :
  first_by_url url (rows ++ rows')
  = match first_by_url url rows with
    | Some r => Some r
    | None => first_by_url url rows'
    end.
Proof.
  unfold first_by_url. induction rows as [|r rows IH]; [done|].
  cbn. by destruct (bool_decide _).
Qed.

Lemma first_by_url_prefix url rows rows' r :
  rows `prefix_of` rows' -> first_by_url url rows = Some r ->
  first_by_url url rows' = Some r.
Proof. intros [ext ->] Hr. by rewrite first_by_url_app, Hr. Qed.

Lemma first_by_url_None url rows :
  first_by_url url rows = None -> filter (fun r => row_url r = url) rows = [].
Proof.
  unfold first_by_url. induction rows as [|r rows IH]; [done|].
  cbn. case_bool_decide; [done|].
  intros Hnone. rewrite decide_False by done. by apply IH.
Qed.

Lemma first_by_url_Some url rows r :
  first_by_url url rows = Some r -> row_url r = url /\ r ∈ rows.
Proof.
  unfold first_by_url. intros Hr. apply find_some in Hr as [Hin Hurl].
  apply bool_decide_eq_true in Hurl. by apply list_elem_of_In in Hin.
Qed.

Lemma truthy_spec s : Is_true (Py.truthy s) <-> s <> "".
Proof. unfold Py.truthy. by destruct (decide (s = "")). Qed.

Lemma truthy_true s : Py.truthy s = true <-> s <> "".
Proof. unfold Py.truthy. by destruct (decide (s = "")). Qed.

Section Store.

Variable env : Env.

(** Adding a row: whatever happens, at most that one row is appended. *)
Lemma add_article_spec article_data w :
  wp (add_article env article_data) w (fun r w' =>
    category_cache w' = category_cache w
    /\ calls w' = calls w
    /\ (articles w' = articles w
        \/ exists row, articles w' = articles w ++ [row]
             /\ row_url row = a_url article_data
             /\ row_content row = a_content article_data)
    /\ (forall row, r = Ok row ->
          articles w' = articles w ++ [row]
          /\ row_url row = a_url article_data
          /\ row_content row = a_content article_data)
    /\ (healthy env -> is_ok r)).
Proof.
  unfold add_article. wp_steps; cbn.
  - split_and!; try done.
    + right. eexists. by split_and!.
    + by intros row [= <-].
  - split_and!; try done.
    + right. eexists. by split_and!.
    + intros Hh. by rewrite Hh in *.
  - split_and!; try done; [by left|]. intros Hh. by rewrite Hh in *.
Qed.

Lemma rows_have_content_snoc w row :
  rows_have_content w -> row_content row <> "" ->
  forall row', row' ∈ articles w ++ [row] -> row_content row' <> "".
Proof.
  intros Hinv Hrow row' Hin. apply elem_of_app in Hin as [Hin|Hin]; [by apply Hinv|].
  by apply list_elem_of_singleton in Hin as ->.
Qed.

Lemma store_loop_spec batch acc w :
  wp (store_loop env batch acc) w (stored env batch acc w).
Proof.
  revert acc w. induction batch as [|article_data rest IH]; intros acc w.
  - cbn. wp_step. split_and!; try done.
    intros ids [= <-]. exists []. split_and!; [by rewrite app_nil_r|done|].
    intros i a Hi. by rewrite lookup_nil in Hi.
  - cbn [store_loop]. unfold query_article_by_url. wp_steps.
    + (* the url has a row *)
      rename a into existing.
      change (articles (advance w)) with (articles w) in Heqo.
      wp_use (IH (acc ++ [row_id existing]) (advance w)) as r w1 H1.
      destruct H1 as (Hpre & Hcc & Hcalls & Hfil & Hids & Hok & Hinv).
      split_and!; try done.
      * intros ids ->. destruct (Hids _ eq_refl) as (new & -> & Hlen & Hnew).
        exists (row_id existing :: new). split_and!.
        -- by rewrite <- app_assoc.
        -- cbn. by rewrite Hlen.
        -- intros [|i] a Hi; cbn in Hi.
           ++ injection Hi as <-. exists existing. split; [|done].
              by eapply first_by_url_prefix.
           ++ by apply Hnew.
      * intros Hc. apply Forall_cons in Hc as [_ Hc]. by apply Hinv.
    + (* no row yet: add, commit, refresh *)
      change (articles (advance w)) with (articles w) in Heqo.
      assert (Hfresh : forall url existing row,
                 first_by_url url (articles w) = Some existing ->
                 row_url row = a_url article_data ->
                 filter (fun r => row_url r = url) (articles w ++ [row])
                 = filter (fun r => row_url r = url) (articles w)).
      { intros url existing row Hex Hrow.
        rewrite filter_app, filter_cons, decide_False.
        - by rewrite filter_nil, app_nil_r.
        - rewrite Hrow. intros <-. by rewrite Heqo in Hex. }
      wp_use (add_article_spec article_data (advance w)) as [article|e] w1 H1.
      * destruct H1 as (Hcc & Hcalls & _ & Hrow & Hok).
        destruct (Hrow _ eq_refl) as (Hrows & Hurl & Hcontent).
        cbn in Hcc, Hcalls, Hrows.
        wp_use (IH (acc ++ [row_id article]) w1) as r w2 H2.
        destruct H2 as (Hpre2 & Hcc2 & Hcalls2 & Hfil2 & Hids2 & Hok2 & Hinv2).
        assert (Hpre' : articles w `prefix_of` articles w2)
          by (etrans; [|apply Hpre2]; rewrite Hrows; by apply prefix_app_r).
        assert (Hfil' : forall url existing,
                 first_by_url url (articles w) = Some existing ->
                 filter (fun r => row_url r = url) (articles w2)
                 = filter (fun r => row_url r = url) (articles w)).
        { intros url existing Hex.
          rewrite (Hfil2 url existing)
            by (by rewrite Hrows, first_by_url_app, Hex).
          rewrite Hrows. by eapply Hfresh. }
        split_and!; try done; try congruence.
        -- intros ids ->. destruct (Hids2 _ eq_refl) as (new & -> & Hlen & Hnew).
           exists (row_id article :: new). split_and!.
           ++ by rewrite <- app_assoc.
           ++ cbn. by rewrite Hlen.
           ++ intros [|i] a' Hi; cbn in Hi.
              ** injection Hi as <-. exists article. split; [|done].
                 eapply first_by_url_prefix; [apply Hpre2|].
                 rewrite Hrows, first_by_url_app, Heqo. unfold first_by_url. cbn.
                 by rewrite bool_decide_eq_true_2.
              ** by apply Hnew.
        -- intros Hc Hinv. apply Forall_cons in Hc as [Hc1 Hc]. apply Hinv2; [done|].
           unfold rows_have_content. rewrite Hrows.
           apply rows_have_content_snoc; [done|]. by rewrite Hcontent.
      * destruct H1 as (Hcc & Hcalls & Hrows & _ & Hok).
        cbn in Hcc, Hcalls, Hrows.
        split_and!; try done.
        -- destruct Hrows as [->|(row & -> & _)]; [done|by apply prefix_app_r].
        -- intros url existing Hex.
           destruct Hrows as [->|(row & -> & Hurl & _)]; [done|by eapply Hfresh].
        -- intros Hc Hinv. apply Forall_cons in Hc as [Hc1 _].
           destruct Hrows as [Hrows|(row & Hrows & _ & Hcontent)];
             unfold rows_have_content; rewrite Hrows; [done|].
           apply rows_have_content_snoc; [done|]. by rewrite Hcontent.
    + split_and!; try done. intros Hh. by rewrite Hh in *.
Qed.

(** When every article of the batch has a row already, the loop adds nothing
    and returns the ids of those rows. *)
Lemma store_loop_present batch acc w :
  healthy env ->
  Forall (fun a => is_Some (first_by_url (a_url a) (articles w))) batch ->
  exists w',
    store_loop env batch acc w
    = (Ok (acc ++ omap (fun a => row_id <$> first_by_url (a_url a) (articles w)) batch),
       w')
    /\ articles w' = articles w.
Proof.
  intros Hh. revert acc w. induction batch as [|article_data rest IH]; intros acc w Hall.
  - eexists. cbn. by rewrite app_nil_r.
  - apply Forall_cons in Hall as [[existing Hex] Hall].
    destruct (IH (acc ++ [row_id existing]) (advance w) Hall) as (w' & Hrun & Harts).
    exists w'. split; [|done].
    cbn [store_loop omap list_omap]. unfold query_article_by_url, bind, db_execute, read.
    rewrite Hh. cbn [articles advance]. rewrite Hex. cbn [fmap option_fmap option_map].
    unfold omap in *. rewrite Hrun. cbn. by rewrite <- app_assoc.
Qed.

End Store.

(** ** Reading the cache *)

Lemma insert_desc_perm r rows : insert_desc r rows ≡ₚ r :: rows.
Proof.
  induction rows as [|r' rows IH]; [done|].
  cbn. destruct (_ <=? _); [done|]. rewrite IH. apply Permutation_swap.
Qed.

Lemma order_by_scraped_at_desc_perm rows : order_by_scraped_at_desc rows ≡ₚ rows.
Proof.
  unfold order_by_scraped_at_desc. induction rows as [|r rows IH]; [done|].
  cbn. by rewrite insert_desc_perm, IH.
Qed.

Section Reading.

Variable env : Env.

Lemma get_latest_article_url_spec category w :
  wp (get_latest_article_url env category) w (fun r w' =>
    quiet w w' /\ exists current, r = Ok current).
Proof.
  unfold get_latest_article_url. wp_step. wp_step.
  wp_use (get_category_articles_spec env category 1 w) as r w1 H1.
  destruct H1 as (listing & -> & _ & _ & Hq).
  destruct listing; wp_steps; eauto.
Qed.

Lemma get_cached_articles_spec category w :
  wp (get_cached_articles env category) w (fun r w' =>
    quiet w w'
    /\ (healthy env -> is_ok r)
    /\ (forall cached_articles, r = Ok (Some cached_articles) ->
          exists cache_entry rows,
            category_cache w !! category = Some cache_entry
            /\ rows ≡ₚ cached_rows cache_entry w
            /\ cached_articles = map dict_of_row rows)
    /\ (forall cache_entry,
          category_cache w !! category = Some cache_entry ->
          (forall t, utcnow env t - cached_at cache_entry <= FOUR_HOURS) ->
          cached_articles_json cache_entry <> [] ->
          r <> Ok None)).
Proof.
  unfold get_cached_articles, query_category_cache, query_articles_in.
  wp_steps.
  all: split_and!; try done.
  all: try (intros Hh; by rewrite Hh in * ).
  all: try (intros ce Hce; cbn in Heqo; by rewrite Heqo in Hce).
  all: try (intros ce Hce Hfresh Hids; cbn in Heqo; rewrite Heqo in Hce;
            injection Hce as <-; try done).
  - apply Z.ltb_lt in Heqb. specialize (Hfresh (tick (advance w))). lia.
  - intros cached [= <-]. eexists _, _. split_and!; [done| |done].
    unfold cached_rows. rewrite Heql. apply order_by_scraped_at_desc_perm.
Qed.

Lemma should_update_cache_spec category w :
  wp (should_update_cache env category) w (fun r w' =>
    quiet w w' /\ (healthy env -> is_ok r)).
Proof.
  unfold should_update_cache, query_category_cache.
  wp_step. wp_step. wp_step.
  2:{ split; [done|]. intros Hh. by rewrite Hh in *. }
  cbn beta. wp_step. cbn beta. wp_step.
  wp_use (get_latest_article_url_spec category (advance w)) as r w1 H1.
  destruct H1 as (Hq & current & ->).
  wp_steps; split; try done.
  all: eapply quiet_trans; [apply Hq|done].
Qed.

End Reading.

Lemma wp_returns {A} (m : M A) w a :
  wp m w (fun r _ => r = Ok a) -> exists w', m w = (Ok a, w').
Proof. unfold wp. destruct (m w) as [r w']. cbn. intros ->. eauto. Qed.

Lemma get_latest_article_url_unreachable env category w :
  (forall t url, http_listing env t url = None) ->
  wp (get_latest_article_url env category) w (fun r _ => r = Ok None).
Proof.
  intros Hdown. unfold get_latest_article_url, get_category_articles.
  wp_steps; try done. by rewrite Hdown in Heqo0.
Qed.

(** C9 (as amended). When the category has a cache entry and the Listing
    Fetcher cannot be reached, the evaluator asks for a refresh and hands on
    the stored [latest_article_url] as fence-post, as it does for a stale or
    an expired entry. *)
Theorem C9_unreachable_listing_refreshes_with_fence_post env category w cache_entry :
  category_cache w !! category = Some cache_entry ->
  db_fault env (tick w) = false ->
  (forall t url, http_listing env t url = None) ->
  exists w',
    should_update_cache env category w
    = (Ok (true, Some (latest_article_url cache_entry)), w').
Proof.
  intros Hentry Hdb Hdown. apply wp_returns.
  unfold should_update_cache, query_category_cache.
  wp_step. wp_step. wp_step; [|congruence].
  cbn beta. wp_step. cbn beta. wp_step.
  wp_use (get_latest_article_url_unreachable env category (advance w) Hdown) as r w1 H1.
  subst r. cbn [category_cache advance]. rewrite Hentry.
  wp_steps; done.
Qed.

(** ** Gathering the articles of a category *)

Lemma same_tables_refl w : same_tables w w.
Proof. done. Qed.

Lemma quiet_same_tables w w' : quiet w w' -> same_tables w w'.
Proof. by intros []. Qed.

Lemma slice_to_Forall {A} (P : A -> Prop) (xs : list A) n :
  Forall P xs -> Forall P (Py.slice_to xs n).
Proof.
  intros H. unfold Py.slice_to. destruct (0 <=? n); by apply Forall_take.
Qed.

Section Gather.

Variable env : Env.

(** The Content Fetcher never raises; what it returns has the url asked for
    and a non-empty content. It touches no table. *)
Lemma get_article_content_spec article_url w :
  wp (get_article_content env article_url) w (fun r w' =>
    same_tables w w'
    /\ exists o, r = Ok o
        /\ forall s, o = Some s -> s_url s = article_url /\ s_content s <> "").
Proof.
  unfold get_article_content. wp_steps.
  all: split; [done|]; eexists; split; [done|]; intros s' [= <-].
  cbn. split; [done|]. apply negb_false_iff in Heqb. by apply truthy_true.
Qed.

Lemma summarize_spec article w :
  wp (summarize env article) w (fun r w' =>
    same_tables w w'
    /\ exists article', r = Ok article'
        /\ a_url article' = a_url article
        /\ a_content article' = a_content article).
Proof. unfold summarize. wp_steps; (split; [done|]); eexists; by split_and!. Qed.

Lemma resolve_links_spec category new_article_links acc w :
  wp (resolve_links env category new_article_links acc) w (fun r w' =>
    same_tables w w'
    /\ exists resolved, r = Ok resolved
        /\ (Forall has_content acc -> Forall has_content resolved)).
Proof.
  revert acc w. induction new_article_links as [|article_link rest IH]; intros acc w.
  - cbn. wp_step. split; [done|]. eexists. by split_and!.
  - cbn [resolve_links]. wp_step.
    wp_use (get_article_content_spec (stub_url article_link) w) as r w1 H1.
    destruct H1 as (Ht & o & -> & Ho). destruct o as [article_content|].
    + wp_use (IH (acc ++ [with_category category article_content]) w1) as r w2 H2.
      destruct H2 as (Ht2 & resolved & -> & Hres).
      split; [by eapply same_tables_trans|]. eexists. split; [done|].
      intros Hacc. apply Hres. apply Forall_app. split; [done|].
      apply Forall_singleton. unfold has_content. cbn. by apply (Ho _ eq_refl).
    + wp_use (IH acc w1) as r w2 H2.
      destruct H2 as (Ht2 & resolved & -> & Hres).
      split; [by eapply same_tables_trans|]. eauto.
Qed.

Lemma summarize_all_spec new_articles_with_content w :
  wp (summarize_all env new_articles_with_content) w (fun r w' =>
    same_tables w w'
    /\ exists summarized, r = Ok summarized
        /\ length summarized = length new_articles_with_content
        /\ (Forall has_content new_articles_with_content ->
            Forall has_content summarized)).
Proof.
  revert w. induction new_articles_with_content as [|article rest IH]; intros w.
  - cbn. wp_step. split; [done|]. eexists. by split_and!.
  - cbn [summarize_all]. wp_step.
    wp_use (summarize_spec article w) as r w1 H1.
    destruct H1 as (Ht & article' & -> & Hurl & Hcontent).
    wp_step. wp_use (IH w1) as r w2 H2.
    destruct H2 as (Ht2 & summarized & -> & Hlen & Hall).
    wp_step. split; [by eapply same_tables_trans|]. eexists. split_and!; [done|cbn; lia|].
    intros Hc. apply Forall_cons in Hc as [Hc1 Hc2]. apply Forall_cons. split.
    + unfold has_content in *. congruence.
    + by apply Hall.
Qed.

Lemma top_up_loop_spec category limit additional_links final_articles existing_urls w :
  wp (top_up_loop env category limit additional_links final_articles existing_urls) w
    (fun r w' =>
       same_tables w w'
       /\ exists topped, r = Ok topped
           /\ (Py.len final_articles <= limit -> Py.len topped <= limit)
           /\ (Forall has_content final_articles -> Forall has_content topped)).
Proof.
  revert final_articles existing_urls w.
  induction additional_links as [|article_link rest IH];
    intros final_articles existing_urls w.
  - cbn. wp_step. split; [done|]. eexists. by split_and!.
  - cbn [top_up_loop]. wp_step; [wp_step; split; [done|]; eexists; by split_and!|].
    wp_step.
    + wp_step.
      wp_use (get_article_content_spec (stub_url article_link) w) as r w1 H1.
      destruct H1 as (Ht & o & -> & Ho). destruct o as [article_content|].
      * wp_step.
        wp_use (summarize_spec (with_category category article_content) w1) as r w2 H2.
        destruct H2 as (Ht2 & article' & -> & Hurl & Hcontent).
        wp_use (IH (final_articles ++ [article'])
                  ({[stub_url article_link]} ∪ existing_urls) w2) as r w3 H3.
        destruct H3 as (Ht3 & topped & -> & Hlen & Hall).
        split; [eapply same_tables_trans; [|done]; by eapply same_tables_trans|].
        eexists. split_and!; [done| |].
        -- intros _. apply Hlen. apply Z.leb_gt in Heqb.
           unfold Py.len in *. rewrite length_app. cbn. lia.
        -- intros Hf. apply Hall. apply Forall_app. split; [done|].
           apply Forall_singleton. unfold has_content. rewrite Hcontent. cbn.
           by apply (Ho _ eq_refl).
      * wp_use (IH final_articles existing_urls w1) as r w2 H2.
        destruct H2 as (Ht2 & topped & -> & Hlen & Hall).
        split; [by eapply same_tables_trans|]. eauto.
    + wp_use (IH final_articles existing_urls w) as r w2 H2.
      destruct H2 as (Ht2 & topped & -> & Hlen & Hall). split; eauto.
Qed.

Lemma get_incremental_articles_spec category latest_cached_url limit w :
  wp (get_incremental_articles env category latest_cached_url limit) w (fun r w' =>
    quiet w w' /\ exists new_articles, r = Ok new_articles).
Proof.
  unfold get_incremental_articles. wp_step. wp_step.
  wp_use (get_category_articles_spec env category (limit * 3) w) as r w1 H1.
  destruct H1 as (listing & -> & _ & _ & Hq).
  wp_steps; eauto.
Qed.

End Gather.

Section Refresh.

Variable env : Env.

Lemma has_content_dict_of_row row :
  has_content (dict_of_row row) <-> row_content row <> "".
Proof. done. Qed.

Lemma fetch_links_spec category limit latest_cached_url w :
  wp (fetch_links env category limit latest_cached_url) w (fun r w' =>
    quiet w w'
    /\ (healthy env -> is_ok r)
    /\ forall new_article_links cached_articles,
         r = Ok (new_article_links, cached_articles) ->
         rows_have_content w -> Forall has_content cached_articles).
Proof.
  unfold fetch_links. wp_step.
  - wp_step.
    wp_use (get_incremental_articles_spec env category
              (default "" latest_cached_url) limit w) as r w1 H1.
    destruct H1 as (Hq & new_articles & ->).
    wp_step. wp_use (get_cached_articles_spec env category w1) as r w2 H2.
    destruct H2 as (Hq2 & Hok & Hrows & _).
    destruct r as [cached|e]; [wp_step|]; (split; [by eapply quiet_trans|]).
    + split; [done|]. intros links cached_articles [= <- <-] Hinv.
      destruct cached as [cached|]; [|by apply Forall_nil].
      destruct (Hrows _ eq_refl) as (cache_entry & rows & _ & Hperm & ->).
      cbn. apply Forall_fmap, Forall_forall. intros row Hrow.
      apply has_content_dict_of_row, Hinv.
      rewrite Hperm in Hrow. unfold cached_rows in Hrow.
      apply list_elem_of_filter in Hrow as [_ Hrow].
      destruct Hq as [[<- _] _]. done.
    + split; [done|]. done.
  - wp_step.
    wp_use (get_category_articles_spec env category limit w) as r w1 H1.
    destruct H1 as (listing & -> & _ & _ & Hq).
    wp_step. split_and!; [done..|].
    intros links cached_articles [= <- <-] _. by apply Forall_nil.
Qed.

Lemma gather_spec category limit latest_cached_url w :
  wp (gather env category limit latest_cached_url) w (fun r w' =>
    same_tables w w'
    /\ (healthy env -> is_ok r)
    /\ forall final_articles, r = Ok final_articles ->
         (0 <= limit -> Py.len final_articles <= limit)
         /\ (rows_have_content w -> Forall has_content final_articles)).
Proof.
  unfold gather. wp_step.
  wp_use (fetch_links_spec category limit latest_cached_url w) as r w1 H1.
  destruct H1 as (Hq1 & Hok1 & Hcached). apply quiet_same_tables in Hq1.
  destruct r as [[new_article_links cached_articles]|e]; [|done].
  specialize (Hcached _ _ eq_refl). cbn iota. wp_step.
  wp_use (resolve_links_spec env category new_article_links [] w1) as r w2 H2.
  destruct H2 as (Ht2 & resolved & -> & Hres). specialize (Hres (Forall_nil_2 _)).
  wp_step. wp_use (summarize_all_spec env resolved w2) as r w3 H3.
  destruct H3 as (Ht3 & summarized & -> & _ & Hsum). specialize (Hsum Hres).
  assert (Ht : same_tables w w3) by eauto using same_tables_trans.
  set (all_articles := summarized ++ _).
  assert (Hall : rows_have_content w -> Forall has_content all_articles).
  { intros Hinv. apply Forall_app. split; [done|].
    destruct cached_articles as [|c cs]; [done|].
    apply Forall_forall. intros a Ha. apply list_elem_of_filter in Ha as [_ Ha].
    specialize (Hcached Hinv). rewrite Forall_forall in Hcached. by apply Hcached. }
  wp_step.
  - wp_step.
    wp_use (get_category_articles_spec env category (limit * 2) w3) as r w4 H4.
    destruct H4 as (additional_links & -> & _ & _ & Hq4).
    apply quiet_same_tables in Hq4.
    wp_use (top_up_loop_spec env category limit additional_links
              (Py.slice_to all_articles limit) (url_set all_articles) w4) as r w5 H5.
    destruct H5 as (Ht5 & topped & -> & Hlen & Htop).
    split_and!; [eauto using same_tables_trans|done|].
    intros final [= <-]. split.
    + intros Hn. apply Hlen. by apply slice_to_len.
    + intros Hinv. apply Htop. by apply slice_to_Forall, Hall.
  - wp_step. split_and!; [done..|].
    intros final [= <-]. split.
    + intros Hn. by apply slice_to_len.
    + intros Hinv. by apply slice_to_Forall, Hall.
Qed.

(** Overwriting the cache entry: the tables change in that one entry only,
    and only when the commit succeeds. *)
Lemma update_category_cache_spec category article_ids latest_url w :
  wp (update_category_cache env category article_ids latest_url) w (fun r w' =>
    articles w' = articles w
    /\ calls w' = calls w
    /\ (healthy env -> is_ok r)
    /\ (r = Ok tt ->
        category_cache w'
        = <[category := mkCategoryCache category latest_url article_ids
                          (utcnow env (S (tick w)))]> (category_cache w))
    /\ (forall e, r = Raise e -> category_cache w' = category_cache w)).
Proof.
  unfold update_category_cache, query_category_cache. wp_steps.
  all: split_and!; try done.
  all: intros Hh; by rewrite Hh in *.
Qed.

Lemma filter_has_content (xs : list ArticleDict) :
  Forall has_content xs -> filter (fun a => Py.truthy (a_content a)) xs = xs.
Proof.
  induction 1 as [|a xs Ha _ IH]; [done|].
  rewrite filter_cons, decide_True by by apply truthy_spec. by rewrite IH.
Qed.

Lemma store_articles_in_db_spec batch w :
  wp (store_articles_in_db env batch) w (stored env batch [] w).
Proof. apply store_loop_spec. Qed.

Lemma persist_spec category final_articles w :
  wp (persist env category final_articles) w (fun r w' =>
    calls w' = calls w /\ (healthy env -> is_ok r)).
Proof.
  unfold persist. destruct (filter _ final_articles) as [|a rest]; [by wp_step|].
  wp_step. wp_use (store_articles_in_db_spec (a :: rest) w) as r w1 H1.
  destruct H1 as (_ & _ & Hcalls & _ & _ & Hok & _).
  destruct r as [article_ids|e]; [|done].
  destruct final_articles as [|first others]; [by wp_step|].
  wp_use (update_category_cache_spec category article_ids (a_url first) w1) as r w2 H2.
  destruct H2 as (_ & Hcalls2 & Hok2 & _). split; [congruence|done].
Qed.

Lemma serve_cached_spec category limit should_update w :
  wp (serve_cached env category limit should_update) w (fun r w' =>
    quiet w w'
    /\ (healthy env -> is_ok r)
    /\ forall cached_articles, r = Ok (Some cached_articles) ->
         0 <= limit -> Py.len cached_articles <= limit).
Proof.
  unfold serve_cached. destruct should_update; cbn [negb]; [by wp_step|].
  wp_step. wp_use (get_cached_articles_spec env category w) as r w1 H1.
  destruct H1 as (Hq & Hok & _). destruct r as [cached|e]; [|done].
  wp_steps; split_and!; try done.
  intros cached_articles [= <-] Hn. by apply slice_to_len.
Qed.

Lemma process_category_spec category limit results w :
  wp (process_category env category limit results) w (fun r w' =>
    (healthy env -> is_ok r)
    /\ forall results', r = Ok results' ->
         exists final_articles,
           results' = <[category := final_articles]> results
           /\ (0 <= limit -> Py.len final_articles <= limit)).
Proof.
  unfold process_category. wp_step.
  wp_use (should_update_cache_spec env category w) as r w1 H1.
  destruct H1 as (_ & Hok1). destruct r as [[should_update latest]|e]; [|done].
  cbn iota. wp_step.
  wp_use (serve_cached_spec category limit should_update w1) as r w2 H2.
  destruct H2 as (_ & Hok2 & Hlen2). destruct r as [served|e]; [|done].
  destruct served as [cached_articles|].
  - wp_step. split; [done|]. intros results' [= <-]. eauto.
  - wp_step. wp_use (gather_spec category limit latest w2) as r w3 H3.
    destruct H3 as (_ & Hok3 & Hfinal). destruct r as [final_articles|e]; [|done].
    destruct (Hfinal _ eq_refl) as [Hlen _].
    wp_step. wp_use (persist_spec category final_articles w3) as r w4 H4.
    destruct H4 as (_ & Hok4). destruct r as [[]|e]; [|done].
    wp_step. split; [done|]. intros results' [= <-]. eauto.
Qed.

Lemma for_categories_spec categories limit results w :
  wp (for_categories env categories limit results) w (fun r w' =>
    (healthy env -> is_ok r)
    /\ forall results', r = Ok results' ->
         dom results' = dom results ∪ list_to_set categories
         /\ forall category final_articles,
              results' !! category = Some final_articles ->
              results !! category = Some final_articles
              \/ (0 <= limit -> Py.len final_articles <= limit)).
Proof.
  revert results w. induction categories as [|category rest IH]; intros results w.
  - cbn. wp_step. split; [done|]. intros results' [= <-].
    split; [set_solver|auto].
  - cbn [for_categories]. wp_step.
    wp_use (process_category_spec category limit results w) as r w1 H1.
    destruct H1 as (Hok1 & Hres). destruct r as [results1|e]; [|done].
    destruct (Hres _ eq_refl) as (final & -> & Hlen).
    wp_use (IH (<[category := final]> results) w1) as r w2 H2.
    destruct H2 as (Hok2 & Hres2). split; [done|].
    intros results' ->. destruct (Hres2 _ eq_refl) as (Hdom & Hvals).
    split.
    + rewrite Hdom, dom_insert_L. set_solver.
    + intros c l Hl. destruct (Hvals _ _ Hl) as [Hin|Hin]; [|by right].
      destruct (decide (category = c)) as [<-|Hne].
      * rewrite lookup_insert_eq in Hin. injection Hin as <-. by right.
      * rewrite lookup_insert_ne in Hin by done. by left.
Qed.

Lemma for_categories_app categories1 categories2 limit results w :
  for_categories env (categories1 ++ categories2) limit results w
  = bind (for_categories env categories1 limit results)
         (for_categories env categories2 limit) w.
Proof.
  revert results w. induction categories1 as [|category rest IH]; intros results w.
  - done.
  - cbn [for_categories app]. unfold bind in *.
    destruct (process_category env category limit results w) as [[results1|e] w1].
    + apply IH.
    + done.
Qed.

End Refresh.

(** ** The claims about the reconciler *)

(** C2 (as amended). When the target count is not negative, every list in
    the mapping that [get_articles_with_cache] returns has at most that many
    articles, whether it was served from the cache or gathered, top-up
    included. (For a negative count the slices [[:n]] of lines 187 and 234
    count from the end, and a list can be longer than the count.) *)
Theorem C2_bounded_output env categories limit_per_category w results w'
    category final_articles :
  0 <= limit_per_category ->
  get_articles_with_cache env categories limit_per_category w = (Ok results, w') ->
  results !! category = Some final_articles ->
  Py.len final_articles <= limit_per_category.
Proof.
  intros Hn Hrun Hfinal.
  pose proof (for_categories_spec env categories limit_per_category ∅ w) as Hspec.
  unfold get_articles_with_cache, try_finally, db_close, ret in Hrun.
  unfold wp in Hspec.
  destruct (for_categories env categories limit_per_category ∅ w) as [r w1].
  injection Hrun as -> <-. cbn in Hspec. destruct Hspec as [_ Hspec].
  destruct (Hspec _ eq_refl) as [_ Hvals].
  destruct (Hvals _ _ Hfinal) as [Hempty|Hlen]; [|by apply Hlen].
  by rewrite lookup_empty in Hempty.
Qed.

Lemma get_articles_with_cache_keys env categories limit_per_category w results w' :
  get_articles_with_cache env categories limit_per_category w = (Ok results, w') ->
  dom results = list_to_set categories.
Proof.
  intros Hrun.
  pose proof (for_categories_spec env categories limit_per_category ∅ w) as Hspec.
  unfold get_articles_with_cache, try_finally, db_close, ret in Hrun.
  unfold wp in Hspec.
  destruct (for_categories env categories limit_per_category ∅ w) as [r w1].
  injection Hrun as -> <-. cbn in Hspec. destruct Hspec as [_ Hspec].
  destruct (Hspec _ eq_refl) as [Hdom _].
  by rewrite dom_empty_L, (left_id_L ∅ (∪)) in Hdom.
Qed.

(** C10. When [get_articles_with_cache] returns normally, the keys of its
    result are exactly the requested categories: each has an entry, be it the
    empty list. *)
Theorem C10_every_category_has_an_entry env categories limit_per_category w results w' :
  get_articles_with_cache env categories limit_per_category w = (Ok results, w') ->
  dom results = list_to_set categories
  /\ forall category, category ∈ categories -> is_Some (results !! category).
Proof.
  intros Hrun.
  pose proof (get_articles_with_cache_keys env categories limit_per_category w results w' Hrun) as Hdom.
  split; [done|].
  intros category Hin. apply elem_of_dom. rewrite Hdom. set_solver.
Qed.

(** C3 (as amended). The filter returns an order-preserving subsequence of
    its input in which no stub exceeds the overlap threshold against an
    earlier kept one. A stub is dropped exactly when it exceeds the threshold
    against a stub that was kept before it, and later stubs never change what
    was decided: so of a pair over the threshold the later stub is dropped
    whenever the earlier one was kept. *)
Theorem C3_dedup_first_kept_wins (articles : list Stub) :
  _deduplicate_articles articles `sublist_of` articles
  /\ (forall i j a b,
        _deduplicate_articles articles !! i = Some a ->
        _deduplicate_articles articles !! j = Some b ->
        (i < j)%nat -> ~ overlap_exceeds a b)
  /\ (forall pre b post, articles = pre ++ b :: post ->
        _deduplicate_articles (pre ++ [b]) `prefix_of` _deduplicate_articles articles
        /\ ((exists a, a ∈ _deduplicate_articles pre /\ overlap_exceeds a b) ->
            _deduplicate_articles (pre ++ [b]) = _deduplicate_articles pre)
        /\ ((forall a, a ∈ _deduplicate_articles pre -> ~ overlap_exceeds a b) ->
            _deduplicate_articles (pre ++ [b]) = _deduplicate_articles pre ++ [b])).
Proof.
  split_and!.
  - apply deduplicate_sublist.
  - apply deduplicate_pairwise.
  - intros pre b post ->. split_and!.
    + replace (pre ++ b :: post) with ((pre ++ [b]) ++ post)
        by (by rewrite <- app_assoc).
      apply deduplicate_prefix.
    + intros Hdup. rewrite deduplicate_snoc. unfold kept_step.
      apply is_duplicate_spec in Hdup. by rewrite Hdup.
    + intros Hnew. rewrite deduplicate_snoc. unfold kept_step.
      destruct (is_duplicate _ _) eqn:Hdup; [|done].
      apply is_duplicate_spec in Hdup as (a & Ha & Hex). by destruct (Hnew a Ha).
Qed.

(** C7. Whatever the database does during [store_articles_in_db]: the rows
    that were in the table stay as they are, in place; for an article whose
    url already had a row, the rows with that url are the same afterwards (no
    second record), and on normal return the id at the article's position is
    that row's id. When the database is healthy the call returns normally. *)
Theorem C7_store_idempotent env articles_with_content w r w' :
  store_articles_in_db env articles_with_content w = (r, w') ->
  articles w `prefix_of` articles w'
  /\ (forall i article_data existing,
        articles_with_content !! i = Some article_data ->
        first_by_url (a_url article_data) (articles w) = Some existing ->
        filter (fun row => row_url row = a_url article_data) (articles w')
        = filter (fun row => row_url row = a_url article_data) (articles w)
        /\ forall article_ids, r = Ok article_ids ->
             article_ids !! i = Some (row_id existing))
  /\ (healthy env -> exists article_ids, r = Ok article_ids).
Proof.
  intros Hrun.
  pose proof (store_articles_in_db_spec env articles_with_content w) as Hspec.
  unfold wp in Hspec. rewrite Hrun in Hspec. cbn in Hspec.
  destruct Hspec as (Hpre & _ & _ & Hfil & Hids & Hok & _).
  split_and!; [done| |].
  - intros i article_data existing Hi Hex. split; [by eapply Hfil|].
    intros article_ids ->. destruct (Hids _ eq_refl) as (new & -> & _ & Hnew).
    destruct (Hnew _ _ Hi) as (row & Hrow & Hid).
    rewrite (first_by_url_prefix _ _ _ _ Hpre Hex) in Hrow. by injection Hrow as <-.
  - intros Hh. specialize (Hok Hh). destruct r; [eauto|done].
Qed.

(** Storing the same batch a second time returns the same ids and adds no
    row. *)
Lemma store_articles_in_db_again env articles_with_content w article_ids w1 :
  healthy env ->
  store_articles_in_db env articles_with_content w = (Ok article_ids, w1) ->
  exists w2,
    store_articles_in_db env articles_with_content w1 = (Ok article_ids, w2)
    /\ articles w2 = articles w1.
Proof.
  intros Hh Hrun.
  pose proof (store_articles_in_db_spec env articles_with_content w) as Hspec.
  unfold wp in Hspec. rewrite Hrun in Hspec. cbn in Hspec.
  destruct Hspec as (_ & _ & _ & _ & Hids & _).
  destruct (Hids _ eq_refl) as (ids & -> & Hlen & Hrows). cbn [app] in *.
  destruct (store_loop_present env articles_with_content [] w1 Hh) as (w2 & Hagain & Harts).
  { apply Forall_forall. intros a Ha. apply list_elem_of_lookup in Ha as [i Hi].
    destruct (Hrows _ _ Hi) as (row & -> & _). eauto. }
  exists w2. split; [|done]. unfold store_articles_in_db. rewrite Hagain. cbn [app].
  do 2 f_equal. clear -Hlen Hrows.
  revert ids Hlen Hrows.
  induction articles_with_content as [|a rest IH]; intros ids Hlen Hrows.
  - by destruct ids.
  - destruct ids as [|id ids]; [done|].
    destruct (Hrows 0%nat a eq_refl) as (row & Hrow & [= ->]).
    cbn. rewrite Hrow. cbn. f_equal. apply IH; [by injection Hlen|].
    intros i a' Hi. exact (Hrows (S i) a' Hi).
Qed.

(** C8 (as amended). When a refresh gathers a non-empty final list and
    persists it, what happens to the category's cache entry depends on the
    articles of the final list that have content, the only ones that are
    stored (lines 261-262). If there is at least one, the entry is replaced by
    one whose [latest_article_url] is the url of the first final article
    (with content or not), whose [cached_articles_json] is the list of ids
    that [store_articles_in_db] returned for the articles with content, and
    whose [cached_at] is the clock reading taken by [update_category_cache];
    no other entry changes. If there is none, nothing is written at all.
    When the rows of table [articles] have content, as all rows that the
    cache manager stores do, every final article has content. *)
Theorem C8_cache_overwritten env category limit latest_cached_url w
    final_articles w1 w2 first :
  gather env category limit latest_cached_url w = (Ok final_articles, w1) ->
  head final_articles = Some first ->
  persist env category final_articles w1 = (Ok tt, w2) ->
  (filter (fun a => Py.truthy (a_content a)) final_articles <> [] ->
   exists article_ids w_stored,
     store_articles_in_db env
       (filter (fun a => Py.truthy (a_content a)) final_articles) w1
     = (Ok article_ids, w_stored)
     /\ category_cache w2
        = <[category := {| category_name := category;
                           latest_article_url := a_url first;
                           cached_articles_json := article_ids;
                           cached_at := utcnow env (S (tick w_stored)) |}]>
            (category_cache w1)
     /\ articles w2 = articles w_stored)
  /\ (filter (fun a => Py.truthy (a_content a)) final_articles = [] -> w2 = w1)
  /\ (rows_have_content w ->
      filter (fun a => Py.truthy (a_content a)) final_articles = final_articles).
Proof.
  intros Hgather Hhead Hpersist.
  destruct final_articles as [|first' others]; [done|]. injection Hhead as ->.
  split_and!.
  - intros Hsome. unfold persist in Hpersist.
    destruct (filter (fun a => Py.truthy (a_content a)) (first :: others))
      as [|a batch] eqn:Hbatch; [done|].
    unfold bind in Hpersist.
    pose proof (store_articles_in_db_spec env (a :: batch) w1) as Hs.
    unfold wp in Hs.
    destruct (store_articles_in_db env (a :: batch) w1) as [[ids|e] ws];
      [|discriminate].
    cbn in Hs. destruct Hs as (_ & Hcc & _).
    pose proof (update_category_cache_spec env category ids (a_url first) ws) as Hu.
    unfold wp in Hu. rewrite Hpersist in Hu. cbn in Hu.
    destruct Hu as (Hart & _ & _ & Hupd & _).
    exists ids, ws. split_and!; [done| |done]. by rewrite Hupd, Hcc.
  - intros Hnone. unfold persist in Hpersist. rewrite Hnone in Hpersist.
    unfold ret in Hpersist. by injection Hpersist.
  - intros Hinv.
    pose proof (gather_spec env category limit latest_cached_url w) as Hg.
    unfold wp in Hg. rewrite Hgather in Hg. cbn in Hg.
    destruct Hg as (_ & _ & Hfinal). destruct (Hfinal _ eq_refl) as [_ Hcontent].
    by apply filter_has_content, Hcontent.
Qed.

(** ** The invariant of table [articles] *)

Section Invariant.

Variable env : Env.

Lemma rows_have_content_same_tables w w' :
  same_tables w w' -> rows_have_content w -> rows_have_content w'.
Proof. intros [Heq _] Hinv. unfold rows_have_content. by rewrite Heq. Qed.

Lemma persist_keeps_content category final_articles w :
  wp (persist env category final_articles) w (fun _ w' =>
    rows_have_content w -> rows_have_content w').
Proof.
  unfold persist.
  assert (Hc : Forall has_content
                 (filter (fun a => Py.truthy (a_content a)) final_articles)).
  { apply Forall_forall. intros a Ha. apply list_elem_of_filter in Ha as [Ha _].
    by apply truthy_spec. }
  destruct (filter _ final_articles) as [|a rest]; [by wp_step|].
  wp_step. wp_use (store_articles_in_db_spec env (a :: rest) w) as r w1 H1.
  destruct H1 as (_ & _ & _ & _ & _ & _ & Hinv).
  destruct r as [article_ids|e]; [|auto].
  destruct final_articles as [|first others]; [wp_step; auto|].
  wp_use (update_category_cache_spec env category article_ids (a_url first) w1) as r w2 H2.
  destruct H2 as (Hart & _). intros Hw. unfold rows_have_content.
  rewrite Hart. by apply Hinv.
Qed.

Lemma process_category_keeps_content category limit results w :
  wp (process_category env category limit results) w (fun _ w' =>
    rows_have_content w -> rows_have_content w').
Proof.
  unfold process_category. wp_step.
  wp_use (should_update_cache_spec env category w) as r w1 H1.
  destruct H1 as (Hq1 & _). apply quiet_same_tables in Hq1.
  destruct r as [[should_update latest]|e];
    [|by apply rows_have_content_same_tables].
  cbn iota. wp_step.
  wp_use (serve_cached_spec env category limit should_update w1) as r w2 H2.
  destruct H2 as (Hq2 & _). apply quiet_same_tables in Hq2.
  assert (Ht2 : same_tables w w2) by eauto using same_tables_trans.
  destruct r as [served|e]; [|by apply rows_have_content_same_tables].
  destruct served as [cached_articles|].
  - wp_step. by apply rows_have_content_same_tables.
  - wp_step. wp_use (gather_spec env category limit latest w2) as r w3 H3.
    destruct H3 as (Ht3 & _).
    assert (Ht : same_tables w w3) by eauto using same_tables_trans.
    destruct r as [final_articles|e]; [|by apply rows_have_content_same_tables].
    wp_step. wp_use (persist_keeps_content category final_articles w3) as r w4 H4.
    assert (Hkeep : rows_have_content w -> rows_have_content w4)
      by (intros Hw; by apply H4, (rows_have_content_same_tables w)).
    destruct r as [[]|e]; [by wp_step|done].
Qed.

Lemma for_categories_keeps_content categories limit results w :
  wp (for_categories env categories limit results) w (fun _ w' =>
    rows_have_content w -> rows_have_content w').
Proof.
  revert w results. induction categories as [|category rest IH]; intros w results.
  - cbn. by wp_steps.
  - cbn [for_categories]. wp_step.
    wp_use (process_category_keeps_content category limit results w) as r w1 H1.
    destruct r as [results1|e]; [|done].
    wp_use (IH w1 results1) as r w2 H2. auto.
Qed.

(** A call of [get_articles_with_cache] leaves a table whose rows have
    content, if it found one; the empty table is such a table. *)
Lemma get_articles_with_cache_keeps_content categories limit w :
  wp (get_articles_with_cache env categories limit) w (fun _ w' =>
    rows_have_content w -> rows_have_content w').
Proof.
  unfold get_articles_with_cache. wp_step.
  wp_use (for_categories_keeps_content categories limit ∅ w) as r w1 H1.
  by wp_step.
Qed.

End Invariant.

(** ** Serving from a fresh cache *)

Section Fresh.

Variable env : Env.

Lemma process_category_fresh category limit results w cache_entry :
  category_cache w !! category = Some cache_entry ->
  (forall t, utcnow env t - cached_at cache_entry <= FOUR_HOURS) ->
  (forall w0, (get_latest_article_url env category w0).1
              = Ok (Some (latest_article_url cache_entry))) ->
  (exists row, row ∈ articles w /\ row_id row ∈ cached_articles_json cache_entry) ->
  wp (process_category env category limit results) w (fun _ w' => quiet w w').
Proof.
  intros Hentry Hfresh Hsame (row & Hrow & Hid).
  unfold process_category. wp_step.
  (* the evaluator says: fresh *)
  assert (Hdecision : wp (should_update_cache env category) w (fun r w' =>
            quiet w w'
            /\ forall d, r = Ok d -> d = (false, Some (latest_article_url cache_entry)))).
  { unfold should_update_cache, query_category_cache.
    wp_step. wp_step. wp_step; [|done]. cbn beta. wp_step. cbn beta. wp_step.
    eapply wp_mono.
    { apply wp_and with
        (Q' := fun r _ => r = Ok (Some (latest_article_url cache_entry)));
        [apply get_latest_article_url_spec | exact (Hsame (advance w))]. }
    cbn beta. intros r w1 [[Hq _] ->]. cbn [category_cache advance]. rewrite Hentry.
    wp_steps; (split; [done|]); intros d [= <-]; try done.
    - apply Z.ltb_lt in Heqb. specialize (Hfresh (tick w1)). lia.
    - by apply bool_decide_eq_true in Heqb0. }
  wp_use Hdecision as r w1 H1. destruct H1 as (Hq1 & Hd).
  destruct r as [d|e]; [|done]. rewrite (Hd _ eq_refl). cbn iota.
  (* the cached rows are served *)
  wp_step. unfold serve_cached. cbn [negb]. wp_step.
  wp_use (get_cached_articles_spec env category w1) as r w2 H2.
  destruct H2 as (Hq2 & _ & Hrows & Hsome).
  assert (Hq : quiet w w2) by eauto using quiet_trans.
  destruct r as [cached|e]; [|done].
  destruct Hq1 as [[Harts Hcc] _].
  destruct cached as [cached|].
  2:{ exfalso. eapply Hsome; [by rewrite Hcc|done| |done].
      intros Hnil. rewrite Hnil in Hid. by apply elem_of_nil in Hid. }
  destruct (Hrows _ eq_refl) as (ce & rows & Hce & Hperm & ->).
  rewrite Hcc, Hentry in Hce. injection Hce as <-.
  assert (Hin : row ∈ rows).
  { rewrite Hperm. unfold cached_rows. apply list_elem_of_filter.
    split; [done|]. by rewrite Harts. }
  destruct rows as [|row0 rows]; [by apply elem_of_nil in Hin|].
  cbn. by wp_steps.
Qed.

End Fresh.

(** C4 (as amended). When the category's cache entry is within four hours at
    every reading of the clock, its [latest_article_url] is the newest
    listing url, and the table has at least one of the recorded articles,
    processing the category makes no call to the Content Fetcher and stores
    nothing. *)
Theorem C4_fresh_cache_no_content_fetch env category limit results w cache_entry :
  category_cache w !! category = Some cache_entry ->
  (forall t, utcnow env t - cached_at cache_entry <= FOUR_HOURS) ->
  (forall w0, (get_latest_article_url env category w0).1
              = Ok (Some (latest_article_url cache_entry))) ->
  (exists row, row ∈ articles w /\ row_id row ∈ cached_articles_json cache_entry) ->
  content_calls (calls (process_category env category limit results w).2)
  = content_calls (calls w)
  /\ same_tables w (process_category env category limit results w).2.
Proof.
  intros Hentry Hfresh Hsame Hrows.
  pose proof (process_category_fresh env category limit results w cache_entry
                Hentry Hfresh Hsame Hrows) as [Ht Hc].
  done.
Qed.

(** ** Failures *)

Lemma slice_to_nil {A} n : Py.slice_to (@nil A) n = [].
Proof. unfold Py.slice_to. destruct (0 <=? n); apply take_nil. Qed.

Section Failures.

Variable env : Env.

(** A listing request that fails is an empty listing, not an exception. *)
Lemma get_category_articles_unreachable category limit w :
  (forall t url, http_listing env t url = None) ->
  wp (get_category_articles env category limit) w (fun r w' =>
    r = Ok [] /\ quiet w w').
Proof.
  intros Hdown.
  eapply wp_mono.
  { apply wp_and with (Q' := fun r _ => r = Ok []);
      [apply get_category_articles_spec|].
    unfold get_category_articles. wp_steps; try done. by rewrite Hdown in Heqo0. }
  cbn beta. intros r w' [(l & _ & _ & _ & Hq) ->]. done.
Qed.

(** An article request that fails is a missing article, not an exception. *)
Lemma get_article_content_unreachable article_url w :
  (forall t url, http_article env t url = None) ->
  wp (get_article_content env article_url) w (fun r _ => r = Ok None).
Proof.
  intros Hdown. unfold get_article_content. wp_steps; try done.
  by rewrite Hdown in Heqo.
Qed.

(** With a healthy database, an unreachable Listing Fetcher and no cache
    entry, a category yields the empty list and the tables stay as they
    are. *)
Lemma process_category_unreachable category limit results w :
  healthy env ->
  (forall t url, http_listing env t url = None) ->
  category_cache w !! category = None ->
  wp (process_category env category limit results) w (fun r w' =>
    r = Ok (<[category := []]> results) /\ same_tables w w').
Proof.
  intros Hh Hdown Hnone. unfold process_category. wp_step.
  assert (Hdecision : wp (should_update_cache env category) w (fun r w' =>
            r = Ok (true, None) /\ same_tables w w')).
  { unfold should_update_cache, query_category_cache.
    wp_step. wp_step. wp_step; [|by rewrite Hh in *]. cbn beta. wp_step. cbn beta.
    wp_step. eapply wp_mono.
    { apply wp_and with (Q' := fun r _ => r = Ok None);
        [apply get_latest_article_url_spec
        |by apply get_latest_article_url_unreachable]. }
    cbn beta. intros r w1 [[Hq _] ->]. cbn [category_cache advance]. rewrite Hnone.
    wp_step. split; [done|]. by apply quiet_same_tables. }
  wp_use Hdecision as r w1 H1. destruct H1 as [-> Ht1]. cbn iota.
  wp_step. unfold serve_cached. cbn [negb]. wp_step.
  wp_step. unfold gather, fetch_links. cbn [url_given].
  wp_step. wp_step.
  wp_use (get_category_articles_unreachable category limit w1 Hdown) as r w2 H2.
  destruct H2 as [-> Hq2]. apply quiet_same_tables in Hq2.
  wp_step. cbn iota. wp_step. cbn [resolve_links]. wp_step. cbn beta iota.
  wp_step. cbn [summarize_all]. wp_step. cbn beta iota.
  cbn [app]. rewrite slice_to_nil.
  assert (Ht2 : same_tables w w2) by eauto using same_tables_trans.
  wp_step.
  - wp_step.
    wp_use (get_category_articles_unreachable category (limit * 2) w2 Hdown) as r w3 H3.
    destruct H3 as [-> Hq3]. apply quiet_same_tables in Hq3.
    cbn [top_up_loop]. wp_step. wp_step. unfold persist. cbn. wp_steps.
    split; [done|]. eauto using same_tables_trans.
  - wp_step. wp_step. unfold persist. cbn. by wp_steps.
Qed.

Lemma for_categories_unreachable categories limit results w :
  healthy env ->
  (forall t url, http_listing env t url = None) ->
  (forall category, category ∈ categories -> category_cache w !! category = None) ->
  wp (for_categories env categories limit results) w (fun r w' =>
    exists results', r = Ok results'
      /\ (forall category, category ∈ categories -> results' !! category = Some [])
      /\ (forall category, category ∉ categories ->
            results' !! category = results !! category)).
Proof.
  intros Hh Hdown. revert results w.
  induction categories as [|category rest IH]; intros results w Hnone.
  - cbn. wp_step. eexists. split_and!; [done| |done].
    intros c Hc. by apply elem_of_nil in Hc.
  - cbn [for_categories]. wp_step.
    wp_use (process_category_unreachable category limit results w Hh Hdown) as r w1 H1.
    { apply Hnone. by left. }
    destruct H1 as [-> [_ Hcc]].
    wp_use (IH (<[category := []]> results) w1) as r w2 H2.
    { intros c Hc. rewrite Hcc. apply Hnone. by right. }
    destruct H2 as (results' & -> & Hres & Hrest). eexists. split_and!; [done| |].
    + intros c Hc. apply elem_of_cons in Hc as [->|Hc]; [|by apply Hres].
      destruct (decide (category ∈ rest)) as [Hin|Hnotin]; [by apply Hres|].
      by rewrite Hrest, lookup_insert_eq.
    + intros c Hc. apply not_elem_of_cons in Hc as [Hne Hc].
      by rewrite Hrest, lookup_insert_ne.
Qed.

(** A store error in one category ends the whole call with that error. *)
Lemma get_articles_with_cache_raises categories1 category categories2 limit
    w results1 w1 e w2 :
  for_categories env categories1 limit ∅ w = (Ok results1, w1) ->
  process_category env category limit results1 w1 = (Raise e, w2) ->
  get_articles_with_cache env (categories1 ++ category :: categories2) limit w
  = (Raise e, w2).
Proof.
  intros Hbefore Hraise.
  unfold get_articles_with_cache, try_finally.
  rewrite for_categories_app. unfold bind at 1. rewrite Hbefore.
  cbn [for_categories]. unfold bind at 1. by rewrite Hraise.
Qed.

(** With a healthy database the call returns normally, whatever the fetchers
    do. *)
Lemma get_articles_with_cache_returns categories limit w :
  healthy env ->
  exists results w',
    get_articles_with_cache env categories limit w = (Ok results, w').
Proof.
  intros Hh.
  pose proof (for_categories_spec env categories limit ∅ w) as Hspec.
  unfold get_articles_with_cache, try_finally, db_close, ret. unfold wp in Hspec.
  destruct (for_categories env categories limit ∅ w) as [[results|e] w1].
  - eauto.
  - destruct Hspec as [Hok _]. by destruct (Hok Hh).
Qed.

End Failures.

(** * The statements tried on the scenarios *)

Import Scenario.

Example split_example :
  Py.split (Py.strip (Py.lower "  Alpha  beta Gamma ")) = ["alpha"; "beta"; "gamma"].
Proof. reflexivity. Qed.

Example listing_example :
  get_category_articles env "india" 6 empty_world = (Ok listing, listed_world).
Proof. vm_compute. reflexivity. Qed.

Example chain_example :
  _deduplicate_articles chain
  = [stub_of "a" "Floods close northern highway for second day";
     stub_of "c" "Floods close coastal highway for third day running"].
Proof. vm_compute. reflexivity. Qed.

(** The fence-post "transit" is entry 2 of the listing: the two entries before
    it are new. *)
Lemma C1_fence_post_prefix_witness :
  get_incremental_articles env "india" (url_of "transit") 2 empty_world
  = (Ok (take 2 listing), listed_world)
  /\ url_of "transit" ∉ map stub_url (take 2 listing).
Proof.
  apply (C1_fence_post_prefix env "india" (url_of "transit") 2 empty_world
           listing listed_world 2
           (stub_of "transit" "City council approves new transit line")).
  - vm_compute. reflexivity.
  - reflexivity.
  - reflexivity.
Defined.

(** A fence-post that is not in the listing: the top two entries are new. *)
Lemma C6_fence_post_absent_witness :
  get_incremental_articles env "india" (url_of "archive") 2 empty_world
  = (Ok (take (Z.to_nat 2) listing), listed_world).
Proof.
  apply (C6_fence_post_absent env "india" (url_of "archive") 2 empty_world
           listing listed_world).
  - vm_compute. reflexivity.
  - apply (bool_decide_unpack _). vm_compute. exact I.
Defined.

Lemma C2_bounded_output_witness :
  Py.len (default [] (india_results !! "india")) <= 2.
Proof.
  apply (C2_bounded_output env ["india"] 2 empty_world india_results india_run.2
           "india" (default [] (india_results !! "india"))).
  - lia.
  - vm_compute. reflexivity.
  - vm_compute. reflexivity.
Defined.

(** C2, as stated, fails for a negative target count: the fresh cache of
    [two_rows_world] is served through [cached_articles[:-1]], which holds
    one article. *)
Lemma C2_counterexample :
  ~ (forall env categories limit_per_category w results w' category final_articles,
       get_articles_with_cache env categories limit_per_category w = (Ok results, w') ->
       results !! category = Some final_articles ->
       Py.len final_articles <= limit_per_category).
Proof.
  intros Hclaim.
  specialize (Hclaim env ["india"] (-1) Cases.two_rows_world
                {[ "india" := [dict_of_row (Cases.row_at 2 "budget" 9)] ]}
                (get_articles_with_cache env ["india"] (-1) Cases.two_rows_world).2
                "india" [dict_of_row (Cases.row_at 2 "budget" 9)]).
  assert (Hlen : Py.len [dict_of_row (Cases.row_at 2 "budget" 9)] <= -1).
  { apply Hclaim; vm_compute; reflexivity. }
  vm_compute in Hlen. by apply Hlen.
Qed.

Lemma C10_every_category_has_an_entry_witness :
  dom india_results = list_to_set ["india"]
  /\ forall category, category ∈ ["india"] -> is_Some (india_results !! category).
Proof.
  apply (C10_every_category_has_an_entry env ["india"] 2 empty_world
           india_results india_run.2).
  vm_compute. reflexivity.
Defined.

(** In the chain of three, the second stub is dropped against the first. *)
Lemma C3_dedup_first_kept_wins_witness :
  _deduplicate_articles (take 2 chain) = _deduplicate_articles (take 1 chain).
Proof.
  destruct (C3_dedup_first_kept_wins chain) as (_ & _ & Hdrop).
  destruct (Hdrop (take 1 chain)
              (stub_of "b" "Floods close northern highway for third day")
              (drop 2 chain) eq_refl) as (_ & Hdropped & _).
  apply Hdropped.
  exists (stub_of "a" "Floods close northern highway for second day"). split.
  - apply (bool_decide_unpack _). vm_compute. exact I.
  - apply (bool_decide_unpack _). vm_compute. exact I.
Defined.

(** C3, as stated, fails on the chain of three: the second and the third stub
    are over the threshold, and it is the later one that is kept. *)
Lemma C3_counterexample :
  ~ (forall (articles : list Stub) i j a b,
       articles !! i = Some a -> articles !! j = Some b -> (i < j)%nat ->
       overlap_exceeds a b ->
       a ∈ _deduplicate_articles articles).
Proof.
  intros Hclaim.
  specialize (Hclaim chain 1%nat 2%nat
                (stub_of "b" "Floods close northern highway for third day")
                (stub_of "c" "Floods close coastal highway for third day running")
                eq_refl eq_refl).
  assert (Hkept : stub_of "b" "Floods close northern highway for third day"
                  ∈ _deduplicate_articles chain).
  { apply Hclaim; [lia|]. apply (bool_decide_unpack _). vm_compute. exact I. }
  apply (bool_decide_pack _) in Hkept. vm_compute in Hkept. exact Hkept.
Qed.

(** Storing the article of [cached_world] again. *)
Lemma C7_store_idempotent_witness :
  filter (fun row => row_url row = url_of "budget")
    (articles (store_articles_in_db env [budget_dict] cached_world).2)
  = filter (fun row => row_url row = url_of "budget") (articles cached_world)
  /\ forall article_ids,
       (store_articles_in_db env [budget_dict] cached_world).1 = Ok article_ids ->
       article_ids !! 0%nat = Some 1.
Proof.
  destruct (C7_store_idempotent env [budget_dict] cached_world
              (store_articles_in_db env [budget_dict] cached_world).1
              (store_articles_in_db env [budget_dict] cached_world).2)
    as (_ & Hsame & _).
  - vm_compute. reflexivity.
  - apply (Hsame 0%nat budget_dict (row_of 1 "budget")).
    + reflexivity.
    + vm_compute. reflexivity.
Defined.

(** The refresh of a stale cache whose row has no content: "budget" is new
    and comes first, the cached article follows, and only "budget" is
    stored. *)
Lemma C8_cache_overwritten_witness :
  exists article_ids w_stored,
    store_articles_in_db env [budget_dict] Cases.mixed_gather.2
    = (Ok article_ids, w_stored)
    /\ category_cache Cases.mixed_persist.2
       = <["india" := {| category_name := "india";
                         latest_article_url := url_of "budget";
                         cached_articles_json := article_ids;
                         cached_at := utcnow env (S (tick w_stored)) |}]>
           (category_cache Cases.mixed_gather.2)
    /\ articles Cases.mixed_persist.2 = articles w_stored.
Proof.
  destruct (C8_cache_overwritten env "india" 2 (Some (url_of "monsoon"))
              Cases.mixed_world Cases.mixed_final Cases.mixed_gather.2
              Cases.mixed_persist.2 budget_dict) as (Hstored & _ & _).
  - vm_compute. reflexivity.
  - reflexivity.
  - vm_compute. reflexivity.
  - apply Hstored. discriminate.
Defined.

(** C8, as stated, fails when the only article of the final list has no
    content: with the Listing Fetcher unreachable, the refresh of
    [hollow_world] returns the cached article, nothing is stored, and the
    cache entry keeps its old [cached_at]. *)
Lemma C8_counterexample :
  ~ (forall env category limit latest_cached_url w final_articles w1 w2 first,
       gather env category limit latest_cached_url w = (Ok final_articles, w1) ->
       head final_articles = Some first ->
       persist env category final_articles w1 = (Ok tt, w2) ->
       exists article_ids w_stored,
         store_articles_in_db env final_articles w1 = (Ok article_ids, w_stored)
         /\ category_cache w2
            = <[category := {| category_name := category;
                               latest_article_url := a_url first;
                               cached_articles_json := article_ids;
                               cached_at := utcnow env (S (tick w_stored)) |}]>
                (category_cache w1)).
Proof.
  intros Hclaim.
  destruct (Hclaim env_unreachable "india" 2 (Some (url_of "budget"))
              Cases.hollow_world [dict_of_row (Cases.hollow_row 1 "budget")]
              Cases.hollow_gather.2 Cases.hollow_persist.2
              (dict_of_row (Cases.hollow_row 1 "budget")))
    as (article_ids & w_stored & Hstore & Hcache).
  - vm_compute. reflexivity.
  - reflexivity.
  - vm_compute. reflexivity.
  - vm_compute in Hstore. injection Hstore as <- <-.
    apply (f_equal (fun m => cached_at <$> m !! "india")) in Hcache.
    vm_compute in Hcache. discriminate.
Qed.

(** The fresh cache of [cached_world] is served without a content fetch. *)
Lemma C4_fresh_cache_no_content_fetch_witness :
  content_calls (calls (process_category env "india" 2 ∅ cached_world).2)
  = content_calls (calls cached_world)
  /\ same_tables cached_world (process_category env "india" 2 ∅ cached_world).2.
Proof.
  apply (C4_fresh_cache_no_content_fetch env "india" 2 ∅ cached_world fresh_entry).
  - vm_compute. reflexivity.
  - intros t. cbn. unfold steady_clock, FOUR_HOURS. lia.
  - intros w0. vm_compute. reflexivity.
  - exists (row_of 1 "budget"). split; [constructor|].
    apply (bool_decide_unpack _). vm_compute. exact I.
Defined.

(** C4, as stated, fails when the recorded article is gone from the table:
    the entry is within four hours and its url is the newest one, and yet the
    category is refreshed and the Content Fetcher is called. *)
Lemma C4_counterexample :
  ~ (forall env category limit results w cache_entry,
       category_cache w !! category = Some cache_entry ->
       (forall t, utcnow env t - cached_at cache_entry <= FOUR_HOURS) ->
       (forall w0, (get_latest_article_url env category w0).1
                   = Ok (Some (latest_article_url cache_entry))) ->
       content_calls (calls (process_category env category limit results w).2)
       = content_calls (calls w)).
Proof.
  intros Hclaim.
  specialize (Hclaim env "india" 2 ∅ dangling_world fresh_entry).
  assert (Hcalls : content_calls
                     (calls (process_category env "india" 2 ∅ dangling_world).2)
                   = content_calls (calls dangling_world)).
  { apply Hclaim.
    - vm_compute. reflexivity.
    - intros t. cbn. unfold steady_clock, FOUR_HOURS. lia.
    - intros w0. vm_compute. reflexivity. }
  vm_compute in Hcalls. discriminate.
Qed.

(** The unreachable Listing Fetcher with the fresh cache entry. *)
Lemma C9_unreachable_listing_refreshes_with_fence_post_witness :
  exists w',
    should_update_cache env_unreachable "india" cached_world
    = (Ok (true, Some (latest_article_url fresh_entry)), w').
Proof.
  apply (C9_unreachable_listing_refreshes_with_fence_post
           env_unreachable "india" cached_world fresh_entry).
  - vm_compute. reflexivity.
  - reflexivity.
  - intros t url. reflexivity.
Defined.

(** C9, as stated, fails: with an entry in the cache and an unreachable
    Listing Fetcher the decision is not the one taken without an entry,
    [(True, None)]; it carries the stored url as fence-post. *)
Lemma C9_counterexample :
  ~ (forall env category w cache_entry,
       category_cache w !! category = Some cache_entry ->
       db_fault env (tick w) = false ->
       (forall t url, http_listing env t url = None) ->
       (should_update_cache env category w).1 = Ok (true, None)).
Proof.
  intros Hclaim.
  specialize (Hclaim env_unreachable "india" cached_world fresh_entry).
  assert (Hdecision : (should_update_cache env_unreachable "india" cached_world).1
                      = Ok (true, None)).
  { apply Hclaim; [vm_compute; reflexivity | reflexivity | intros t url; reflexivity]. }
  vm_compute in Hdecision. discriminate.
Qed.

(** * Further properties *)

(** ** The listing *)

Section MoreListing.

Implicit Types (st : scan_state) (link : Link) (page : Page).

Lemma add_link_stub_ok category link full_url st :
  Forall (stub_ok category) st.1 ->
  Py.contains "indianexpress.com" full_url = true ->
  _is_valid_article_url full_url = true ->
  Forall (stub_ok category) (add_link category link full_url st).1.
Proof.
  intros Hst Hsite Hvalid. unfold add_link.
  destruct (_ && _) eqn:Hc; [|done]. cbn.
  apply Forall_app. split; [done|]. apply Forall_singleton.
  apply andb_true_iff in Hc as [_ Hlen]. apply Nat.ltb_lt in Hlen.
  by split_and!.
Qed.

Lemma headline_step_stub_ok category limit st link :
  Forall (stub_ok category) st.1 ->
  Forall (stub_ok category) (headline_step category limit st link).1.
Proof.
  intros Hst. unfold headline_step.
  destruct (full_url_of link) as [full_url|]; [|done].
  destruct (_ && _) eqn:Hc; [|done].
  rewrite !andb_true_iff in Hc. destruct Hc as [[[Hsite _] Hvalid] _].
  by apply add_link_stub_ok.
Qed.

Lemma fallback_loop_stub_ok category limit links st :
  Forall (stub_ok category) st.1 ->
  Forall (stub_ok category) (fallback_loop category limit links st).1.
Proof.
  revert st. induction links as [|link links IH]; intros st Hst; [done|].
  cbn. destruct (limit <=? Py.len st.1); [done|]. apply IH.
  destruct (full_url_of link) as [full_url|]; [|done].
  destruct (_ && _) eqn:Hc; [|done].
  rewrite !andb_true_iff in Hc. destruct Hc as [[Hsite _] Hvalid].
  by apply add_link_stub_ok.
Qed.

Lemma sublist_Forall_stub {A} (P : A -> Prop) (l k : list A) :
  l `sublist_of` k -> Forall P k -> Forall P l.
Proof.
  intros Hsub Hk. rewrite Forall_forall in *. intros x Hx. apply Hk.
  by apply (sublist_subseteq _ _ Hsub).
Qed.

Lemma listing_of_page_stub_ok category limit page :
  Forall (stub_ok category) (listing_of_page category limit page).
Proof.
  unfold listing_of_page.
  assert (Hst1 : Forall (stub_ok category)
            (foldl (foldl (headline_step category limit)) ([], ∅)
               (headline_links page)).1).
  { generalize (headline_links page). intros selected.
    assert (H0 : Forall (stub_ok category) (([], ∅) : scan_state).1) by done.
    revert H0. generalize (([], ∅) : scan_state).
    induction selected as [|links selected IH]; intros st Hst; [done|].
    cbn. apply IH. clear IH. revert st Hst.
    induction links as [|link links IH]; intros st Hst; [done|].
    cbn. apply IH. by apply headline_step_stub_ok. }
  eapply sublist_Forall_stub.
  { etrans; [apply slice_to_sublist | apply deduplicate_sublist]. }
  destruct (_ <? _); [by apply fallback_loop_stub_ok|done].
Qed.

End MoreListing.

(** ** The first entry of a listing *)

Section FirstEntry.

Implicit Types (s t st : scan_state) (link : Link) (page : Page).

Lemma deduplicate_head (articles : list Stub) :
  head (_deduplicate_articles articles) = head articles.
Proof.
  destruct articles as [|a rest]; [done|].
  rewrite deduplicate_foldl. cbn [foldl].
  assert (Hfirst : kept_step [] a = [a]).
  { unfold kept_step, is_duplicate. cbn. by rewrite elements_empty. }
  rewrite Hfirst. destruct (foldl_kept_prefix rest [a]) as [ext ->]. done.
Qed.

Lemma pairwise_distinct_unsnoc (u : list Stub) b :
  pairwise_distinct (u ++ [b]) ->
  pairwise_distinct u /\ forall a, a ∈ u -> ~ overlap_exceeds a b.
Proof.
  intros Hall. split.
  - intros i j a c Hi Hj Hlt.
    apply (Hall i j); [by apply lookup_app_l_Some..|done].
  - intros a Ha. apply list_elem_of_lookup in Ha as [i Hi].
    apply (Hall i (length u)).
    + by apply lookup_app_l_Some.
    + by rewrite list_lookup_middle.
    + by eapply lookup_lt_Some.
Qed.

(** A list with no near-duplicates passes the filter unchanged. *)
Lemma deduplicate_fixed (u : list Stub) :
  pairwise_distinct u -> _deduplicate_articles u = u.
Proof.
  induction u as [|b pre IH] using rev_ind; [done|].
  intros Hall. apply pairwise_distinct_unsnoc in Hall as [Hpre Hb].
  rewrite deduplicate_snoc, IH by done. unfold kept_step.
  destruct (is_duplicate _ _) eqn:Hdup; [|done].
  apply is_duplicate_spec in Hdup as (a & Ha & Hex). by destruct (Hb a Ha).
Qed.

Lemma scan_exact_start : scan_exact ([], ∅).
Proof. done. Qed.

Lemma add_link_exact category link full_url st :
  scan_exact st -> scan_exact (add_link category link full_url st).
Proof.
  unfold scan_exact, add_link. intros Hst.
  destruct (_ && _); [|done]. cbn.
  rewrite map_app, list_to_set_app_L, <- Hst. cbn. set_solver.
Qed.

Lemma add_link_head category link full_url st a :
  head st.1 = Some a -> head (add_link category link full_url st).1 = Some a.
Proof.
  unfold add_link. intros Ha. destruct (_ && _); [|done]. cbn.
  by rewrite head_app, Ha.
Qed.

Lemma headline_step_exact category limit st link :
  scan_exact st -> scan_exact (headline_step category limit st link).
Proof.
  intros Hst. unfold headline_step.
  destruct (full_url_of link); [|done]. destruct (_ && _); [|done].
  by apply add_link_exact.
Qed.

Lemma headline_step_head category limit st link a :
  head st.1 = Some a -> head (headline_step category limit st link).1 = Some a.
Proof.
  intros Ha. unfold headline_step.
  destruct (full_url_of link); [|done]. destruct (_ && _); [|done].
  by apply add_link_head.
Qed.

Lemma same_start_refl st : scan_exact st -> same_start st st.
Proof.
  intros Hst. split_and!; [done..|].
  destruct (st.1) as [|a rest]; [by left|right; by exists a].
Qed.

Lemma same_start_empty s t :
  scan_exact s -> scan_exact t -> s.1 = [] -> t.1 = [] -> s = ([], ∅) /\ t = ([], ∅).
Proof.
  unfold scan_exact. destruct s as [s1 s2], t as [t1 t2]. cbn.
  by intros -> -> -> ->.
Qed.

Lemma headline_step_same_start category n m s t link :
  1 <= n -> 1 <= m -> same_start s t ->
  same_start (headline_step category n s link) (headline_step category m t link).
Proof.
  intros Hn Hm (Hs & Ht & [[Hs1 Ht1]|(a & Ha & Hb)]).
  - destruct (same_start_empty s t Hs Ht Hs1 Ht1) as [-> ->].
    assert (Hsame : headline_step category n ([], ∅) link
                    = headline_step category m ([], ∅) link).
    { unfold headline_step. destruct (full_url_of link); [|done].
      cbn [snd]. rewrite size_empty.
      replace (Z.of_nat 0 <? n * 2) with true by (symmetry; apply Z.ltb_lt; lia).
      by replace (Z.of_nat 0 <? m * 2) with true by (symmetry; apply Z.ltb_lt; lia). }
    rewrite Hsame. by apply same_start_refl, headline_step_exact.
  - split_and!; [by apply headline_step_exact..|].
    right. exists a. split; by apply headline_step_head.
Qed.

Lemma headline_scan_same_start category n m (selected : list (list Link)) s t :
  1 <= n -> 1 <= m -> same_start s t ->
  same_start (foldl (foldl (headline_step category n)) s selected)
             (foldl (foldl (headline_step category m)) t selected).
Proof.
  intros Hn Hm. revert s t.
  induction selected as [|links selected IH]; intros s t Hst; [done|].
  cbn. apply IH. clear IH. revert s t Hst.
  induction links as [|link links IH]; intros s t Hst; [done|].
  cbn. apply IH. by apply headline_step_same_start.
Qed.

Lemma fallback_loop_exact category limit links st :
  scan_exact st -> scan_exact (fallback_loop category limit links st).
Proof.
  revert st. induction links as [|link links IH]; intros st Hst; [done|].
  cbn. destruct (limit <=? Py.len st.1); [done|]. apply IH.
  destruct (full_url_of link); [|done]. destruct (_ && _); [|done].
  by apply add_link_exact.
Qed.

Lemma fallback_loop_head category limit links st a :
  head st.1 = Some a -> head (fallback_loop category limit links st).1 = Some a.
Proof.
  revert st. induction links as [|link links IH]; intros st Ha; [done|].
  cbn. destruct (limit <=? Py.len st.1); [done|]. apply IH.
  destruct (full_url_of link); [|done]. destruct (_ && _); [|done].
  by apply add_link_head.
Qed.

Lemma fallback_loop_same_start category n m links s t :
  1 <= n -> 1 <= m -> same_start s t ->
  same_start (fallback_loop category n links s) (fallback_loop category m links t).
Proof.
  intros Hn Hm. revert s t.
  induction links as [|link links IH]; intros s t Hst; [done|].
  destruct Hst as (Hs & Ht & [[Hs1 Ht1]|(a & Ha & Hb)]).
  - destruct (same_start_empty s t Hs Ht Hs1 Ht1) as [-> ->].
    cbn [fallback_loop fst].
    replace (n <=? Py.len []) with false by (symmetry; apply Z.leb_gt; unfold Py.len; cbn; lia).
    replace (m <=? Py.len []) with false by (symmetry; apply Z.leb_gt; unfold Py.len; cbn; lia).
    apply IH. apply same_start_refl.
    destruct (full_url_of link); [|done]. destruct (_ && _); [|done].
    by apply add_link_exact.
  - split_and!; [by apply fallback_loop_exact..|].
    right. exists a. split; by apply fallback_loop_head.
Qed.

Lemma head_slice_to {A} (xs : list A) n : 1 <= n -> head (Py.slice_to xs n) = head xs.
Proof.
  intros Hn. rewrite slice_to_nonneg by lia.
  destruct (Z.to_nat n) as [|k] eqn:Hk; [lia|]. by destruct xs.
Qed.

Lemma listing_of_page_head_any_limit category n m page :
  1 <= n -> 1 <= m ->
  head (listing_of_page category n page) = head (listing_of_page category m page).
Proof.
  intros Hn Hm. unfold listing_of_page.
  rewrite !head_slice_to, !deduplicate_head by done.
  pose proof (headline_scan_same_start category n m (headline_links page)
                ([], ∅) ([], ∅) Hn Hm (same_start_refl _ scan_exact_start)) as H1.
  set (s := foldl (foldl (headline_step category n)) _ _) in *.
  set (t := foldl (foldl (headline_step category m)) _ _) in *.
  assert (H2 : same_start
            (if Py.len s.1 <? n then fallback_loop category n (all_links page) s else s)
            (if Py.len t.1 <? m then fallback_loop category m (all_links page) t else t)).
  { destruct H1 as (Hs & Ht & [[Hs1 Ht1]|(a & Ha & Hb)]).
    - rewrite Hs1, Ht1. unfold Py.len. cbn [length].
      replace (Z.of_nat 0 <? n) with true by (symmetry; apply Z.ltb_lt; lia).
      replace (Z.of_nat 0 <? m) with true by (symmetry; apply Z.ltb_lt; lia).
      apply fallback_loop_same_start; [done..|].
      destruct (same_start_empty s t Hs Ht Hs1 Ht1) as [-> ->].
      by apply same_start_refl.
    - split_and!.
      + destruct (_ <? _); [by apply fallback_loop_exact|done].
      + destruct (_ <? _); [by apply fallback_loop_exact|done].
      + right. exists a.
        split; (destruct (_ <? _); [by apply fallback_loop_head|done]). }
  destruct H2 as (_ & _ & [[-> ->]|(a & -> & ->)]); done.
Qed.

End FirstEntry.

(** ** Counting the calls to the fetchers *)

Lemma content_calls_app cs cs' :
  content_calls (cs ++ cs') = content_calls cs ++ content_calls cs'.
Proof. unfold content_calls. apply omap_app. Qed.

Lemma listing_calls_app cs cs' :
  listing_calls (cs ++ cs') = listing_calls cs ++ listing_calls cs'.
Proof. unfold listing_calls. apply omap_app. Qed.

Lemma fetched_refl w : fetched w w 0 0.
Proof. unfold fetched. split_and!; [done|lia..]. Qed.

Lemma fetched_advance w : fetched w (advance w) 0 0.
Proof.
  unfold fetched, n_listing, n_content, advance. cbn [calls].
  split_and!; [done|lia..].
Qed.

Lemma fetched_listing_call w category limit :
  fetched w (mkWorld (tick w) (articles w) (category_cache w)
               (calls w ++ [ListingCall category limit])) 1 0.
Proof.
  unfold fetched, n_listing, n_content. cbn [calls].
  rewrite listing_calls_app, content_calls_app, !length_app.
  change (length (listing_calls [ListingCall category limit])) with 1%nat.
  change (length (content_calls [ListingCall category limit])) with 0%nat.
  split_and!; [done|lia..].
Qed.

Lemma fetched_content_call w article_url :
  fetched w (mkWorld (tick w) (articles w) (category_cache w)
               (calls w ++ [ContentCall article_url])) 0 1.
Proof.
  unfold fetched, n_listing, n_content. cbn [calls].
  rewrite listing_calls_app, content_calls_app, !length_app.
  change (length (listing_calls [ContentCall article_url])) with 0%nat.
  change (length (content_calls [ContentCall article_url])) with 1%nat.
  split_and!; [done|lia..].
Qed.

Lemma fetched_trans w1 w2 w3 a b c d :
  fetched w1 w2 a b -> fetched w2 w3 c d -> fetched w1 w3 (a + c) (b + d).
Proof.
  intros (Ht & Hl & Hc) (Ht' & Hl' & Hc').
  split_and!; [by eapply same_tables_trans|lia..].
Qed.

Lemma fetched_then w1 w2 w3 a b :
  fetched w1 w2 a b -> fetched w2 w3 0 0 -> fetched w1 w3 a b.
Proof.
  intros H1 H2. pose proof (fetched_trans _ _ _ _ _ _ _ H1 H2) as H.
  by rewrite !Nat.add_0_r in H.
Qed.

Lemma fetched_after w1 w2 w3 a b :
  fetched w1 w2 0 0 -> fetched w2 w3 a b -> fetched w1 w3 a b.
Proof. intros H1 H2. exact (fetched_trans _ _ _ _ _ _ _ H1 H2). Qed.

Lemma listing_of_page_length category limit page :
  (length (listing_of_page category limit page) <= Z.to_nat limit)%nat.
Proof.
  destruct (decide (0 <= limit)) as [Hn|Hn].
  - pose proof (listing_of_page_len category limit page Hn) as H.
    unfold Py.len in H. lia.
  - rewrite listing_of_page_nonpos by lia. cbn. lia.
Qed.

Section MoreFetchers.

Variable env : Env.

Lemma get_category_articles_more category limit w :
  wp (get_category_articles env category limit) w (fun r w' =>
    fetched w w' 1 0
    /\ exists listing, r = Ok listing
         /\ (length listing <= Z.to_nat limit)%nat
         /\ NoDup (map stub_url listing)
         /\ Forall (stub_ok category) listing).
Proof.
  pose proof (fun w0 => fetched_listing_call w0 category limit) as Hcall.
  unfold get_category_articles. wp_steps.
  - split.
    + eapply fetched_then; [apply Hcall|apply fetched_advance].
    + eexists. split_and!; [done|apply listing_of_page_length
                            |apply listing_of_page_NoDup|apply listing_of_page_stub_ok].
  - split.
    + eapply fetched_then; [apply Hcall|apply fetched_advance].
    + eexists. split_and!; [done|cbn; lia|apply NoDup_nil_2|done].
  - split; [apply Hcall|].
    eexists. split_and!; [done|cbn; lia|apply NoDup_nil_2|done].
Qed.

Lemma get_article_content_more article_url w :
  wp (get_article_content env article_url) w (fun r w' =>
    fetched w w' 0 1
    /\ exists o, r = Ok o
        /\ forall s, o = Some s -> s_url s = article_url /\ s_content s <> "").
Proof.
  assert (Hcall : fetched w (advance (mkWorld (tick w) (articles w) (category_cache w)
                           (calls w ++ [ContentCall article_url]))) 0 1).
  { eapply fetched_then; [apply fetched_content_call|apply fetched_advance]. }
  unfold get_article_content. wp_steps.
  all: split; [exact Hcall|]; eexists; split; [done|]; intros s' [= <-].
  cbn. split; [done|]. apply negb_false_iff in Heqb. by apply truthy_true.
Qed.

(** What [summarize] keeps of an article. *)
Lemma summarize_more article w :
  wp (summarize env article) w (fun r w' =>
    fetched w w' 0 0
    /\ exists article', r = Ok article'
        /\ a_url article' = a_url article
        /\ a_content article' = a_content article
        /\ a_category article' = a_category article).
Proof.
  unfold summarize. wp_steps.
  - split; [apply fetched_advance|]. eexists. by split_and!.
  - split; [apply fetched_refl|]. eexists. by split_and!.
Qed.

End MoreFetchers.

Lemma fetched_bounded w w' a b : fetched w w' a b -> bounded w w' a b.
Proof. intros (Ht & Hl & Hc). split_and!; [done|lia..]. Qed.

Lemma bounded_refl w : bounded w w 0 0.
Proof. apply fetched_bounded, fetched_refl. Qed.

Lemma bounded_trans w1 w2 w3 a b c d :
  bounded w1 w2 a b -> bounded w2 w3 c d -> bounded w1 w3 (a + c) (b + d).
Proof.
  intros (Ht & Hl & Hc) (Ht' & Hl' & Hc').
  split_and!; [by eapply same_tables_trans|lia..].
Qed.

Lemma bounded_mono w w' a b a' b' :
  bounded w w' a b -> (a <= a')%nat -> (b <= b')%nat -> bounded w w' a' b'.
Proof. intros (Ht & Hl & Hc) Ha Hb. split_and!; [done|lia..]. Qed.

Lemma quiet_calls_bounded w w' :
  same_tables w w' -> calls w' = calls w -> bounded w w' 0 0.
Proof.
  intros Ht Hcalls. unfold bounded, n_listing, n_content. rewrite Hcalls.
  split_and!; [done|lia..].
Qed.

Section MoreLoops.

Variable env : Env.

Lemma resolve_links_more category new_article_links acc w :
  wp (resolve_links env category new_article_links acc) w (fun r w' =>
    fetched w w' 0 (length new_article_links)
    /\ exists resolved kept, r = Ok resolved
        /\ map a_url resolved = map a_url acc ++ kept
        /\ kept `sublist_of` map stub_url new_article_links
        /\ (Forall (resolved_ok category) acc ->
            Forall (resolved_ok category) resolved)).
Proof.
  revert acc w. induction new_article_links as [|article_link rest IH]; intros acc w.
  - cbn. wp_step. split; [apply fetched_refl|].
    exists acc, []. split_and!; [done|by rewrite app_nil_r|done|done].
  - cbn [resolve_links]. wp_step.
    wp_use (get_article_content_more env (stub_url article_link) w) as r w1 H1.
    destruct H1 as (Hf & o & -> & Ho). destruct o as [article_content|].
    + wp_use (IH (acc ++ [with_category category article_content]) w1) as r w2 H2.
      destruct H2 as (Hf2 & resolved & kept & -> & Hurls & Hsub & Hok).
      split; [exact (fetched_trans _ _ _ _ _ _ _ Hf Hf2)|].
      destruct (Ho _ eq_refl) as [Hurl Hcontent].
      exists resolved, (stub_url article_link :: kept). split_and!.
      * done.
      * rewrite Hurls, map_app, <- app_assoc. cbn. by rewrite Hurl.
      * cbn. by apply sublist_skip.
      * intros Hacc. apply Hok. apply Forall_app. split; [done|].
        by apply Forall_singleton.
    + wp_use (IH acc w1) as r w2 H2.
      destruct H2 as (Hf2 & resolved & kept & -> & Hurls & Hsub & Hok).
      split; [exact (fetched_trans _ _ _ _ _ _ _ Hf Hf2)|].
      exists resolved, kept. split_and!; [done..| |done].
      cbn. by apply sublist_cons.
Qed.

Lemma summarize_all_more new_articles_with_content w :
  wp (summarize_all env new_articles_with_content) w (fun r w' =>
    fetched w w' 0 0
    /\ exists summarized, r = Ok summarized
        /\ map a_url summarized = map a_url new_articles_with_content
        /\ forall category,
             Forall (resolved_ok category) new_articles_with_content ->
             Forall (resolved_ok category) summarized).
Proof.
  revert w. induction new_articles_with_content as [|article rest IH]; intros w.
  - cbn. wp_step. split; [apply fetched_refl|]. eexists. by split_and!.
  - cbn [summarize_all]. wp_step.
    wp_use (summarize_more env article w) as r w1 H1.
    destruct H1 as (Hf & article' & -> & Hurl & Hcontent & Hcat).
    wp_step. wp_use (IH w1) as r w2 H2.
    destruct H2 as (Hf2 & summarized & -> & Hurls & Hall).
    wp_step. split; [exact (fetched_trans _ _ _ _ _ _ _ Hf Hf2)|].
    eexists. split_and!; [done|cbn; congruence|].
    intros category Hc. apply Forall_cons in Hc as [[Hc1 Hc1'] Hc2].
    apply Forall_cons. split; [|by apply Hall].
    unfold resolved_ok. split; congruence.
Qed.

Lemma top_up_loop_more category limit additional_links final_articles existing_urls w :
  wp (top_up_loop env category limit additional_links final_articles existing_urls) w
    (fun r w' =>
       bounded w w' 0 (length additional_links)
       /\ exists topped, r = Ok topped
           /\ final_articles `prefix_of` topped
           /\ (NoDup (map a_url final_articles) ->
               (forall a, a ∈ final_articles -> a_url a ∈ existing_urls) ->
               NoDup (map a_url topped))).
Proof.
  revert final_articles existing_urls w.
  induction additional_links as [|article_link rest IH];
    intros final_articles existing_urls w.
  - cbn. wp_step. split; [apply bounded_refl|]. eexists. by split_and!.
  - cbn [top_up_loop]. wp_step.
    { wp_step. split; [eapply bounded_mono; [apply bounded_refl|lia..]|].
      eexists. by split_and!. }
    wp_step.
    + wp_step.
      wp_use (get_article_content_more env (stub_url article_link) w) as r w1 H1.
      destruct H1 as (Hf & o & -> & Ho). apply fetched_bounded in Hf.
      destruct o as [article_content|].
      * wp_step.
        wp_use (summarize_more env (with_category category article_content) w1) as r w2 H2.
        destruct H2 as (Hf2 & article' & -> & Hurl & _). apply fetched_bounded in Hf2.
        wp_use (IH (final_articles ++ [article'])
                  ({[stub_url article_link]} ∪ existing_urls) w2) as r w3 H3.
        destruct H3 as (Hb3 & topped & -> & Hpre & Hnd).
        split.
        { pose proof (bounded_trans _ _ _ _ _ _ _
                        (bounded_trans _ _ _ _ _ _ _ Hf Hf2) Hb3) as Hb.
          eapply bounded_mono; [apply Hb|cbn; lia..]. }
        eexists. split_and!; [done| |].
        -- etrans; [|apply Hpre]. by apply prefix_app_r.
        -- intros Hfinal Hin. apply bool_decide_eq_true in Heqb0.
           destruct (Ho _ eq_refl) as [Hsurl _]. cbn in Hurl.
           apply Hnd.
           ++ rewrite map_app. apply NoDup_app. split_and!; [done| |apply NoDup_singleton].
              intros u Hu Hu'. cbn in Hu'. apply list_elem_of_singleton in Hu'.
              apply list_elem_of_fmap in Hu as (a & -> & Ha).
              apply Heqb0. rewrite <- Hsurl, <- Hurl, <- Hu'. by apply Hin.
           ++ intros a Ha. apply elem_of_app in Ha as [Ha|Ha].
              ** apply elem_of_union_r. by apply Hin.
              ** apply list_elem_of_singleton in Ha as ->.
                 apply elem_of_union_l, elem_of_singleton. congruence.
      * wp_use (IH final_articles existing_urls w1) as r w2 H2.
        destruct H2 as (Hb2 & topped & -> & Hpre & Hnd).
        split; [|eauto].
        pose proof (bounded_trans _ _ _ _ _ _ _ Hf Hb2) as Hb.
        eapply bounded_mono; [apply Hb|cbn; lia..].
    + wp_use (IH final_articles existing_urls w) as r w2 H2.
      destruct H2 as (Hb2 & topped & -> & Hpre & Hnd).
      split; [|eauto]. eapply bounded_mono; [apply Hb2|cbn; lia..].
Qed.

End MoreLoops.

(** ** The keys of the two tables *)

Lemma next_id_above rows row : row ∈ rows -> row_id row < next_id rows.
Proof.
  unfold next_id. induction rows as [|r rows IH]; [by intros ?%elem_of_nil|].
  intros [->|Hin]%elem_of_cons; cbn; [lia|]. specialize (IH Hin). lia.
Qed.

Lemma next_id_fresh rows : next_id rows ∉ map row_id rows.
Proof.
  intros (row & Hid & Hin)%list_elem_of_fmap.
  pose proof (next_id_above _ _ Hin). lia.
Qed.

Lemma first_by_url_absent url rows :
  first_by_url url rows = None -> url ∉ map row_url rows.
Proof.
  intros Hnone (row & -> & Hin)%list_elem_of_fmap.
  apply first_by_url_None in Hnone.
  assert (row ∈ filter (fun r => row_url r = row_url row) rows) as Hf
    by (by apply list_elem_of_filter).
  rewrite Hnone in Hf. by apply elem_of_nil in Hf.
Qed.

Lemma db_step_refl touched w : db_step touched w w.
Proof. by split_and!. Qed.

Lemma db_step_same_tables touched w w' : same_tables w w' -> db_step touched w w'.
Proof.
  intros [Ha Hc]. unfold db_step, unique_urls, unique_ids, cache_refs_ok.
  rewrite Ha, Hc. by split_and!.
Qed.

Lemma db_step_trans t1 t2 w1 w2 w3 :
  db_step t1 w1 w2 -> db_step t2 w2 w3 -> db_step (t1 ∪ t2) w1 w3.
Proof.
  intros (Hp & Hc & Hu & Hi & Hr) (Hp' & Hc' & Hu' & Hi' & Hr').
  split_and!; [by etrans| |auto..].
  intros category Hn. rewrite Hc', Hc; [done|set_solver..].
Qed.

Lemma db_step_mono t1 t2 w w' : t1 ⊆ t2 -> db_step t1 w w' -> db_step t2 w w'.
Proof.
  intros Hsub (Hp & Hc & Hrest). split_and!; [done| |apply Hrest..].
  intros category Hn. apply Hc. set_solver.
Qed.

Lemma cache_refs_ok_appended w w' :
  articles w `prefix_of` articles w' -> category_cache w' = category_cache w ->
  cache_refs_ok w -> cache_refs_ok w'.
Proof.
  intros [more Hp] Hc Hok category cache_entry Hlook. rewrite Hc in Hlook.
  destruct (Hok _ _ Hlook) as [Hne Hids]. split; [done|].
  intros id Hid. rewrite Hp, map_app. apply elem_of_app. left. by apply Hids.
Qed.

Section MoreStore.

Variable env : Env.

(** The row that [add_article] appends takes the next id. *)
Lemma add_article_more article_data w :
  wp (add_article env article_data) w (fun _ w' =>
    articles w' = articles w
    \/ exists row, articles w' = articles w ++ [row]
         /\ row_url row = a_url article_data
         /\ row_id row = next_id (articles w)).
Proof.
  unfold add_article. wp_steps; cbn; try (by left).
  all: right; eexists; by split_and!.
Qed.

Lemma store_loop_unique batch acc w :
  wp (store_loop env batch acc) w (fun _ w' =>
    (unique_urls w -> unique_urls w') /\ (unique_ids w -> unique_ids w')).
Proof.
  revert acc w. induction batch as [|article_data rest IH]; intros acc w.
  - cbn. by wp_step.
  - cbn [store_loop]. unfold query_article_by_url.
    wp_step. wp_step. wp_step; [|done]. wp_step. wp_step.
    + wp_use (IH (acc ++ [row_id a]) (advance w)) as r w1 H1. done.
    + wp_step. wp_use (add_article_more article_data (advance w)) as r w1 H1.
      assert ((unique_urls w -> unique_urls w1) /\ (unique_ids w -> unique_ids w1))
        as [Hu Hi].
      { destruct H1 as [H1|(row & H1 & Hurl & Hid)]; unfold unique_urls, unique_ids;
          rewrite H1; [done|].
        change (articles (advance w)) with (articles w).
        rewrite !map_app. cbn. split; intros Hnd.
        - apply NoDup_app. split_and!; [done| |apply NoDup_singleton].
          intros u Hu ->%list_elem_of_singleton. revert Hu. rewrite Hurl.
          by apply first_by_url_absent.
        - apply NoDup_app. split_and!; [done| |apply NoDup_singleton].
          intros i Hi ->%list_elem_of_singleton. revert Hi. rewrite Hid.
          apply next_id_fresh. }
      destruct r as [article|e]; [|by split].
      wp_use (IH (acc ++ [row_id article]) w1) as r w2 H2.
      destruct H2 as [Hu2 Hi2]. split; auto.
Qed.

Lemma persist_more category final_articles w :
  wp (persist env category final_articles) w (fun r w' =>
    db_step {[category]} w w' /\ calls w' = calls w).
Proof.
  unfold persist.
  destruct (filter (fun a => Py.truthy (a_content a)) final_articles)
    as [|a batch] eqn:Hbatch.
  { wp_step. split; [apply db_step_refl|done]. }
  rewrite <- Hbatch.
  assert (length (filter (fun a => Py.truthy (a_content a)) final_articles) <> 0%nat)
    as Hlen by (by rewrite Hbatch).
  clear Hbatch. wp_step.
  wp_use (wp_and _ _ _ _
            (store_articles_in_db_spec env
               (filter (fun a => Py.truthy (a_content a)) final_articles) w)
            (store_loop_unique
               (filter (fun a => Py.truthy (a_content a)) final_articles) [] w))
    as r w1 H1.
  destruct H1 as [(Hp & Hc & Hcalls & _ & Hids & _ & _) [Hu Hi]].
  assert (db_step {[category]} w w1) as Hstep.
  { split_and!; [done| |done|done|by apply cache_refs_ok_appended].
    intros c _. by rewrite Hc. }
  destruct r as [article_ids|e]; [|done].
  destruct final_articles as [|first final_articles]; [by wp_step|].
  wp_use (update_category_cache_spec env category article_ids (a_url first) w1)
    as r w2 H2.
  destruct H2 as (Ha2 & Hcalls2 & _ & Hok & Hraise).
  split; [|congruence].
  destruct r as [[]|e].
  2:{ specialize (Hraise e eq_refl).
      replace {[category]} with ({[category]} ∪ (∅ : gset string)) by set_solver.
      eapply db_step_trans; [exact Hstep|]. by apply db_step_same_tables. }
  specialize (Hok eq_refl).
  destruct Hstep as (_ & _ & Hu' & Hi' & Hr').
  unfold db_step, unique_urls, unique_ids. rewrite Ha2.
  split_and!; [done| |done|done|].
  - intros c Hn. rewrite Hok, lookup_insert_ne by set_solver. by rewrite Hc.
  - intros Hrefs c cache_entry. rewrite Hok, Ha2. intros Hlook.
    destruct (decide (c = category)) as [->|Hne].
    + rewrite lookup_insert_eq in Hlook. injection Hlook as <-. cbn.
      destruct (Hids _ eq_refl) as (new_ids & -> & Hlen' & Hrows). cbn.
      split; [intros ->; apply Hlen; by rewrite <- Hlen'|].
      intros id (i & Hi_)%list_elem_of_lookup.
      assert (is_Some (filter (fun a => Py.truthy (a_content a))
                         (first :: final_articles) !! i)) as [article_data Hi_'].
      { apply lookup_lt_is_Some. rewrite <- Hlen'. by eapply lookup_lt_Some. }
      destruct (Hrows _ _ Hi_') as (row & Hrow & Hid).
      rewrite Hi_ in Hid. injection Hid as ->.
      apply list_elem_of_fmap. exists row. split; [done|].
      by apply first_by_url_Some in Hrow as [_ ?].
    + rewrite lookup_insert_ne in Hlook by done.
      eapply (Hr' Hrefs c cache_entry). by rewrite Hc in Hlook |- *.
Qed.

End MoreStore.

(** ** Reading the cache, once more *)

Lemma insert_desc_sorted r rows :
  newest_first rows -> newest_first (insert_desc r rows).
Proof.
  unfold newest_first. induction rows as [|r' rest IH]; intros Hs; cbn.
  - apply SSorted_cons; [constructor|constructor].
  - apply StronglySorted_inv in Hs as [Hrest Hall].
    destruct (row_scraped_at r' <=? row_scraped_at r) eqn:Hle.
    + apply Z.leb_le in Hle. apply SSorted_cons.
      * by apply SSorted_cons.
      * apply Forall_cons. split; [done|].
        eapply Forall_impl; [exact Hall|]. cbn. intros x Hx. lia.
    + apply Z.leb_gt in Hle. apply SSorted_cons; [by apply IH|].
      rewrite insert_desc_perm. apply Forall_cons. split; [lia|done].
Qed.

Lemma order_by_scraped_at_desc_sorted rows :
  newest_first (order_by_scraped_at_desc rows).
Proof.
  unfold order_by_scraped_at_desc. induction rows as [|r rows IH]; cbn.
  - constructor.
  - by apply insert_desc_sorted.
Qed.

Lemma cached_rows_NoDup cache_entry w rows :
  unique_urls w -> rows ≡ₚ cached_rows cache_entry w ->
  NoDup (map a_url (map dict_of_row rows)).
Proof.
  intros Hu Hperm. rewrite map_map. cbn.
  change (NoDup (row_url <$> rows)). rewrite Hperm.
  eapply sublist_NoDup; [exact Hu|]. apply fmap_sublist, sublist_filter.
Qed.

Lemma find_cached_index_Some (all_articles : list Stub) latest_cached_url i j :
  find_cached_index all_articles latest_cached_url i = Some j ->
  exists k, j = (i + k)%nat
    /\ latest_cached_url ∉ map stub_url (take k all_articles).
Proof.
  revert i. induction all_articles as [|article rest IH]; intros i; cbn; [done|].
  destruct (decide (stub_url article = latest_cached_url)) as [Heq|Hne].
  - intros [= <-]. exists 0%nat. split; [lia|]. cbn. apply not_elem_of_nil.
  - intros (k & -> & Hk)%IH. exists (S k). split; [lia|]. cbn.
    intros [Hin|Hin]%elem_of_cons; [by apply Hne|by apply Hk].
Qed.

Lemma find_cached_index_None (all_articles : list Stub) latest_cached_url i :
  find_cached_index all_articles latest_cached_url i = None ->
  latest_cached_url ∉ map stub_url all_articles.
Proof.
  revert i. induction all_articles as [|article rest IH]; intros i; cbn.
  - intros _. apply not_elem_of_nil.
  - destruct (decide (stub_url article = latest_cached_url)) as [Heq|Hne]; [done|].
    intros Hn%IH [Hin|Hin]%elem_of_cons; [by apply Hne|by apply Hn].
Qed.

Lemma to_nat_triple limit : Z.to_nat (limit * 3) = (3 * Z.to_nat limit)%nat.
Proof. lia. Qed.

Lemma to_nat_double limit : Z.to_nat (limit * 2) = (2 * Z.to_nat limit)%nat.
Proof. lia. Qed.

Lemma sublist_not_elem_of {A} (l1 l2 : list A) x :
  l1 `sublist_of` l2 -> x ∉ l2 -> x ∉ l1.
Proof. intros Hsub Hn Hin. apply Hn. by eapply sublist_subseteq. Qed.

Section MoreReading.

Variable env : Env.

Lemma get_cached_articles_more category w :
  wp (get_cached_articles env category) w (fun r w' =>
    same_tables w w' /\ calls w' = calls w
    /\ forall cached_articles, r = Ok (Some cached_articles) ->
         exists cache_entry rows,
           category_cache w !! category = Some cache_entry
           /\ rows ≡ₚ cached_rows cache_entry w
           /\ newest_first rows
           /\ cached_articles = map dict_of_row rows).
Proof.
  unfold get_cached_articles, query_category_cache, query_articles_in.
  wp_steps.
  all: split_and!; try done.
  intros cached [= <-]. eexists _, _. split_and!; [done| | |done].
  - unfold cached_rows. rewrite Heql. apply order_by_scraped_at_desc_perm.
  - apply order_by_scraped_at_desc_sorted.
Qed.

Lemma get_latest_article_url_more category w :
  wp (get_latest_article_url env category) w (fun r w' =>
    fetched w w' 1 0 /\ exists current, r = Ok current).
Proof.
  unfold get_latest_article_url. wp_step. wp_step.
  wp_use (get_category_articles_more env category 1 w) as r w1 H1.
  destruct H1 as (Hf & listing & -> & _).
  destruct listing; wp_steps; eauto.
Qed.

Lemma should_update_cache_more category w :
  wp (should_update_cache env category) w (fun r w' =>
    bounded w w' 1 0
    /\ forall should_update latest_cached_url,
         r = Ok (should_update, latest_cached_url) ->
         latest_cached_url = latest_article_url <$> category_cache w !! category
         /\ (category_cache w !! category = None -> should_update = true)).
Proof.
  unfold should_update_cache, query_category_cache.
  wp_step. wp_step. wp_step.
  2:{ split; [|done]. eapply bounded_mono; [apply fetched_bounded, fetched_advance|lia..]. }
  cbn beta. wp_step. cbn beta. wp_step.
  wp_use (get_latest_article_url_more category (advance w)) as r w1 H1.
  destruct H1 as (Hf & current & ->).
  pose proof (fetched_bounded _ _ _ _
                (fetched_trans _ _ _ _ _ _ _ (fetched_advance w) Hf)) as Hb.
  cbn in Hb.
  assert (bounded w (advance w1) 1 0) as Hb'.
  { pose proof (bounded_trans _ _ _ _ _ _ _ Hb
                  (fetched_bounded _ _ _ _ (fetched_advance w1))) as Hb'.
    eapply bounded_mono; [exact Hb'|lia..]. }
  wp_steps; (split; [done|]).
  all: intros b u [= <- <-]; change (category_cache (advance w)) with (category_cache w) in *.
  all: rewrite Heqo; cbn; by split.
Qed.

Lemma get_incremental_articles_more category latest_cached_url limit w :
  wp (get_incremental_articles env category latest_cached_url limit) w (fun r w' =>
    fetched w w' 1 0
    /\ exists new_articles, r = Ok new_articles
        /\ (length new_articles <= 3 * Z.to_nat limit)%nat
        /\ NoDup (map stub_url new_articles)
        /\ (latest_cached_url ∉ map stub_url new_articles)
        /\ Forall (stub_ok category) new_articles).
Proof.
  unfold get_incremental_articles. wp_step. wp_step.
  wp_use (get_category_articles_more env category (limit * 3) w) as r w1 H1.
  destruct H1 as (Hf & listing & -> & Hlen & Hnd & Hok).
  rewrite to_nat_triple in Hlen.
  destruct (find_cached_index listing latest_cached_url 0) as [cached_index|] eqn:Hfind;
    wp_step; (split; [done|]); eexists; (split; [done|]).
  - apply find_cached_index_Some in Hfind as (k & -> & Hk). cbn [Nat.add].
    split_and!.
    + rewrite length_take. lia.
    + eapply sublist_NoDup; [exact Hnd|]. apply fmap_sublist, sublist_take.
    + done.
    + by apply Forall_take.
  - apply find_cached_index_None in Hfind.
    pose proof (slice_to_sublist listing limit) as Hsub.
    split_and!.
    + apply sublist_length in Hsub. lia.
    + eapply sublist_NoDup; [exact Hnd|]. by apply fmap_sublist.
    + eapply sublist_not_elem_of; [|exact Hfind]. by apply fmap_sublist.
    + by apply slice_to_Forall.
Qed.

End MoreReading.

(** ** One category, once more *)

Lemma bounded_step w1 w2 w3 a b c d a' b' :
  bounded w1 w2 a b -> bounded w2 w3 c d ->
  (a + c <= a')%nat -> (b + d <= b')%nat -> bounded w1 w3 a' b'.
Proof.
  intros H1 H2 Ha Hb. eapply bounded_mono; [by eapply bounded_trans|done..].
Qed.

(** Adds up what the hypotheses say of the calls made between worlds. *)
Ltac count_calls :=
  unfold bounded, fetched, same_tables in *; destruct_and?;
  split_and!; [congruence|congruence|lia|lia].

Lemma unique_urls_same_tables w w' :
  same_tables w w' -> unique_urls w -> unique_urls w'.
Proof. intros [Ha _]. unfold unique_urls. by rewrite Ha. Qed.

Lemma slice_to_NoDup_urls (xs : list ArticleDict) n :
  NoDup (map a_url xs) -> NoDup (map a_url (Py.slice_to xs n)).
Proof.
  intros Hnd. eapply sublist_NoDup; [exact Hnd|].
  apply fmap_sublist, slice_to_sublist.
Qed.

Section MoreRefresh.

Variable env : Env.

Lemma fetch_links_more category limit latest_cached_url w :
  wp (fetch_links env category limit latest_cached_url) w (fun r w' =>
    bounded w w' 1 0
    /\ forall new_article_links cached_articles,
         r = Ok (new_article_links, cached_articles) ->
         (length new_article_links <= 3 * Z.to_nat limit)%nat
         /\ NoDup (map stub_url new_article_links)
         /\ (unique_urls w -> NoDup (map a_url cached_articles))).
Proof.
  unfold fetch_links. wp_step.
  - wp_step.
    wp_use (get_incremental_articles_more env category
              (default "" latest_cached_url) limit w) as r w1 H1.
    destruct H1 as (Hf & links & -> & Hlen & Hnd & _ & _).
    wp_step. wp_use (get_cached_articles_more env category w1) as r w2 H2.
    destruct H2 as (Ht & Hcalls & Hcached).
    assert (bounded w w2 1 0) as Hb.
    { apply (quiet_calls_bounded _ _ Ht) in Hcalls. count_calls. }
    destruct r as [cached|e]; [wp_step|]; (split; [done|]); [|done].
    intros ? ? [= <- <-]. split_and!; [done..|].
    intros Hu. destruct cached as [cached|]; cbn; [|constructor].
    destruct (Hcached _ eq_refl) as (cache_entry & rows & _ & Hperm & _ & ->).
    eapply cached_rows_NoDup; [|exact Hperm].
    destruct Hf as [Hsame _]. by eapply unique_urls_same_tables.
  - wp_step.
    wp_use (get_category_articles_more env category limit w) as r w1 H1.
    destruct H1 as (Hf & listing & -> & Hlen & Hnd & _).
    wp_step. split; [by apply fetched_bounded|].
    intros ? ? [= <- <-]. split_and!; [lia|done|]. intros _. constructor.
Qed.

Lemma gather_more category limit latest_cached_url w :
  wp (gather env category limit latest_cached_url) w (fun r w' =>
    bounded w w' 2 (5 * Z.to_nat limit)
    /\ forall final_articles, r = Ok final_articles ->
         unique_urls w -> NoDup (map a_url final_articles)).
Proof.
  unfold gather. wp_step.
  wp_use (fetch_links_more category limit latest_cached_url w) as r w1 H1.
  destruct H1 as (Hb1 & Hlinks).
  destruct r as [[new_article_links cached_articles]|e];
    [|split; [count_calls|done]].
  destruct (Hlinks _ _ eq_refl) as (Hlen & Hnd & Hcached). cbn iota. wp_step.
  wp_use (resolve_links_more env category new_article_links [] w1) as r w2 H2.
  destruct H2 as (Hf2 & resolved & kept & -> & Hurls & Hsub & _). cbn in Hurls.
  wp_step. wp_use (summarize_all_more env resolved w2) as r w3 H3.
  destruct H3 as (Hf3 & summarized & -> & Hurls3 & _).
  assert (bounded w w3 1 (3 * Z.to_nat limit)) as Hb3 by count_calls.
  set (all_articles := summarized ++ _).
  assert (Hall : unique_urls w -> NoDup (map a_url all_articles)).
  { intros Hu. unfold all_articles. rewrite map_app.
    assert (NoDup (map a_url summarized)) as Hnew.
    { rewrite Hurls3, Hurls. eapply sublist_NoDup; [exact Hnd|exact Hsub]. }
    destruct cached_articles as [|c cs]; [by rewrite app_nil_r|].
    apply NoDup_app. split_and!; [done| |].
    - intros u Hu1 (a & -> & Ha)%list_elem_of_fmap.
      apply list_elem_of_filter in Ha as [Ha _]. apply Ha.
      unfold url_set. by apply elem_of_list_to_set.
    - eapply sublist_NoDup; [exact (Hcached Hu)|].
      apply fmap_sublist, sublist_filter. }
  wp_step.
  - wp_step.
    wp_use (get_category_articles_more env category (limit * 2) w3) as r w4 H4.
    destruct H4 as (Hf4 & additional_links & -> & Hlen4 & _).
    rewrite to_nat_double in Hlen4.
    wp_use (top_up_loop_more env category limit additional_links
              (Py.slice_to all_articles limit) (url_set all_articles) w4) as r w5 H5.
    destruct H5 as (Hb5 & topped & -> & _ & Htop).
    split; [clear Hall; count_calls|].
    intros ? [= <-] Hu. apply Htop.

    + by apply slice_to_NoDup_urls, Hall.
    + intros a Ha. unfold url_set. apply elem_of_list_to_set.
      apply list_elem_of_fmap. exists a. split; [done|].
      eapply sublist_subseteq; [apply slice_to_sublist|exact Ha].
  - wp_step. split; [clear Hall; count_calls|].
    intros ? [= <-] Hu. by apply slice_to_NoDup_urls, Hall.
Qed.

Lemma serve_cached_more category limit should_update w :
  wp (serve_cached env category limit should_update) w (fun r w' =>
    same_tables w w' /\ calls w' = calls w
    /\ forall cached_articles, r = Ok (Some cached_articles) ->
         should_update = false
         /\ (unique_urls w -> NoDup (map a_url cached_articles))).
Proof.
  unfold serve_cached. destruct should_update; cbn [negb]; [by wp_step|].
  wp_step. wp_use (get_cached_articles_more env category w) as r w1 H1.
  destruct H1 as (Ht & Hcalls & Hcached). destruct r as [cached|e]; [|done].
  wp_steps; split_and!; try done.
  intros ? [= <-]. split; [done|].
  destruct (Hcached _ eq_refl) as (cache_entry & rows & _ & Hperm & _ & Heq).
  intros Hu. apply slice_to_NoDup_urls. rewrite Heq.
  by eapply cached_rows_NoDup.
Qed.

Lemma process_category_more category limit results w :
  wp (process_category env category limit results) w (fun r w' =>
    db_step {[category]} w w'
    /\ (n_listing w' <= n_listing w + 3)%nat
    /\ (n_content w' <= n_content w + 5 * Z.to_nat limit)%nat
    /\ forall results', r = Ok results' ->
         exists final_articles,
           results' = <[category := final_articles]> results
           /\ (unique_urls w -> NoDup (map a_url final_articles))).
Proof.
  unfold process_category. wp_step.
  wp_use (should_update_cache_more env category w) as r w1 H1.
  destruct H1 as (Hb1 & _).
  destruct r as [[should_update latest]|e].
  2:{ split_and!; [apply db_step_same_tables, Hb1| | |done];
        destruct Hb1 as (_ & ? & ?); lia. }
  cbn iota. wp_step.
  wp_use (serve_cached_more category limit should_update w1) as r w2 H2.
  destruct H2 as (Ht2 & Hcalls2 & Hserved).
  assert (bounded w w2 1 0) as Hb2.
  { apply (quiet_calls_bounded _ _ Ht2) in Hcalls2. count_calls. }
  destruct r as [served|e].
  2:{ split_and!; [apply db_step_same_tables, Hb2| | |done];
        destruct Hb2 as (_ & ? & ?); lia. }
  destruct served as [cached_articles|].
  - wp_step. split_and!; [apply db_step_same_tables, Hb2| | |].
    1,2: destruct Hb2 as (_ & ? & ?); lia.
    intros ? [= <-]. eexists. split; [done|]. intros Hu.
    destruct (Hserved _ eq_refl) as [_ Hnd]. apply Hnd.
    eapply unique_urls_same_tables; [apply Hb1|done].
  - wp_step. wp_use (gather_more category limit latest w2) as r w3 H3.
    destruct H3 as (Hb3 & Hfinal).
    assert (bounded w w3 3 (5 * Z.to_nat limit)) as Hb by (clear Hfinal; count_calls).
    destruct r as [final_articles|e].
    2:{ split_and!; [apply db_step_same_tables, Hb| | |done];
          destruct Hb as (_ & ? & ?); lia. }
    wp_step. wp_use (persist_more env category final_articles w3) as r w4 H4.
    destruct H4 as (Hstep & Hcalls4).
    assert (db_step {[category]} w w4) as Hstep'.
    { replace {[category]} with ((∅ : gset string) ∪ {[category]}) by set_solver.
      eapply db_step_trans; [apply db_step_same_tables, Hb|exact Hstep]. }
    assert ((n_listing w4 <= n_listing w + 3)%nat
            /\ (n_content w4 <= n_content w + 5 * Z.to_nat limit)%nat) as [Hl Hc].
    { unfold n_listing, n_content. rewrite Hcalls4. apply Hb. }
    destruct r as [[]|e]; [|done].
    wp_step. split_and!; [done..|].
    intros ? [= <-]. eexists. split; [done|]. intros Hu. apply Hfinal; [done|].
    eapply unique_urls_same_tables; [apply Hb2|done].
Qed.

Lemma for_categories_more categories limit results w :
  wp (for_categories env categories limit results) w (fun r w' =>
    db_step (list_to_set categories) w w'
    /\ (n_listing w' <= n_listing w + 3 * length categories)%nat
    /\ (n_content w' <= n_content w + 5 * Z.to_nat limit * length categories)%nat
    /\ forall results', r = Ok results' -> unique_urls w ->
         forall category final_articles,
           results' !! category = Some final_articles ->
           results !! category = Some final_articles
           \/ NoDup (map a_url final_articles)).
Proof.
  revert results w. induction categories as [|category rest IH]; intros results w.
  - cbn. wp_step. split_and!; [apply db_step_refl|lia|lia|].
    intros ? [= <-] _ c l Hl. by left.
  - cbn [for_categories]. wp_step.
    wp_use (process_category_more category limit results w) as r w1 H1.
    destruct H1 as (Hstep1 & Hl1 & Hc1 & Hres).
    destruct r as [results1|e].
    2:{ split_and!; [|cbn [length]; lia..|done].
        eapply db_step_mono; [|exact Hstep1]. set_solver. }
    destruct (Hres _ eq_refl) as (final & -> & Hnd).
    wp_use (IH (<[category := final]> results) w1) as r w2 H2.
    destruct H2 as (Hstep2 & Hl2 & Hc2 & Hres2).
    split_and!; [|cbn [length]; lia..|].
    + eapply db_step_mono; [|by eapply db_step_trans]. set_solver.
    + intros results' -> Hu c l Hl.
      destruct Hstep1 as (_ & _ & Hu1 & _).
      destruct (Hres2 _ eq_refl (Hu1 Hu) _ _ Hl) as [Hin|Hin]; [|by right].
      destruct (decide (category = c)) as [<-|Hne].
      * rewrite lookup_insert_eq in Hin. injection Hin as <-. right. by apply Hnd.
      * rewrite lookup_insert_ne in Hin by done. by left.
Qed.

Lemma get_articles_with_cache_more categories limit w :
  wp (get_articles_with_cache env categories limit) w (fun r w' =>
    db_step (list_to_set categories) w w'
    /\ (n_listing w' <= n_listing w + 3 * length categories)%nat
    /\ (n_content w' <= n_content w + 5 * Z.to_nat limit * length categories)%nat
    /\ forall results, r = Ok results -> unique_urls w ->
         forall category final_articles,
           results !! category = Some final_articles ->
           NoDup (map a_url final_articles)).
Proof.
  unfold get_articles_with_cache. wp_step.
  wp_use (for_categories_more categories limit ∅ w) as r w1 H1.
  destruct H1 as (Hstep & Hl & Hc & Hres). wp_step.
  split_and!; [done..|].
  intros results -> Hu c l Hlook.
  destruct (Hres _ eq_refl Hu _ _ Hlook) as [Hin|Hin]; [|done].
  by rewrite lookup_empty in Hin.
Qed.

End MoreRefresh.

(** ** [scrape_articles] and [generate_pdf] *)

Section MoreScrape.

Variable env : Env.

Lemma scrape_loop_more categories limit results w :
  wp (scrape_loop env categories limit results) w (fun r w' =>
    same_tables w w'
    /\ n_listing w' = (n_listing w + length categories)%nat
    /\ (n_content w' <= n_content w + Z.to_nat limit * length categories)%nat
    /\ exists results', r = Ok results'
        /\ dom results' = dom results ∪ list_to_set categories
        /\ forall category articles_with_content,
             results' !! category = Some articles_with_content ->
             results !! category = Some articles_with_content
             \/ (category ∈ categories
                 /\ (length articles_with_content <= Z.to_nat limit)%nat
                 /\ NoDup (map a_url articles_with_content)
                 /\ Forall (resolved_ok category) articles_with_content)).
Proof.
  revert results w. induction categories as [|category rest IH]; intros results w.
  - cbn. wp_step. split_and!; [apply same_tables_refl|lia|lia|].
    eexists. split_and!; [done|set_solver|auto].
  - cbn [scrape_loop]. wp_step.
    wp_use (get_category_articles_more env category limit w) as r w1 H1.
    destruct H1 as (Hf1 & article_links & -> & Hlen & Hnd & _).
    wp_step.
    wp_use (resolve_links_more env category article_links [] w1) as r w2 H2.
    destruct H2 as (Hf2 & resolved & kept & -> & Hurls & Hsub & Hok).
    cbn in Hurls. specialize (Hok (Forall_nil_2 _)).
    wp_use (IH (<[category := resolved]> results) w2) as r w3 H3.
    destruct H3 as (Ht3 & Hl3 & Hc3 & results' & -> & Hdom & Hvals).
    assert (length resolved <= Z.to_nat limit)%nat as Hlen'.
    { rewrite <- (length_map a_url), Hurls. apply sublist_length in Hsub.
      rewrite length_map in Hsub. lia. }
    split_and!.
    + destruct Hf1 as [? _], Hf2 as [? _]. eauto using same_tables_trans.
    + destruct Hf1 as (_ & ? & _), Hf2 as (_ & ? & _). cbn [length]. lia.
    + destruct Hf1 as (_ & _ & ?), Hf2 as (_ & _ & ?). cbn [length]. lia.
    + eexists. split_and!; [done| |].
      * rewrite Hdom, dom_insert_L. set_solver.
      * intros c l Hl. destruct (Hvals _ _ Hl) as [Hin|(Hc & Hrest)].
        -- destruct (decide (category = c)) as [<-|Hne].
           ++ rewrite lookup_insert_eq in Hin. injection Hin as <-. right.
              split_and!; [set_solver|done| |done].
              rewrite Hurls. eapply sublist_NoDup; [exact Hnd|exact Hsub].
           ++ rewrite lookup_insert_ne in Hin by done. by left.
        -- right. split; [set_solver|done].
Qed.

End MoreScrape.

(** ** Further statements about the code *)


(** X2 ([get_category_articles], lines 41-112): for one and the same page,
    the first entry of the listing is the same under every limit of at least
    one; the url that [get_latest_article_url] compares (limit 1) is the
    head of the listing that a refresh reads. *)
Theorem X2_first_entry_same_under_every_limit category n m page :
  1 <= n -> 1 <= m ->
  head (listing_of_page category n page) = head (listing_of_page category m page).
Proof. apply listing_of_page_head_any_limit. Qed.

Lemma X2_first_entry_same_under_every_limit_witness :
  head (listing_of_page "india" 1 page) = head (listing_of_page "india" 6 page).
Proof.
  apply (X2_first_entry_same_under_every_limit "india" 1 6 page); lia.
Defined.

(** X3 ([_deduplicate_articles]): filtering a filtered list changes
    nothing. *)
Theorem X3_deduplicate_idempotent (articles : list Stub) :
  _deduplicate_articles (_deduplicate_articles articles)
  = _deduplicate_articles articles.
Proof. apply deduplicate_fixed, deduplicate_pairwise. Qed.

(** X4 ([_deduplicate_articles]): the first article is always kept, and it
    stays first; in particular a non-empty list never becomes empty. *)
Theorem X4_deduplicate_keeps_first (articles : list Stub) :
  head (_deduplicate_articles articles) = head articles
  /\ (_deduplicate_articles articles = [] <-> articles = []).
Proof.
  pose proof (deduplicate_head articles) as Hhead. split; [done|].
  split; intros Hnil.
  - rewrite Hnil in Hhead. by destruct articles.
  - by rewrite Hnil.
Qed.

Lemma lower_char_slash c : Py.lower_char c = "/"%char <-> c = "/"%char.
Proof.
  destruct c as [[|] [|] [|] [|] [|] [|] [|] [|]]; vm_compute;
    (split; intros H; [try discriminate H; reflexivity
                      |try discriminate H; reflexivity]).
Qed.

Lemma split_on_slash_lower s word word' :
  length (Py.split_on_go "/" (Py.lower s) word)
  = length (Py.split_on_go "/" s word').
Proof.
  revert word word'. induction s as [|c s IH]; intros word word'; [done|].
  cbn [Py.lower Py.split_on_go].
  destruct (decide (c = "/"%char)) as [Hc|Hc].
  - rewrite decide_True by (by apply lower_char_slash). cbn [length].
    f_equal. apply IH.
  - rewrite decide_False by (by rewrite lower_char_slash). apply IH.
Qed.

(** X5 ([_is_valid_article_url]): the verdict does not depend on the case of
    the letters: two urls with the same lower-case form are both accepted or
    both rejected. The patterns are looked for in the lower-case url, and the
    one test made on the url as given, the number of its ['/']-separated
    parts, counts a character that has no case. *)
Theorem X5_validity_ignores_letter_case url1 url2 :
  Py.lower url1 = Py.lower url2 ->
  _is_valid_article_url url1 = _is_valid_article_url url2.
Proof.
  intros Hlower. unfold _is_valid_article_url. cbv zeta. rewrite Hlower.
  assert (Py.len (Py.split_on "/" url1) = Py.len (Py.split_on "/" url2)) as ->;
    [|done].
  unfold Py.len, Py.split_on. f_equal.
  rewrite <- (split_on_slash_lower url1 "" ""), <- (split_on_slash_lower url2 "" "").
  by rewrite Hlower.
Qed.

Lemma X5_validity_ignores_letter_case_witness :
  _is_valid_article_url "https://IndianExpress.com/Cricket/Final-Report"
  = _is_valid_article_url "https://indianexpress.com/cricket/final-report".
Proof.
  apply (X5_validity_ignores_letter_case
           "https://IndianExpress.com/Cricket/Final-Report"
           "https://indianexpress.com/cricket/final-report").
  vm_compute. reflexivity.
Defined.

(** X6 ([get_article_content]): the Content Fetcher never raises. It makes
    one content call and no listing call and leaves both tables alone; a
    dict it returns carries the url that was asked for and a content that is
    not empty. *)
Theorem X6_content_fetcher_result env article_url w :
  exists article_content w',
    get_article_content env article_url w = (Ok article_content, w')
    /\ fetched w w' 0 1
    /\ forall s, article_content = Some s ->
         s_url s = article_url /\ s_content s <> "".
Proof.
  pose proof (get_article_content_more env article_url w) as H.
  unfold wp in H. destruct (get_article_content env article_url w) as [r w'].
  cbn in H. destruct H as (Hf & o & -> & Hrest). by exists o, w'.
Qed.

(** X7 ([get_cached_articles]): the articles served from a cache entry are
    those rows whose id the entry records, each once, newest first; reading
    them changes no table and calls no fetcher. *)
Theorem X7_cached_articles_newest_first env category w cached_articles w' :
  get_cached_articles env category w = (Ok (Some cached_articles), w') ->
  same_tables w w' /\ calls w' = calls w
  /\ exists cache_entry rows,
       category_cache w !! category = Some cache_entry
       /\ rows ≡ₚ cached_rows cache_entry w
       /\ newest_first rows
       /\ cached_articles = map dict_of_row rows.
Proof.
  intros Hrun. pose proof (get_cached_articles_more env category w) as H.
  unfold wp in H. rewrite Hrun in H. cbn in H.
  destruct H as (Ht & Hcalls & Hrows). split_and!; [done..|]. by apply Hrows.
Qed.

Lemma X7_cached_articles_newest_first_witness :
  exists cache_entry rows,
    category_cache Cases.two_rows_world !! "india" = Some cache_entry
    /\ rows ≡ₚ cached_rows cache_entry Cases.two_rows_world
    /\ newest_first rows
    /\ map dict_of_row [Cases.row_at 2 "budget" 9; Cases.row_at 1 "monsoon" 5]
       = map dict_of_row rows.
Proof.
  apply (X7_cached_articles_newest_first env "india" Cases.two_rows_world
           (map dict_of_row [Cases.row_at 2 "budget" 9; Cases.row_at 1 "monsoon" 5])
           (get_cached_articles env "india" Cases.two_rows_world).2).
  vm_compute. reflexivity.
Defined.

(** X8 ([get_cached_articles], [should_update_cache]): expiry is strict and
    the same in both functions. With a healthy database and the clock at
    [cached_at + age], an entry of age up to and including four hours is
    served, and counts as out of date only if its url differs from the newest
    listed one; an entry older than that is not served and always counts as
    out of date. *)
Theorem X8_expiry_after_four_hours env category w cache_entry age :
  healthy env ->
  category_cache w !! category = Some cache_entry ->
  cached_articles_json cache_entry <> [] ->
  (forall t, utcnow env t = cached_at cache_entry + age) ->
  (age <= FOUR_HOURS ->
     (get_cached_articles env category w).1
     = Ok (Some (map dict_of_row
                   (order_by_scraped_at_desc (cached_rows cache_entry w))))
     /\ forall current,
          (get_latest_article_url env category (advance w)).1 = Ok current ->
          (should_update_cache env category w).1
          = Ok (bool_decide (Some (latest_article_url cache_entry) ≠ current),
                Some (latest_article_url cache_entry)))
  /\ (FOUR_HOURS < age ->
        (get_cached_articles env category w).1 = Ok None
        /\ (should_update_cache env category w).1
           = Ok (true, Some (latest_article_url cache_entry))).
Proof.
  intros Hh Hentry Hids Hclock.
  assert (Hcached : forall b, (FOUR_HOURS <? age) = b ->
            (get_cached_articles env category w).1
            = if b then Ok None
              else Ok (Some (map dict_of_row
                               (order_by_scraped_at_desc (cached_rows cache_entry w))))).
  { intros b Hb.
    unfold get_cached_articles, query_category_cache, query_articles_in,
      datetime_utcnow, bind, db_execute, read, ask, ret.
    rewrite Hh. cbn. rewrite Hentry, Hclock.
    replace (cached_at cache_entry + age - cached_at cache_entry) with age by lia.
    rewrite Hb. destruct b; [done|].
    destruct (cached_articles_json cache_entry) as [|id ids] eqn:Hjson; [done|].
    rewrite Hh. cbn. unfold cached_rows. by rewrite Hjson. }
  assert (Hupdate : forall b current,
            (FOUR_HOURS <? age) = b ->
            (get_latest_article_url env category (advance w)).1 = Ok current ->
            (should_update_cache env category w).1
            = Ok (if b then true
                  else bool_decide (Some (latest_article_url cache_entry) ≠ current),
                  Some (latest_article_url cache_entry))).
  { intros b current Hb Hcurrent.
    unfold should_update_cache, query_category_cache, datetime_utcnow, bind,
      db_execute, read, ask, ret.
    rewrite Hh. cbn.
    destruct (get_latest_article_url env category (advance w)) as [r w1].
    cbn in Hcurrent. subst r. rewrite Hentry, Hclock.
    replace (cached_at cache_entry + age - cached_at cache_entry) with age by lia.
    rewrite Hb. destruct b; [done|]. by destruct (bool_decide _). }
  split; intros Hage.
  - assert ((FOUR_HOURS <? age) = false) as Hb by (apply Z.ltb_ge; lia).
    split; [exact (Hcached _ Hb)|]. intros current. exact (Hupdate _ _ Hb).
  - assert ((FOUR_HOURS <? age) = true) as Hb by (apply Z.ltb_lt; lia).
    split; [exact (Hcached _ Hb)|].
    pose proof (get_latest_article_url_more env category (advance w)) as H.
    unfold wp in H. destruct H as (_ & current & Hcurrent).
    exact (Hupdate _ current Hb Hcurrent).
Qed.

(** The entry of [cached_world], read exactly four hours after it was
    written. *)
Lemma X8_expiry_after_four_hours_witness :
  (get_cached_articles (Cases.clock_at FOUR_HOURS) "india" cached_world).1
  = Ok (Some (map dict_of_row
                (order_by_scraped_at_desc (cached_rows fresh_entry cached_world)))).
Proof.
  destruct (X8_expiry_after_four_hours (Cases.clock_at FOUR_HOURS) "india"
              cached_world fresh_entry FOUR_HOURS) as [Hfresh _].
  - intros t. reflexivity.
  - vm_compute. reflexivity.
  - discriminate.
  - intros t. reflexivity.
  - apply Hfresh. lia.
Defined.

(** X9 ([get_incremental_articles]): the incremental listing never raises and
    costs one listing call. Whether or not the fence-post is listed, the
    result holds at most three times [limit] links, with pairwise different
    urls, and never one with the fence-post url. *)
Theorem X9_incremental_listing_excludes_fence_post env category latest_cached_url
    limit w :
  exists new_articles w',
    get_incremental_articles env category latest_cached_url limit w
    = (Ok new_articles, w')
    /\ fetched w w' 1 0
    /\ (length new_articles <= 3 * Z.to_nat limit)%nat
    /\ NoDup (map stub_url new_articles)
    /\ (latest_cached_url ∉ map stub_url new_articles)
    /\ Forall (stub_ok category) new_articles.
Proof.
  pose proof (get_incremental_articles_more env category latest_cached_url limit w)
    as H.
  unfold wp in H.
  destruct (get_incremental_articles env category latest_cached_url limit w)
    as [r w'].
  cbn in H. destruct H as (Hf & new_articles & -> & Hrest).
  by exists new_articles, w'.
Qed.

(** X10 ([should_update_cache]): when its one database query succeeds, the
    function returns; the url it hands on is the one stored in the cache
    entry, or [None] when there is no entry, and without an entry the answer
    is to update. It changes no table and makes one listing call and no
    content call. *)
Theorem X10_should_update_cache_hands_on_stored_url env category w :
  db_fault env (tick w) = false ->
  exists should_update w',
    should_update_cache env category w
    = (Ok (should_update, latest_article_url <$> category_cache w !! category), w')
    /\ fetched w w' 1 0
    /\ (category_cache w !! category = None -> should_update = true).
Proof.
  intros Hdb.
  unfold should_update_cache, query_category_cache, bind, db_execute, read.
  rewrite Hdb. cbn.
  pose proof (get_latest_article_url_more env category (advance w)) as H.
  unfold wp in H.
  destruct (get_latest_article_url env category (advance w)) as [r w1].
  cbn in H. destruct H as (Hf & current & ->).
  pose proof (fetched_trans _ _ _ _ _ _ _ (fetched_advance w) Hf) as Hf1.
  cbn in Hf1.
  destruct (category_cache w !! category) as [cache_entry|] eqn:Hentry; cbn.
  - unfold datetime_utcnow, ask, ret. cbn.
    pose proof (fetched_trans _ _ _ _ _ _ _ Hf1 (fetched_advance w1)) as Hf2.
    cbn in Hf2.
    destruct (FOUR_HOURS <? _); [|destruct (bool_decide _)];
      eexists _, _; by split_and!.
  - unfold ret. eexists _, _. by split_and!.
Qed.

Lemma X10_should_update_cache_hands_on_stored_url_witness :
  exists should_update w',
    should_update_cache env "india" stale_world
    = (Ok (should_update, latest_article_url <$> category_cache stale_world !! "india"),
       w')
    /\ fetched stale_world w' 1 0
    /\ (category_cache stale_world !! "india" = None -> should_update = true).
Proof.
  apply (X10_should_update_cache_hands_on_stored_url env "india" stale_world).
  reflexivity.
Defined.

(** X11 ([store_articles_in_db]): whatever the outcome, storing a batch
    keeps the urls of table [articles] pairwise different, and its ids as
    well. *)
Theorem X11_store_keeps_keys_unique env articles_with_content w :
  unique_urls w -> unique_ids w ->
  unique_urls (store_articles_in_db env articles_with_content w).2
  /\ unique_ids (store_articles_in_db env articles_with_content w).2.
Proof.
  intros Hu Hi. pose proof (store_loop_unique env articles_with_content [] w) as H.
  unfold wp in H. destruct H as [Hu' Hi']. unfold store_articles_in_db. auto.
Qed.

(** Storing one known and one new article next to the row of
    [cached_world]. *)
Lemma X11_store_keeps_keys_unique_witness :
  unique_urls (store_articles_in_db env
                 [budget_dict; dict_of_row (row_of 7 "transit")] cached_world).2
  /\ unique_ids (store_articles_in_db env
                   [budget_dict; dict_of_row (row_of 7 "transit")] cached_world).2.
Proof.
  apply (X11_store_keeps_keys_unique env
           [budget_dict; dict_of_row (row_of 7 "transit")] cached_world).
  - unfold unique_urls. apply (bool_decide_unpack _). vm_compute. exact I.
  - unfold unique_ids. apply (bool_decide_unpack _). vm_compute. exact I.
Defined.

(** X12 ([store_articles_in_db]): with a healthy database the function
    returns one id per article of the batch, in order, and each id is that of
    the first row that now carries the article's url. *)
Theorem X12_store_returns_ids_of_rows env articles_with_content w :
  healthy env ->
  exists article_ids w',
    store_articles_in_db env articles_with_content w = (Ok article_ids, w')
    /\ length article_ids = length articles_with_content
    /\ forall i article_data,
         articles_with_content !! i = Some article_data ->
         exists row,
           first_by_url (a_url article_data) (articles w') = Some row
           /\ article_ids !! i = Some (row_id row).
Proof.
  intros Hh. pose proof (store_articles_in_db_spec env articles_with_content w) as H.
  unfold wp in H.
  destruct (store_articles_in_db env articles_with_content w) as [r w'].
  cbn in H. destruct H as (_ & _ & _ & _ & Hids & Hok & _).
  specialize (Hok Hh). destruct r as [article_ids|e]; [|done].
  destruct (Hids _ eq_refl) as (new_ids & Heq & Hlen & Hrows). cbn in Heq. subst.
  by exists new_ids, w'.
Qed.

Lemma X12_store_returns_ids_of_rows_witness :
  exists article_ids w',
    store_articles_in_db env [budget_dict; dict_of_row (row_of 7 "transit")]
      cached_world = (Ok article_ids, w')
    /\ length article_ids = 2%nat
    /\ forall i article_data,
         [budget_dict; dict_of_row (row_of 7 "transit")] !! i = Some article_data ->
         exists row,
           first_by_url (a_url article_data) (articles w') = Some row
           /\ article_ids !! i = Some (row_id row).
Proof.
  apply (X12_store_returns_ids_of_rows env
           [budget_dict; dict_of_row (row_of 7 "transit")] cached_world).
  intros t. reflexivity.
Defined.

(** X13 ([get_articles_with_cache]): whatever the outcome, the call only
    appends rows to table [articles], and it leaves alone the cache entry of
    every category that it was not asked for. *)
Theorem X13_only_appends_rows env categories limit_per_category w :
  articles w
    `prefix_of` articles (get_articles_with_cache env categories limit_per_category w).2
  /\ forall category, category ∉ categories ->
       category_cache (get_articles_with_cache env categories limit_per_category w).2
         !! category
       = category_cache w !! category.
Proof.
  pose proof (get_articles_with_cache_more env categories limit_per_category w) as H.
  unfold wp in H. destruct H as ((Hp & Hc & _) & _). split; [done|].
  intros category Hn. apply Hc. by rewrite elem_of_list_to_set.
Qed.

(** X14 ([get_articles_with_cache]): whatever the outcome, if the urls of
    table [articles] are pairwise different before the call, and its ids as
    well, they are so after it. *)
Theorem X14_keeps_keys_unique env categories limit_per_category w :
  unique_urls w -> unique_ids w ->
  unique_urls (get_articles_with_cache env categories limit_per_category w).2
  /\ unique_ids (get_articles_with_cache env categories limit_per_category w).2.
Proof.
  intros Hu Hi.
  pose proof (get_articles_with_cache_more env categories limit_per_category w) as H.
  unfold wp in H. destruct H as ((_ & _ & Hu' & Hi' & _) & _). auto.
Qed.

(** The refresh of the stale cache stores new rows next to the known one. *)
Lemma X14_keeps_keys_unique_witness :
  unique_urls (get_articles_with_cache env ["india"] 2 stale_world).2
  /\ unique_ids (get_articles_with_cache env ["india"] 2 stale_world).2.
Proof.
  apply (X14_keeps_keys_unique env ["india"] 2 stale_world).
  - unfold unique_urls. apply (bool_decide_unpack _). vm_compute. exact I.
  - unfold unique_ids. apply (bool_decide_unpack _). vm_compute. exact I.
Defined.

(** X15 ([get_articles_with_cache]): whatever the outcome, if every cache
    entry records at least one id and only ids of rows of table [articles]
    before the call, the same holds after it. *)
Theorem X15_keeps_cache_references env categories limit_per_category w :
  cache_refs_ok w ->
  cache_refs_ok (get_articles_with_cache env categories limit_per_category w).2.
Proof.
  intros Hrefs.
  pose proof (get_articles_with_cache_more env categories limit_per_category w) as H.
  unfold wp in H. destruct H as ((_ & _ & _ & _ & Hr) & _). auto.
Qed.

Lemma X15_keeps_cache_references_witness :
  cache_refs_ok (get_articles_with_cache env ["india"] 2 stale_world).2.
Proof.
  apply (X15_keeps_cache_references env ["india"] 2 stale_world).
  intros category cache_entry Hentry.
  destruct (decide (category = "india")) as [->|Hne].
  - assert (cache_entry = stale_entry) as ->.
    { vm_compute in Hentry. by injection Hentry. }
    split; [discriminate|]. intros id Hid.
    apply list_elem_of_singleton in Hid as ->. cbn. constructor.
  - unfold stale_world in Hentry. cbn in Hentry.
    by rewrite lookup_singleton_ne in Hentry.
Defined.

(** X16 ([get_articles_with_cache]): if the urls of table [articles] are
    pairwise different, no category's result lists a url twice, whether the
    result was served from the cache or refreshed, merged and topped up. *)
Theorem X16_results_have_distinct_urls env categories limit_per_category w
    results w' category final_articles :
  unique_urls w ->
  get_articles_with_cache env categories limit_per_category w = (Ok results, w') ->
  results !! category = Some final_articles ->
  NoDup (map a_url final_articles).
Proof.
  intros Hu Hrun Hlook.
  pose proof (get_articles_with_cache_more env categories limit_per_category w) as H.
  unfold wp in H. rewrite Hrun in H. cbn in H. destruct H as (_ & _ & _ & Hres).
  by eapply Hres.
Qed.

Lemma X16_results_have_distinct_urls_witness :
  NoDup (map a_url
           (default []
              (match (get_articles_with_cache env ["india"] 2 stale_world).1 with
               | Ok results => results !! "india"
               | Raise _ => None
               end))).
Proof.
  apply (X16_results_have_distinct_urls env ["india"] 2 stale_world
           (match (get_articles_with_cache env ["india"] 2 stale_world).1 with
            | Ok results => results
            | Raise _ => ∅
            end)
           (get_articles_with_cache env ["india"] 2 stale_world).2 "india").
  - unfold unique_urls. apply (bool_decide_unpack _). vm_compute. exact I.
  - vm_compute. reflexivity.
  - vm_compute. reflexivity.
Defined.

(** X17 ([get_articles_with_cache]): whatever the outcome, the call makes at
    most three listing calls per category (one to compare the newest url, one
    to list, one to top up) and at most five times [limit_per_category]
    content calls per category (three times for the incremental listing, twice
    for the top-up); none at all for a limit below one. *)
Theorem X17_fetches_are_bounded env categories limit_per_category w :
  (n_listing (get_articles_with_cache env categories limit_per_category w).2
   <= n_listing w + 3 * length categories)%nat
  /\ (n_content (get_articles_with_cache env categories limit_per_category w).2
      <= n_content w + 5 * Z.to_nat limit_per_category * length categories)%nat.
Proof.
  pose proof (get_articles_with_cache_more env categories limit_per_category w) as H.
  unfold wp in H. destruct H as (_ & Hl & Hc & _). done.
Qed.

(** X18 ([scrape_articles]): the uncached scraper never raises and touches no
    table. It makes one listing call per category; its result has an entry
    for each category asked for and no other, and each entry holds at most
    [limit_per_category] articles (by default [N_ARTICLES]), with pairwise
    different urls, each with a non-empty content and tagged with the
    category. *)
Theorem X18_scrape_articles_result env N_ARTICLES categories limit_per_category w :
  exists results w',
    scrape_articles env N_ARTICLES categories limit_per_category w = (Ok results, w')
    /\ same_tables w w'
    /\ n_listing w' = (n_listing w + length categories)%nat
    /\ dom results = list_to_set categories
    /\ forall category articles_with_content,
         results !! category = Some articles_with_content ->
         category ∈ categories
         /\ (length articles_with_content
             <= Z.to_nat (default N_ARTICLES limit_per_category))%nat
         /\ NoDup (map a_url articles_with_content)
         /\ Forall (resolved_ok category) articles_with_content.
Proof.
  unfold scrape_articles.
  pose proof (scrape_loop_more env categories
                (default N_ARTICLES limit_per_category) ∅ w) as H.
  unfold wp in H.
  destruct (scrape_loop env categories (default N_ARTICLES limit_per_category) ∅ w)
    as [r w'].
  cbn in H. destruct H as (Ht & Hl & _ & results & -> & Hdom & Hvals).
  exists results, w'. split_and!; [done..|set_solver|].
  intros category l Hlook. destruct (Hvals _ _ Hlook) as [Hin|Hin]; [|done].
  by rewrite lookup_empty in Hin.
Qed.

(** X19 ([generate_pdf], lines 41-49 and 94-95): a request that names a
    category that is not configured is not answered with status 400: the
    [HTTPException] raised for it is caught by the handler's own [except] and
    raised again with status 500. Nothing is fetched and no table is
    touched. *)
Theorem X19_invalid_category_is_answered_with_500 env services request w category :
  category ∈ req_categories request ->
  CATEGORIES !! category = None ->
  exists invalid_categories,
    generate_pdf env services request w
    = (inr (HTTPException 500
              (StrOf (HTTPException 400 (InvalidCategories invalid_categories)))), w)
    /\ category ∈ invalid_categories.
Proof.
  intros Hin Hnone. unfold generate_pdf, generate_pdf_try.
  assert (category ∈ filter (fun c => CATEGORIES !! c = None) (req_categories request))
    as Hbad by (by apply list_elem_of_filter).
  destruct (filter _ (req_categories request)) as [|c cs] eqn:Hfilter.
  - by apply elem_of_nil in Hbad.
  - by eexists.
Qed.

Lemma X19_invalid_category_is_answered_with_500_witness :
  exists invalid_categories,
    generate_pdf env Cases.services Cases.weather_request empty_world
    = (inr (HTTPException 500
              (StrOf (HTTPException 400 (InvalidCategories invalid_categories)))),
       empty_world)
    /\ "weather" ∈ invalid_categories.
Proof.
  apply (X19_invalid_category_is_answered_with_500 env Cases.services
           Cases.weather_request empty_world "weather").
  - apply (bool_decide_unpack _). vm_compute. exact I.
  - vm_compute. reflexivity.
Defined.

(** X20 ([generate_pdf]): whatever goes wrong, the handler raises an
    [HTTPException] with status 500: the statuses 400 and 404 that it raises
    itself, a database error and a failure of the PDF builder all end there.
    When it answers instead, a PDF was built, so some category had an
    article. *)
Theorem X20_handler_raises_only_500 env services request w :
  match (generate_pdf env services request w).1 with
  | inr e => exists cause, e = HTTPException 500 (StrOf cause)
  | inl reply =>
      exists articles_by_category w1 pdf_path,
        get_articles_with_cache env (req_categories request)
          (n_or_10 (req_n request)) w = (Ok articles_by_category, w1)
        /\ any_articles articles_by_category = true
        /\ pdf_generate services (tick w1) articles_by_category = Some pdf_path
        /\ reply_pdf_url reply = "/download/" +:+ basename pdf_path
  end.
Proof.
  unfold generate_pdf, generate_pdf_try.
  destruct (filter _ (req_categories request)) as [|c cs]; [|by eexists].
  destruct (get_articles_with_cache env (req_categories request)
              (n_or_10 (req_n request)) w) as [[articles_by_category|e] w1];
    [|by eexists].
  destruct (any_articles articles_by_category) eqn:Hany; cbn [negb]; [|by eexists].
  destruct (pdf_generate services (tick w1) articles_by_category) as [pdf_path|]
    eqn:Hpdf; [|by eexists].
  destruct (url_given (req_email request)); [destruct (send_news_pdf _ _ _ _ _)|];
    cbn; by eexists _, _, _.
Qed.

(** X21 ([generate_pdf], line 54): [request.n or 10] turns a request for
    zero articles, like one whose [n] is null, into one for ten. *)
Theorem X21_zero_articles_means_ten env services request w :
  req_n request = Some 0 \/ req_n request = None ->
  generate_pdf env services request w
  = generate_pdf env services
      (mkGenerateRequest (req_categories request) (Some 10) (req_email request)) w.
Proof.
  intros Hn. unfold generate_pdf, generate_pdf_try. cbn [req_categories req_n req_email].
  assert (n_or_10 (req_n request) = n_or_10 (Some 10)) as ->; [|done].
  by destruct Hn as [-> | ->].
Qed.

Lemma X21_zero_articles_means_ten_witness :
  generate_pdf env Cases.services Cases.zero_request empty_world
  = generate_pdf env Cases.services (mkGenerateRequest ["india"] (Some 10) None)
      empty_world.
Proof.
  apply (X21_zero_articles_means_ten env Cases.services Cases.zero_request empty_world).
  left. reflexivity.
Defined.

(** * One category's failure and the other categories *)

(** ** Two runs from worlds that agree *)

Lemma agree_off_refl failed w : agree_off failed w w.
Proof. by split. Qed.

Lemma agree_off_advance failed w1 w2 :
  agree_off failed w1 w2 -> agree_off failed (advance w1) (advance w2).
Proof. done. Qed.

Section Alike.

Variable env : Env.
Variable failed : string.
Hypothesis Hhealthy : healthy env.
Hypothesis Hstationary : stationary env.

Lemma alike_ret {A} (a : A) : alike failed (ret a).
Proof. intros w1 w2 Hag. by exists a, w1, w2. Qed.

Lemma alike_bind {A B} (m : M A) (k : A -> M B) :
  alike failed m -> (forall a, alike failed (k a)) -> alike failed (bind m k).
Proof.
  intros Hm Hk w1 w2 Hag. unfold bind.
  destruct (Hm w1 w2 Hag) as (a & w1' & w2' & -> & -> & Hag').
  apply (Hk a w1' w2' Hag').
Qed.

Lemma alike_try_except {A} (m : M A) (handler : Exn -> M A) :
  alike failed m -> alike failed (try_except m handler).
Proof.
  intros Hm w1 w2 Hag. unfold try_except.
  destruct (Hm w1 w2 Hag) as (a & w1' & w2' & -> & -> & Hag'). by exists a, w1', w2'.
Qed.

Lemma alike_ask {A} (oracle : nat -> A) :
  (forall t t', oracle t = oracle t') -> alike failed (ask oracle).
Proof.
  intros Hsame w1 w2 Hag. unfold ask.
  exists (oracle (tick w1)), (advance w1), (advance w2).
  split_and!; [done|by rewrite (Hsame (tick w2) (tick w1))|done].
Qed.

Lemma alike_db_execute : alike failed (db_execute env).
Proof.
  intros w1 w2 Hag. unfold db_execute. rewrite !Hhealthy.
  by exists tt, (advance w1), (advance w2).
Qed.

Lemma alike_record_call c : alike failed (record_call c).
Proof. intros w1 w2 Hag. unfold record_call. by eexists tt, _, _. Qed.

Lemma alike_read {A} (f : World -> A) :
  (forall w1 w2, agree_off failed w1 w2 -> f w1 = f w2) -> alike failed (read f).
Proof.
  intros Hf w1 w2 Hag. unfold read. exists (f w1), w1, w2.
  split_and!; [done|by rewrite (Hf w1 w2 Hag)|done].
Qed.

Lemma alike_set_articles rows : alike failed (set_articles rows).
Proof.
  intros w1 w2 [_ Hcc]. unfold set_articles. eexists tt, _, _.
  split_and!; [done..|]. by split.
Qed.

(** One step through a computation built from the pieces above. *)
Ltac alike_step :=
  lazymatch goal with
  | |- alike _ (bind _ _) => apply alike_bind; [|intros ?]
  | |- alike _ (ret _) => apply alike_ret
  | |- alike _ (try_except _ _) => apply alike_try_except
  | |- alike _ (record_call _) => apply alike_record_call
  | |- alike _ (set_articles _) => apply alike_set_articles
  | |- alike _ (db_execute _) => apply alike_db_execute
  | |- alike _ (datetime_utcnow _) => apply alike_ask, Hstationary
  | |- alike _ (match ?x with _ => _ end) => destruct x
  end.

Ltac alike_steps := repeat (alike_step; cbn beta).

Lemma alike_get_category_articles category limit :
  alike failed (get_category_articles env category limit).
Proof.
  unfold get_category_articles. alike_step; [alike_step|].
  destruct (CATEGORIES !! category) as [category_url|]; [|alike_step].
  alike_step; [|alike_steps].
  apply alike_ask. intros t t'. apply Hstationary.
Qed.

Lemma alike_get_article_content article_url :
  alike failed (get_article_content env article_url).
Proof.
  unfold get_article_content. alike_step; [alike_step|].
  alike_step; [|alike_steps].
  apply alike_ask. intros t t'. apply Hstationary.
Qed.

Lemma alike_query_category_cache category :
  category <> failed -> alike failed (query_category_cache env category).
Proof.
  intros Hne. unfold query_category_cache. alike_step; [alike_step|].
  apply alike_read. intros w1 w2 [_ Hcc]. by apply Hcc.
Qed.

Lemma alike_query_article_by_url url : alike failed (query_article_by_url env url).
Proof.
  unfold query_article_by_url. alike_step; [alike_step|].
  apply alike_read. intros w1 w2 [Ha _]. by rewrite Ha.
Qed.

Lemma alike_query_articles_in article_ids :
  alike failed (query_articles_in env article_ids).
Proof.
  unfold query_articles_in. alike_step; [alike_step|].
  apply alike_read. intros w1 w2 [Ha _]. by rewrite Ha.
Qed.

Lemma alike_get_cached_articles category :
  category <> failed -> alike failed (get_cached_articles env category).
Proof.
  intros Hne. unfold get_cached_articles.
  alike_step; [by apply alike_query_category_cache|].
  destruct a as [cache_entry|]; [|alike_step].
  alike_step; [alike_step|]. cbv zeta.
  destruct (FOUR_HOURS <? _); [alike_step|].
  destruct (cached_articles_json cache_entry) as [|id ids]; [alike_step|].
  alike_step; [apply alike_query_articles_in|alike_step].
Qed.

Lemma alike_get_latest_article_url category :
  alike failed (get_latest_article_url env category).
Proof.
  unfold get_latest_article_url. alike_step.
  alike_step; [apply alike_get_category_articles|alike_steps].
Qed.

Lemma alike_should_update_cache category :
  category <> failed -> alike failed (should_update_cache env category).
Proof.
  intros Hne. unfold should_update_cache.
  alike_step; [by apply alike_query_category_cache|].
  alike_step; [apply alike_get_latest_article_url|].
  destruct a as [cache_entry|]; [|alike_step].
  alike_step; [alike_step|]. cbv zeta. alike_steps.
Qed.

Lemma alike_get_incremental_articles category latest_cached_url limit :
  alike failed (get_incremental_articles env category latest_cached_url limit).
Proof.
  unfold get_incremental_articles. alike_step.
  alike_step; [apply alike_get_category_articles|alike_steps].
Qed.

Lemma alike_add_article article_data : alike failed (add_article env article_data).
Proof.
  unfold add_article. alike_step; [alike_step|]. alike_step; [alike_step|].
  alike_step; [apply alike_read; by intros w1 w2 [-> _]|].
  cbv zeta. alike_steps.
Qed.

Lemma alike_store_loop batch acc : alike failed (store_loop env batch acc).
Proof.
  revert acc. induction batch as [|article_data rest IH]; intros acc; cbn [store_loop].
  - alike_step.
  - alike_step; [apply alike_query_article_by_url|].
    destruct a as [existing|]; [apply IH|].
    alike_step; [apply alike_add_article|apply IH].
Qed.

Lemma alike_update_category_cache category article_ids latest_url :
  alike failed (update_category_cache env category article_ids latest_url).
Proof.
  intros w1 w2 [Ha Hcc].
  unfold update_category_cache, query_category_cache, datetime_utcnow, bind,
    db_execute, read, ask, set_category_cache.
  rewrite !Hhealthy. cbn. rewrite ?Hhealthy.
  assert (utcnow env (S (tick w2)) = utcnow env (S (tick w1))) as Hnow
    by apply Hstationary.
  destruct (category_cache w1 !! category), (category_cache w2 !! category);
    eexists tt, _, _; (split_and!; [reflexivity..|]); (split; [done|]);
    intros other Hother; cbn; rewrite Hnow;
    (destruct (decide (other = category)) as [->|Hne];
     [by rewrite !lookup_insert_eq|rewrite !lookup_insert_ne by done; by apply Hcc]).
Qed.

Lemma alike_resolve_links category links acc :
  alike failed (resolve_links env category links acc).
Proof.
  revert acc. induction links as [|article_link rest IH]; intros acc; cbn [resolve_links].
  - alike_step.
  - alike_step; [apply alike_get_article_content|]. destruct a; apply IH.
Qed.

Lemma alike_summarize article : alike failed (summarize env article).
Proof.
  unfold summarize. destruct (Py.truthy _); [|alike_step].
  alike_step; [|alike_step]. apply alike_ask. intros t t'. apply Hstationary.
Qed.

Lemma alike_summarize_all articles_with_content :
  alike failed (summarize_all env articles_with_content).
Proof.
  induction articles_with_content as [|article rest IH]; cbn [summarize_all].
  - alike_step.
  - alike_step; [apply alike_summarize|]. alike_step; [apply IH|alike_step].
Qed.

Lemma alike_top_up_loop category limit additional_links final_articles existing_urls :
  alike failed
    (top_up_loop env category limit additional_links final_articles existing_urls).
Proof.
  revert final_articles existing_urls.
  induction additional_links as [|article_link rest IH];
    intros final_articles existing_urls; cbn [top_up_loop].
  - alike_step.
  - destruct (limit <=? _); [alike_step|].
    destruct (bool_decide _); [|apply IH].
    alike_step; [apply alike_get_article_content|].
    destruct a as [article_content|]; [|apply IH].
    alike_step; [apply alike_summarize|apply IH].
Qed.

Lemma alike_fetch_links category limit latest_cached_url :
  category <> failed ->
  alike failed (fetch_links env category limit latest_cached_url).
Proof.
  intros Hne. unfold fetch_links. destruct (url_given _).
  - alike_step; [apply alike_get_incremental_articles|].
    alike_step; [by apply alike_get_cached_articles|alike_step].
  - alike_step; [apply alike_get_category_articles|alike_step].
Qed.

Lemma alike_gather category limit latest_cached_url :
  category <> failed -> alike failed (gather env category limit latest_cached_url).
Proof.
  intros Hne. unfold gather.
  alike_step; [by apply alike_fetch_links|].
  destruct a as [new_article_links cached_articles].
  alike_step; [apply alike_resolve_links|].
  alike_step; [apply alike_summarize_all|]. cbv zeta.
  destruct (_ && _); [|alike_step].
  alike_step; [apply alike_get_category_articles|apply alike_top_up_loop].
Qed.

Lemma alike_persist category final_articles :
  alike failed (persist env category final_articles).
Proof.
  unfold persist. cbv zeta.
  destruct (filter _ final_articles) as [|a batch]; [alike_step|].
  alike_step; [apply alike_store_loop|].
  destruct final_articles; [alike_step|apply alike_update_category_cache].
Qed.

Lemma alike_serve_cached category limit should_update :
  category <> failed -> alike failed (serve_cached env category limit should_update).
Proof.
  intros Hne. unfold serve_cached. destruct (negb _); [|alike_step].
  alike_step; [by apply alike_get_cached_articles|alike_steps].
Qed.

(** One iteration for a category other than [failed], run from two worlds
    that agree and into two result dicts: the same list is recorded in
    both. *)
Lemma process_category_alike category limit results1 results2 w1 w2 :
  category <> failed -> agree_off failed w1 w2 ->
  exists final_articles w1' w2',
    process_category env category limit results1 w1
    = (Ok (<[category := final_articles]> results1), w1')
    /\ process_category env category limit results2 w2
       = (Ok (<[category := final_articles]> results2), w2')
    /\ agree_off failed w1' w2'.
Proof.
  intros Hne Hag. unfold process_category, bind.
  destruct (alike_should_update_cache category Hne w1 w2 Hag)
    as ([should_update latest] & w1a & w2a & -> & -> & Hag1).
  destruct (alike_serve_cached category limit should_update Hne w1a w2a Hag1)
    as (served & w1b & w2b & -> & -> & Hag2).
  destruct served as [cached_articles|]; [by eexists _, _, _|].
  destruct (alike_gather category limit latest Hne w1b w2b Hag2)
    as (final_articles & w1c & w2c & -> & -> & Hag3).
  destruct (alike_persist category final_articles w1c w2c Hag3)
    as ([] & w1d & w2d & -> & -> & Hag4).
  by eexists _, _, _.
Qed.

End Alike.

(** ** A category whose listing cannot be fetched *)

Lemma first_by_url_elem row rows :
  row ∈ rows -> is_Some (first_by_url (row_url row) rows).
Proof.
  intros Hin. destruct (first_by_url (row_url row) rows) eqn:Hfind; [by eexists|].
  apply first_by_url_absent in Hfind. destruct Hfind.
  apply list_elem_of_fmap. by exists row.
Qed.

Section Down.

Variable env : Env.
Hypothesis Hhealthy : healthy env.

Lemma get_category_articles_down category limit w :
  listing_down env category ->
  wp (get_category_articles env category limit) w (fun r w' =>
    r = Ok [] /\ quiet w w').
Proof.
  intros Hdown.
  eapply wp_mono.
  { apply wp_and with (Q' := fun r _ => r = Ok []);
      [apply get_category_articles_spec|].
    unfold get_category_articles. wp_steps; try done.
    by rewrite (Hdown _ Heqo) in Heqo0. }
  cbn beta. intros r w' [(l & _ & _ & _ & Hq) ->]. done.
Qed.

Lemma get_incremental_articles_down category latest_cached_url limit w :
  listing_down env category ->
  wp (get_incremental_articles env category latest_cached_url limit) w (fun r w' =>
    r = Ok [] /\ quiet w w').
Proof.
  intros Hdown. unfold get_incremental_articles. wp_step. wp_step.
  wp_use (get_category_articles_down category (limit * 3) w Hdown) as r w1 H1.
  destruct H1 as [-> Hq]. cbn [find_cached_index]. wp_step.
  by rewrite slice_to_nil.
Qed.

Lemma fetch_links_down category limit latest_cached_url w :
  listing_down env category ->
  wp (fetch_links env category limit latest_cached_url) w (fun r w' =>
    quiet w w'
    /\ exists cached_articles, r = Ok ([], cached_articles)
        /\ Forall (fun a => is_Some (first_by_url (a_url a) (articles w)))
             cached_articles
        /\ (category_cache w !! category = None -> cached_articles = [])).
Proof.
  intros Hdown. unfold fetch_links. wp_step.
  - wp_step.
    wp_use (get_incremental_articles_down category
              (default "" latest_cached_url) limit w Hdown) as r w1 H1.
    destruct H1 as [-> Hq1].
    wp_step. wp_use (get_cached_articles_spec env category w1) as r w2 H2.
    destruct H2 as (Hq2 & Hok & Hrows & _). specialize (Hok Hhealthy).
    destruct r as [cached|e]; [|done]. wp_step.
    split; [by eapply quiet_trans|]. eexists. split; [done|].
    destruct Hq1 as [[Ha1 Hc1] _].
    destruct cached as [cached|]; cbn; [|by split].
    destruct (Hrows _ eq_refl) as (cache_entry & rows & Hentry & Hperm & ->).
    split; [|intros Hnone; by rewrite Hc1, Hnone in Hentry].
    apply Forall_fmap, Forall_forall. intros row Hrow. cbn.
    apply first_by_url_elem. rewrite Hperm in Hrow. unfold cached_rows in Hrow.
    apply list_elem_of_filter in Hrow as [_ Hrow]. by rewrite <- Ha1.
  - wp_step.
    wp_use (get_category_articles_down category limit w Hdown) as r w1 H1.
    destruct H1 as [-> Hq1]. wp_step. split; [done|]. eexists. by split_and!.
Qed.

(** With the listing down, a refresh yields cached articles only: all of
    them have a row, and there are none without a cache entry. *)
Lemma gather_down category limit latest_cached_url w :
  listing_down env category ->
  wp (gather env category limit latest_cached_url) w (fun r w' =>
    quiet w w'
    /\ exists final_articles, r = Ok final_articles
        /\ Forall (fun a => is_Some (first_by_url (a_url a) (articles w)))
             final_articles
        /\ (category_cache w !! category = None -> final_articles = [])).
Proof.
  intros Hdown. unfold gather. wp_step.
  wp_use (fetch_links_down category limit latest_cached_url w Hdown) as r w1 H1.
  destruct H1 as (Hq1 & cached_articles & -> & Hpresent & Hnone).
  cbn iota. cbn [resolve_links]. wp_step. wp_step.
  cbn [summarize_all]. wp_step. wp_step. cbn [app].
  set (all_articles := match cached_articles with [] => [] | _ => _ end).
  assert (Hall : Forall (fun a => is_Some (first_by_url (a_url a) (articles w)))
                   all_articles).
  { unfold all_articles. destruct cached_articles as [|c cs]; [done|].
    apply Forall_forall. intros a Ha. apply list_elem_of_filter in Ha as [_ Ha].
    rewrite Forall_forall in Hpresent. by apply Hpresent. }
  assert (Hempty : category_cache w !! category = None ->
                   Py.slice_to all_articles limit = []).
  { intros Hn. unfold all_articles. rewrite (Hnone Hn). apply slice_to_nil. }
  wp_step.
  - wp_step.
    wp_use (get_category_articles_down category (limit * 2) w1 Hdown) as r w2 H2.
    destruct H2 as [-> Hq2]. cbn [top_up_loop]. wp_step.
    split; [by eapply quiet_trans|]. eexists. split_and!; [done| |done].
    by apply slice_to_Forall.
  - wp_step. split; [done|]. eexists. split_and!; [done| |done].
    by apply slice_to_Forall.
Qed.

(** Persisting articles that all have a row adds no row. *)
Lemma persist_present category final_articles w :
  Forall (fun a => is_Some (first_by_url (a_url a) (articles w))) final_articles ->
  wp (persist env category final_articles) w (fun r w' =>
    r = Ok tt /\ articles w' = articles w /\ (final_articles = [] -> w' = w)).
Proof.
  intros Hpresent. unfold persist.
  destruct (filter (fun a => Py.truthy (a_content a)) final_articles)
    as [|a batch] eqn:Hbatch.
  { by wp_step. }
  destruct (store_loop_present env (a :: batch) [] w Hhealthy) as (w1 & Hrun & Harts).
  { apply Forall_forall. intros x Hx. rewrite <- Hbatch in Hx.
    apply list_elem_of_filter in Hx as [_ Hx].
    rewrite Forall_forall in Hpresent. by apply Hpresent. }
  wp_step. apply wp_run. intros r w1' Hrun'.
  unfold store_articles_in_db in Hrun'. rewrite Hrun in Hrun'.
  injection Hrun' as <- <-.
  destruct final_articles as [|first others]; [done|].
  wp_use (update_category_cache_spec env category
            ([] ++ omap (fun a => row_id <$> first_by_url (a_url a) (articles w))
                     (a :: batch))
            (a_url first) w1) as r w2 H2.
  destruct H2 as (Ha2 & _ & Hok & _). specialize (Hok Hhealthy).
  destruct r as [[]|e]; [|done]. split_and!; [done|congruence|done].
Qed.

(** The iteration for a category whose listing is down: it returns, adds
    no row, and without a cache entry records the empty list and writes
    nothing. *)
Lemma process_category_down category limit results w :
  listing_down env category ->
  wp (process_category env category limit results) w (fun r w' =>
    exists final_articles,
      r = Ok (<[category := final_articles]> results)
      /\ articles w' = articles w
      /\ (category_cache w !! category = None ->
          final_articles = [] /\ category_cache w' = category_cache w)).
Proof.
  intros Hdown. unfold process_category. wp_step.
  wp_use (wp_and _ _ _ _ (should_update_cache_spec env category w)
            (should_update_cache_more env category w)) as r w1 H1.
  destruct H1 as [(Hq1 & Hok1) (_ & Hdecision)]. specialize (Hok1 Hhealthy).
  destruct r as [[should_update latest]|e]; [|done].
  destruct (Hdecision _ _ eq_refl) as [_ Hnone1].
  destruct Hq1 as [[Ha1 Hc1] _]. cbn iota. wp_step.
  wp_use (wp_and _ _ _ _ (serve_cached_spec env category limit should_update w1)
            (serve_cached_more env category limit should_update w1)) as r w2 H2.
  destruct H2 as [(Hq2 & Hok2 & _) (_ & _ & Hserved)]. specialize (Hok2 Hhealthy).
  destruct r as [served|e]; [|done].
  destruct Hq2 as [[Ha2 Hc2] _].
  destruct served as [cached_articles|].
  - wp_step. eexists. split_and!; [done|congruence|].
    intros Hnone. destruct (Hserved _ eq_refl) as [-> _].
    by specialize (Hnone1 Hnone).
  - wp_step. wp_use (gather_down category limit latest w2 Hdown) as r w3 H3.
    destruct H3 as (Hq3 & final_articles & -> & Hpresent & Hnone3).
    destruct Hq3 as [[Ha3 Hc3] _].
    wp_step. wp_use (persist_present category final_articles w3) as r w4 H4.
    { by rewrite Ha3. }
    destruct H4 as (-> & Ha4 & Hsame). wp_step.
    eexists. split_and!; [done|congruence|].
    intros Hnone. rewrite <- Hc1, <- Hc2 in Hnone.
    specialize (Hnone3 Hnone). split; [done|].
    rewrite (Hsame Hnone3). congruence.
Qed.

(** Without a cache entry for it, a category whose listing is down keeps
    the empty list to the end of the loop, and still has no cache entry
    then. *)
Lemma for_categories_down failed categories limit results w :
  listing_down env failed ->
  category_cache w !! failed = None ->
  wp (for_categories env categories limit results) w (fun r w' =>
    category_cache w' !! failed = None
    /\ forall results', r = Ok results' ->
         failed ∈ categories \/ results !! failed = Some [] ->
         results' !! failed = Some []).
Proof.
  intros Hdown. revert results w.
  induction categories as [|category rest IH]; intros results w Hnone.
  - cbn. wp_step. split; [done|]. intros ? [= <-] [Hin|Hres]; [|done].
    by apply elem_of_nil in Hin.
  - cbn [for_categories]. wp_step.
    destruct (decide (category = failed)) as [->|Hne].
    + wp_use (process_category_down failed limit results w Hdown) as r w1 H1.
      destruct H1 as (final_articles & -> & _ & Hempty).
      destruct (Hempty Hnone) as [-> Hcc].
      wp_use (IH (<[failed := []]> results) w1) as r w2 H2.
      { by rewrite Hcc. }
      destruct H2 as [Hnone2 Hres2]. split; [done|].
      intros results' -> _. apply (Hres2 _ eq_refl). right.
      by rewrite lookup_insert_eq.
    + wp_use (wp_and _ _ _ _ (process_category_spec env category limit results w)
                (process_category_more env category limit results w)) as r w1 H1.
      destruct H1 as [(_ & Hshape) ((_ & Hframe & _) & _)].
      assert (category_cache w1 !! failed = None) as Hnone1.
      { rewrite Hframe; [done|]. set_solver. }
      destruct r as [results1|e]; [|by split].
      destruct (Hshape _ eq_refl) as (final_articles & -> & _).
      wp_use (IH (<[category := final_articles]> results) w1 Hnone1) as r w2 H2.
      destruct H2 as [Hnone2 Hres2]. split; [done|].
      intros results' -> Hin. apply (Hres2 _ eq_refl).
      rewrite lookup_insert_ne by done.
      destruct Hin as [[?|Hin]%elem_of_cons|Hres]; [done|by left|by right].
Qed.

Hypothesis Hstationary : stationary env.

(** The loop, run from two worlds and two result dicts that agree apart
    from a category whose listing is down, ends in worlds and result dicts
    that agree likewise. *)
Lemma for_categories_alike failed categories limit results1 results2 w1 w2 :
  listing_down env failed ->
  agree_off failed w1 w2 -> results_agree failed results1 results2 ->
  exists results1' results2' w1' w2',
    for_categories env categories limit results1 w1 = (Ok results1', w1')
    /\ for_categories env categories limit results2 w2 = (Ok results2', w2')
    /\ results_agree failed results1' results2'
    /\ agree_off failed w1' w2'.
Proof.
  intros Hdown. revert results1 results2 w1 w2.
  induction categories as [|category rest IH];
    intros results1 results2 w1 w2 Hag Hres.
  - cbn. unfold ret. by eexists _, _, _, _.
  - cbn [for_categories]. unfold bind.
    assert (exists final1 final2 w1a w2a,
              process_category env category limit results1 w1
              = (Ok (<[category := final1]> results1), w1a)
              /\ process_category env category limit results2 w2
                 = (Ok (<[category := final2]> results2), w2a)
              /\ (category <> failed -> final1 = final2)
              /\ agree_off failed w1a w2a)
      as (final1 & final2 & w1a & w2a & -> & -> & Hfinal & Hag').
    { destruct (decide (category = failed)) as [->|Hne].
      - pose proof (wp_and _ _ _ _ (process_category_down failed limit results1 w1 Hdown)
                      (process_category_more env failed limit results1 w1)) as H1.
        pose proof (wp_and _ _ _ _ (process_category_down failed limit results2 w2 Hdown)
                      (process_category_more env failed limit results2 w2)) as H2.
        unfold wp in H1, H2.
        destruct (process_category env failed limit results1 w1) as [r1 w1a].
        destruct (process_category env failed limit results2 w2) as [r2 w2a].
        cbn in H1, H2.
        destruct H1 as [(final1 & -> & Ha1 & _) ((_ & Hf1 & _) & _)].
        destruct H2 as [(final2 & -> & Ha2 & _) ((_ & Hf2 & _) & _)].
        exists final1, final2, w1a, w2a. split_and!; [done..|].
        destruct Hag as [Ha Hcc]. split; [congruence|].
        intros c Hc. rewrite Hf1, Hf2 by set_solver. by apply Hcc.
      - destruct (process_category_alike env failed Hhealthy Hstationary
                    category limit results1 results2 w1 w2 Hne Hag)
          as (final & w1a & w2a & Hrun1 & Hrun2 & Hag').
        by exists final, final, w1a, w2a. }
    apply IH; [done|].
    intros c Hc. destruct (decide (c = category)) as [->|Hne].
    + rewrite !lookup_insert_eq. by rewrite (Hfinal Hc).
    + rewrite !lookup_insert_ne by done. by apply Hres.
Qed.

(** Leaving out of the batch a category whose listing is down changes
    neither the other categories' results nor what the call leaves in the
    database for them. *)
Lemma get_articles_with_cache_isolated failed categories1 categories2 limit w :
  listing_down env failed ->
  exists results results' w1 w2,
    get_articles_with_cache env (categories1 ++ failed :: categories2) limit w
    = (Ok results, w1)
    /\ get_articles_with_cache env (categories1 ++ categories2) limit w
       = (Ok results', w2)
    /\ results_agree failed results results'
    /\ agree_off failed w1 w2
    /\ (category_cache w !! failed = None -> results !! failed = Some []).
Proof.
  intros Hdown.
  pose proof (for_categories_down failed (categories1 ++ failed :: categories2)
                limit ∅ w Hdown) as Hempty.
  unfold get_articles_with_cache, try_finally, db_close, ret.
  unfold wp in Hempty. revert Hempty.
  rewrite !for_categories_app. unfold bind.
  pose proof (for_categories_spec env categories1 limit ∅ w) as H0.
  unfold wp in H0.
  destruct (for_categories env categories1 limit ∅ w) as [r wa].
  cbn in H0. destruct H0 as [Hok _]. specialize (Hok Hhealthy).
  destruct r as [ra|e]; [|done].
  cbn [for_categories]. unfold bind.
  pose proof (wp_and _ _ _ _ (process_category_down failed limit ra wa Hdown)
                (process_category_more env failed limit ra wa)) as H1.
  unfold wp in H1.
  destruct (process_category env failed limit ra wa) as [rb wb].
  cbn in H1. destruct H1 as [(final & -> & Ha1 & _) ((_ & Hf1 & _) & _)].
  destruct (for_categories_alike failed categories2 limit
              (<[failed := final]> ra) ra wb wa Hdown)
    as (results & results' & w1 & w2 & Hrun1 & Hrun2 & Hres & Hag).
  { split; [done|]. intros c Hc. apply Hf1. set_solver. }
  { intros c Hc. by rewrite lookup_insert_ne. }
  rewrite Hrun1, Hrun2. cbn. intros Hempty.
  exists results, results', w1, w2. split_and!; [done..|].
  intros Hnone. destruct (Hempty Hnone) as [_ Hres']. apply (Hres' _ eq_refl).
  left. set_solver.
Qed.

End Down.

(** ** Failures and the batch *)


(** With only the listing of "world" down, "india" and "sports" get their
    two articles each and "world" gets none. *)
Example one_listing_down_example :
  match (get_articles_with_cache Cases.env_world_down ["india"; "world"; "sports"] 2
           empty_world).1 with
  | Ok results =>
      (fun l => map a_url l) <$> results
      = {[ "india" := [url_of "budget"; url_of "monsoon"];
           "world" := [];
           "sports" := [url_of "budget"; url_of "monsoon"] ]}
  | Raise _ => False
  end.
Proof. vm_compute. reflexivity. Qed.


